(** * SyConn: chunk-wise object extraction, shallow embedding

    The development follows three source files of the repository:
    - [syconn/extraction/block_processing.py]      (module [BlockProcessing]),
    - [syconn_deprecated/processing/objectextraction.py]
                                                   (module [ObjectExtraction]),
    - [syconn/proc/ssd_proc.py]                    (module [SsdProc]).

    Python exceptions are values of [exn]; a computation that may raise has
    type [result A].  Python and NumPy integers are [Z]; NumPy's
    fixed-width arithmetic wraps around, which is written out ([int32],
    [wrap_int64], [as_uint64]).  Floating point numbers that are only
    compared, scaled by a constant or rounded up are rationals ([Q]); where
    a division can produce an infinity or nan they are values of
    [SsdProc.float]. *)

From Stdlib Require Import String ZArith Lia Bool QArith Qround List.
From Stdlib Require Import Permutation Relations Sorted.
Import ListNotations.

Open Scope string_scope.
Open Scope list_scope.
Open Scope Z_scope.

(** ** Exceptions *)

Inductive exn : Type :=
| IndexError
| KeyError
| ValueError
| AssertionError
| TypeError
| ZeroDivision
| Exception (msg : string).

Inductive result (A : Type) : Type :=
| Ok (a : A)
| Raise (e : exn).

Arguments Ok {A} a.
Arguments Raise {A} e.

Definition bind {A B : Type} (m : result A) (k : A -> result B) : result B :=
  match m with
  | Ok a => k a
  | Raise e => Raise e
  end.

Notation "x <- m ;; k" := (bind m (fun x => k))
  (at level 61, m at next level, right associativity).

Notation "' p <- m ;; k" := (bind m (fun x => match x with p => k end))
  (at level 61, p pattern, m at next level, right associativity).

(** A [for] loop whose body may raise: the state is threaded from left to
    right and the first exception stops the loop. *)
Fixpoint for_each {A S : Type} (xs : list A) (body : A -> S -> result S)
         (s : S) : result S :=
  match xs with
  | [] => Ok s
  | x :: rest => s' <- body x s ;; for_each rest body s'
  end.

(** ** NumPy helpers shared by the modules *)

Module Np.

(** [np.max] of a one-dimensional integer array: [ValueError] on a
    zero-size array. *)
Definition max (l : list Z) : result Z :=
  match l with
  | [] => Raise ValueError
  | x :: rest => Ok (fold_left Z.max rest x)
  end.

(** Position of the first occurrence of [m] (all of [l] when absent). *)
Fixpoint index_of (m : Z) (l : list Z) : nat :=
  match l with
  | [] => O
  | x :: rest => if Z.eqb x m then O else S (index_of m rest)
  end.

(** [np.argmax]: the index of the first maximal entry. *)
Definition argmax (l : list Z) : nat :=
  match l with
  | [] => O
  | x :: rest => index_of (fold_left Z.max rest x) l
  end.

(** One step of building the sorted table of [np.unique(.,
    return_counts=True)]: the table is kept in ascending order of ids. *)
Fixpoint count_insert (x : Z) (t : list (Z * Z)) : list (Z * Z) :=
  match t with
  | [] => [(x, 1)]
  | (k, c) :: rest =>
      if x <? k then (x, 1) :: t
      else if x =? k then (k, c + 1) :: rest
      else (k, c) :: count_insert x rest
  end.

(** [np.unique(chunk, return_counts=True)] on the flattened array, as a
    list of (id, count) in ascending order of the ids. *)
Definition unique (l : list Z) : list (Z * Z) :=
  fold_right count_insert [] l.

(** Number of occurrences of [k] in [l], and the count a table holds for
    a key; both are used to state what [unique] computes. *)
Definition count (k : Z) (l : list Z) : Z :=
  Z.of_nat (count_occ Z.eq_dec l k).

Fixpoint lookup (k : Z) (t : list (Z * Z)) : option Z :=
  match t with
  | [] => None
  | (k', c) :: rest => if k =? k' then Some c else lookup k rest
  end.

(** [counts[unique_ids == v] = c]. *)
Definition mask_set (v c : Z) (t : list (Z * Z)) : list (Z * Z) :=
  map (fun p => if fst p =? v then (fst p, c) else p) t.

(** Python's slice [l[lo:hi]] for [0 <= lo], [0 <= hi]. *)
Definition slice {A : Type} (lo hi : nat) (l : list A) : list A :=
  firstn (hi - lo) (skipn lo l).

(** [np.zeros(n)]. *)
Definition zeros (n : nat) : list Z := repeat 0 n.

(** The list [l] with position [i] replaced by [v] (unchanged when [i] is
    past the end). *)
Fixpoint update {A : Type} (i : nat) (v : A) (l : list A) : list A :=
  match l, i with
  | [], _ => []
  | _ :: rest, O => v :: rest
  | x :: rest, S j => x :: update j v rest
  end.

(** The position an index denotes in an array of length [len]: negative
    indices count from the end, anything out of range raises
    [IndexError]. *)
Definition norm_index (len : nat) (i : Z) : result nat :=
  if (0 <=? i) && (i <? Z.of_nat len) then Ok (Z.to_nat i)
  else if (- Z.of_nat len <=? i) && (i <? 0) then Ok (Z.to_nat (Z.of_nat len + i))
  else Raise IndexError.

(** [a[i] = v] on a one-dimensional array. *)
Definition setitem {A : Type} (l : list A) (i : Z) (v : A) : result (list A) :=
  n <- norm_index (length l) i ;; Ok (update n v l).

(** [a[i]] on a one-dimensional array of integers. *)
Definition getitem (l : list Z) (i : Z) : result Z :=
  n <- norm_index (length l) i ;; Ok (nth n l 0).

End Np.

(** ** syconn/extraction/block_processing.py *)

Module BlockProcessing.

(** The dtype of the label array, as far as [kernel] depends on it.  The
    ids [kernel] shifts are NumPy scalars of that dtype, and the shift
    count 32 is a Python integer: the shift is computed in the dtype
    NumPy 1.x promotes the two to (the module needs a NumPy that still
    has [np.int]).  That is [int64] for every integer dtype but [uint64]
    ([int8] .. [int64], [uint8] .. [uint32]); for [uint64] it is
    [float64], for which there is no shift. *)
Inductive id_dtype : Type :=
| np_int64
| np_uint64.

(** The interpreter: [process_block] divides the stencil with [/]. *)
Inductive python : Type :=
| Python2
| Python3.

(** Two's complement wrap-around of [int64] arithmetic. *)
Definition wrap_int64 (z : Z) : Z := (z + 2 ^ 63) mod 2 ^ 64 - 2 ^ 63.

(** The value an entry of a [uint64] array holds after an integer was
    assigned to it. *)
Definition as_uint64 (z : Z) : Z := z mod 2 ^ 64.

(** [(a << 32) + b] on scalars of the dtype: [TypeError] for [uint64],
    [int64] arithmetic otherwise. *)
Definition shift_add (dt : id_dtype) (a b : Z) : result Z :=
  match dt with
  | np_uint64 => Raise TypeError
  | np_int64 => Ok (wrap_int64 (wrap_int64 (Z.shiftl a 32) + b))
  end.

(** The pair key of [kernel] (lines 34-37): the smaller id is shifted. *)
Definition pair_key (dt : id_dtype) (center_id partner_id : Z) : result Z :=
  if center_id >? partner_id
  then shift_add dt partner_id center_id
  else shift_add dt center_id partner_id.

(** The key written as an unbounded integer, for stating what [pair_key]
    computes when nothing wraps. *)
Definition key_of (a b : Z) : Z := Z.shiftl (Z.min a b) 32 + Z.max a b.

(** [kernel(chunk, center_id)]; [chunk] is the window, flattened, and
    [center_id] an entry of the label array. *)
Definition kernel (dt : id_dtype) (chunk : list Z) (center_id : Z)
  : result Z :=
  let t := Np.unique chunk in
  let t := Np.mask_set 0 (-1) t in
  let t := Np.mask_set center_id (-1) t in
  let unique_ids := map fst t in
  let counts := map snd t in
  m <- Np.max counts ;;
  if m >? 0 then
    let partner_id := nth (Np.argmax counts) unique_ids 0 in
    pair_key dt center_id partner_id
  else Ok 0.

(** The table [kernel] takes its maximum over: every id of the window,
    with count [-1] for background and for the center id. *)
Definition masked (chunk : list Z) (center_id : Z) : list (Z * Z) :=
  Np.mask_set center_id (-1) (Np.mask_set 0 (-1) (Np.unique chunk)).

(** Three-dimensional arrays, indexed [a[x][y][z]]. *)
Definition array3 := list (list (list Z)).

Definition shape3 (a : array3) : nat * nat * nat :=
  (length a, length (nth 0 a []), length (nth 0 (nth 0 a []) [])).

Definition get3 (a : array3) (x y z : nat) : Z :=
  nth z (nth y (nth x a []) []) 0.

Definition set3 (a : array3) (x y z : nat) (v : Z) : array3 :=
  Np.update x (Np.update y (Np.update z v (nth y (nth x a []) []))
                          (nth x a [])) a.

(** The index [(x, y, z)], not negative, lies in the array. *)
Definition in_bounds3 (a : array3) (x y z : nat) : bool :=
  (x <? length a)%nat && (y <? length (nth x a []))%nat &&
  (z <? length (nth y (nth x a []) []))%nat.

(** [a[x, y, z]] for indices that are not negative: [IndexError] outside
    the array. *)
Definition getitem3 (a : array3) (x y z : nat) : result Z :=
  if in_bounds3 a x y z then Ok (get3 a x y z) else Raise IndexError.

(** [a[x, y, z] = v] on a [uint64] array. *)
Definition setitem3 (a : array3) (x y z : nat) (v : Z) : result array3 :=
  if in_bounds3 a x y z then Ok (set3 a x y z (as_uint64 v))
  else Raise IndexError.

Definition zeros3 (sx sy sz : nat) : array3 :=
  repeat (repeat (Np.zeros sz) sy) sx.

(** [a[x0:x1, y0:y1, z0:z1]], flattened in row-major order. *)
Definition window (a : array3) (x0 x1 y0 y1 z0 z1 : nat) : list Z :=
  concat (map (fun plane => concat (map (Np.slice z0 z1) (Np.slice y0 y1 plane)))
              (Np.slice x0 x1 a)).

Definition stencil_t := (nat * nat * nat)%type.

(** [assert np.sum(stencil % 2) == 3]. *)
Definition stencil_odd (st : stencil_t) : bool :=
  let '(s0, s1, s2) := st in
  Nat.eqb (s0 mod 2 + s1 mod 2 + s2 mod 2) 3.

(** [range(a, b)]. *)
Definition range (a b : nat) : list nat := seq a (b - a).

(** [process_block(edges, arr, stencil)].  [offset = stencil / 2] is the
    integer division of Python 2 on an integer array; under Python 3 it
    is an array of floats, and [range] raises [TypeError] on its first
    entry.  The window is sliced as the source writes it:
    [x + offset[0] + 1] on the first axis, [y + offset[1]] and
    [z + offset[2]] on the other two. *)
Definition process_block (py : python) (dt : id_dtype) (edges arr : array3)
           (st : stencil_t) : result array3 :=
  let '(s0, s1, s2) := st in
  if negb (stencil_odd st) then Raise AssertionError else
  let '(n0, n1, n2) := shape3 arr in
  let out := zeros3 n0 n1 n2 in
  match py with
  | Python3 => Raise TypeError
  | Python2 =>
      let o0 := (s0 / 2)%nat in
      let o1 := (s1 / 2)%nat in
      let o2 := (s2 / 2)%nat in
      for_each (range o0 (n0 - o0)) (fun x out =>
        for_each (range o1 (n1 - o1)) (fun y out =>
          for_each (range o2 (n2 - o2)) (fun z out =>
            e <- getitem3 edges x y z ;;
            if e =? 0 then Ok out
            else
              center_id <- getitem3 arr x y z ;;
              let chunk := window arr (x - o0) (x + o0 + 1)
                                      (y - o1) (y + o1)
                                      (z - o2) (z + o2) in
              k <- kernel dt chunk center_id ;;
              setitem3 out x y z k) out) out) out
  end.

(** [edges[o:-o]] along one axis: for [o = 0] the slice [0:-0] is empty. *)
Definition inner_slice {A : Type} (o : nat) (l : list A) : list A :=
  match o with
  | O => []
  | _ => Np.slice o (length l - o) l
  end.

(** [np.nonzero] of a three-dimensional array, in row-major order. *)
Definition nonzero3 (a : array3) : list (nat * nat * nat) :=
  flat_map (fun x =>
    flat_map (fun y =>
      flat_map (fun z =>
        if get3 a x y z =? 0 then [] else [(x, y, z)])
        (seq 0 (length (nth y (nth x a []) []))))
      (seq 0 (length (nth x a []))))
    (seq 0 (length a)).

(** [process_block_nonzero(edges, arr, stencil)]. *)
Definition process_block_nonzero (dt : id_dtype) (edges arr : array3)
           (st : stencil_t) : result array3 :=
  let '(s0, s1, s2) := st in
  if negb (stencil_odd st) then Raise AssertionError else
  let '(n0, n1, n2) := shape3 arr in
  if (n0 + 1 <? s0)%nat || (n1 + 1 <? s1)%nat || (n2 + 1 <? s2)%nat
  then Raise ValueError else
  let m0 := (n0 + 1 - s0)%nat in
  let m1 := (n1 + 1 - s1)%nat in
  let m2 := (n2 + 1 - s2)%nat in
  let out := zeros3 m0 m1 m2 in
  let o0 := (s0 / 2)%nat in
  let o1 := (s1 / 2)%nat in
  let o2 := (s2 / 2)%nat in
  let inner := map (fun plane => map (inner_slice o2) (inner_slice o1 plane))
                   (inner_slice o0 edges) in
  for_each (nonzero3 inner) (fun p out =>
    let '(x, y, z) := p in
    center_id <- getitem3 arr (x + o0) (y + o1) (z + o2) ;;
    let chunk := window arr x (x + s0) y (y + s1) z (z + s2) in
    k <- kernel dt chunk center_id ;;
    setitem3 out x y z k) out.

End BlockProcessing.

(** ** Python dictionaries *)

Module Dict.

Section WithKey.
Context {K V : Type} (eqb : K -> K -> bool).

(** [d[k]], raising [KeyError] when the key is absent. *)
Fixpoint get (d : list (K * V)) (k : K) : result V :=
  match d with
  | [] => Raise KeyError
  | (k', v) :: rest => if eqb k k' then Ok v else get rest k
  end.

(** [d[k] = v]: the value is replaced in place, a new key is appended. *)
Fixpoint set (d : list (K * V)) (k : K) (v : V) : list (K * V) :=
  match d with
  | [] => [(k, v)]
  | (k', v') :: rest =>
      if eqb k k' then (k', v) :: rest else (k', v') :: set rest k v
  end.

End WithKey.

End Dict.

(** ** syconn_deprecated/processing/objectextraction.py *)

Module ObjectExtraction.

(** *** Iteration order of hash containers

    [for v in s] over a Python [set] (and over a [dict] under Python 2)
    visits the elements in the order of the hash table, not in a sorted
    order.  The functions below take that order as the argument
    [set_iter]: applied to the elements in the order they were inserted,
    it returns them in the order of iteration.  [set_iter_ok] is all that
    the language guarantees: each element once. *)

Definition set_iter_ok (set_iter : list Z -> list Z) : Prop :=
  forall l, NoDup (set_iter l) /\ forall x, In x (set_iter l) <-> In x l.

(** Insertion order (a [dict] of Python 3.7 and later): every element at
    its first occurrence. *)
Definition insertion_order (l : list Z) : list Z :=
  rev (nodup Z.eq_dec (rev l)).

(** CPython's order (3.7 and later) for a set of integers
    [0 <= x < 2^61 - 1], which hash to themselves, built by adding the
    elements one by one.  A table is the list of its used slots with their
    keys, in ascending order of the slots; [mask] is its size minus one. *)
Definition slot_free (tbl : list (Z * Z)) (i : Z) : bool :=
  negb (existsb (fun p => fst p =? i) tbl).

(** The first free slot among [i, i + 1, ..., i + n]. *)
Fixpoint linear_probe (tbl : list (Z * Z)) (i : Z) (n : nat) : option Z :=
  if slot_free tbl i then Some i
  else match n with
       | O => None
       | S n' => linear_probe tbl (i + 1) n'
       end.

(** The slot [set_add_entry] and [set_insert_clean] find for a new key:
    slot [i] and, where they fit the table, its 9 successors; then the
    slot [(5 i + 1 + perturb) & mask], with [perturb] shifted by 5 bits
    before every jump.  A table always has a free slot (it is resized
    before it fills), so the fuel does not run out. *)
Fixpoint find_slot (fuel : nat) (mask : Z) (tbl : list (Z * Z))
         (i perturb : Z) : Z :=
  let probes := if i + 9 <=? mask then 9%nat else 0%nat in
  match linear_probe tbl i probes with
  | Some j => j
  | None =>
      match fuel with
      | O => mask + 1
      | S fuel' =>
          let perturb := Z.shiftr perturb 5 in
          find_slot fuel' mask tbl (Z.land (i * 5 + 1 + perturb) mask) perturb
      end
  end.

Fixpoint insert_slot (i x : Z) (tbl : list (Z * Z)) : list (Z * Z) :=
  match tbl with
  | [] => [(i, x)]
  | (j, y) :: rest =>
      if i <? j then (i, x) :: tbl else (j, y) :: insert_slot i x rest
  end.

(** A new key is put into the table. *)
Definition place (mask : Z) (tbl : list (Z * Z)) (x : Z) : list (Z * Z) :=
  let fuel := (Z.to_nat (Z.log2 x) + Z.to_nat mask + 2)%nat in
  insert_slot (find_slot fuel mask tbl (Z.land x mask) x) x tbl.

(** [set_table_resize]: the smallest power of two above [minused], and 8
    at least. *)
Definition new_size (minused : Z) : Z := Z.max 8 (2 ^ (Z.log2 minused + 1)).

(** [set_add_entry] for a key that is not in the set: a table that is
    three fifths full afterwards is resized, and its keys are put into
    the new table in the order of their slots. *)
Definition set_add (st : Z * list (Z * Z)) (x : Z) : Z * list (Z * Z) :=
  let '(mask, tbl) := st in
  let tbl := place mask tbl x in
  let used := Z.of_nat (length tbl) in
  if used * 5 <? mask * 3 then (mask, tbl)
  else
    let mask := new_size (if 50000 <? used then used * 2 else used * 4) - 1 in
    (mask, fold_left (place mask) (map snd tbl) []).

Definition hash_order (l : list Z) : list Z :=
  map snd (snd (fold_left set_add (insertion_order l) (7, []))).

(** *** gauss_threshold_connected_components: the overlap *)

Inductive overlap_arg : Type :=
| OverlapAuto                       (* overlap="auto" *)
| OverlapGiven (o : Z * Z * Z).

Definition Qmax2 (a b : Q) : Q := if Qle_bool a b then b else a.

(** [np.max] over a flattened array of floats. *)
Definition np_max_Q (l : list Q) : result Q :=
  match l with
  | [] => Raise ValueError
  | x :: rest => Ok (fold_left Qmax2 rest x)
  end.

(** The rows of a nested list have one length, so that NumPy makes an
    array of numbers of it. *)
Definition rectangular {A : Type} (rows : list (list A)) : bool :=
  match rows with
  | [] => true
  | r :: rest => forallb (fun r' => Nat.eqb (length r') (length r)) rest
  end.

(** [np.max(sigmas)]: the largest entry of the array; [ValueError] when
    the rows have different lengths (no array of numbers can be made of
    them) and when there is no entry. *)
Definition np_max_rows (rows : list (list Q)) : result Q :=
  if rectangular rows then np_max_Q (concat rows) else Raise ValueError.

(** Lines 245-264 of [gauss_threshold_connected_components].  An entry of
    [sigmas] is the list of the sigmas of one channel; [np.zeros(n)] is
    [n] entries with one zero each.  The result is [[overlap,
    stitch_overlap]]. *)
Definition gtcc_overlap (hdf5names : list string) (overlap : overlap_arg)
           (sigmas : option (list (list Q))) (thresholds : option (list Q))
  : result ((Z * Z * Z) * (Z * Z * Z)) :=
  let thresholds :=
    match thresholds with
    | None => repeat 0%Q (length hdf5names)
    | Some t => t
    end in
  let sigmas :=
    match sigmas with
    | None => repeat [0%Q] (length hdf5names)
    | Some s => s
    end in
  if negb (Nat.eqb (length sigmas) (length thresholds)
           && Nat.eqb (length thresholds) (length hdf5names))
  then Raise (Exception
    "Number of thresholds, sigmas and HDF5 names does not match!")
  else
  let stitch_overlap := (1, 1, 1) in
  match overlap with
  | OverlapAuto =>
      m <- np_max_rows sigmas ;;
      let c := Qceiling (m * 4) + 1 in
      Ok ((c, c, c), stitch_overlap)
  | OverlapGiven o => Ok (o, stitch_overlap)
  end.

(** *** from_probabilities_to_objects: thresholds (lines 798-800) *)

Definition rescale_thresholds (thresholds : option (list Q))
  : result (option (list Q)) :=
  match thresholds with
  | None => Ok None
  | Some [] => Raise IndexError
  | Some (t0 :: rest) =>
      if Qle_bool t0 1
      then Ok (Some (map (fun t => (t * 255)%Q) (t0 :: rest)))
      else Ok (Some (t0 :: rest))
  end.

(** *** from_probabilities_to_objects: chunk translator (lines 789-796) *)

Definition translator := list (Z * nat).

Definition make_translator (chunk_list : list Z) : translator :=
  fold_left (fun tr ii => Dict.set Z.eqb tr (nth ii chunk_list 0) ii)
            (seq 0 (length chunk_list)) [].

(** *** from_probabilities_to_objects: counts and bases (lines 833-848) *)

(** Wrap-around of the [np.int32] arrays. *)
Definition int32 (z : Z) : Z := (z + 2 ^ 31) mod 2 ^ 32 - 2 ^ 31.

(** One entry of [cc_info_list]: chunk id, hdf5 name, number of connected
    components of that chunk. *)
Definition cc_info := (Z * string * Z)%type.

(** The results of the workers, flattened (lines 281-296 of
    [gauss_threshold_connected_components]): whatever was returned, or
    whatever result files exist. *)
Definition results_as_list (results : list (list cc_info)) : list cc_info :=
  concat results.

Definition init_tables (hdf5names : list string) (n : nat)
  : list (string * list Z) :=
  fold_left (fun d h => Dict.set String.eqb d h (Np.zeros n)) hdf5names [].

(** [nb_cc_dict[cc_info[1]][chunk_translator[cc_info[0]]] = cc_info[2]]. *)
Definition store_count (tr : translator) (info : cc_info)
           (nb_cc_dict : list (string * list Z))
  : result (list (string * list Z)) :=
  let '(chunk, name, nb) := info in
  arr <- Dict.get String.eqb nb_cc_dict name ;;
  idx <- Dict.get Z.eqb tr chunk ;;
  arr' <- Np.setitem arr (Z.of_nat idx) (int32 nb) ;;
  Ok (Dict.set String.eqb nb_cc_dict name arr').

Definition count_table (hdf5names : list string) (n : nat) (tr : translator)
           (cc_info_list : list cc_info) : result (list (string * list Z)) :=
  for_each cc_info_list (store_count tr) (init_tables hdf5names n).

(** The inner loops of lines 842-848 for one name: the bases
    [max_nb_dict[name]] and [max_labels[name]]. *)
Definition bases_body (nb_cc : list Z) (nb_chunk : nat) (max_nb : list Z)
  : result (list Z) :=
  a <- Np.getitem max_nb (Z.of_nat nb_chunk - 1) ;;
  b <- Np.getitem nb_cc (Z.of_nat nb_chunk - 1) ;;
  Np.setitem max_nb (Z.of_nat nb_chunk) (int32 (a + b)).

Definition prefix_bases (nb_cc max_nb : list Z) : result (list Z * Z) :=
  max_nb <- Np.setitem max_nb 0 0 ;;
  max_nb <-
    for_each (BlockProcessing.range 1 (length nb_cc)) (bases_body nb_cc)
             max_nb ;;
  a <- Np.getitem max_nb (-1) ;;
  b <- Np.getitem nb_cc (-1) ;;
  Ok (max_nb, int32 (a + b)).

(** The exclusive prefix sum of a list of counts, and their total, for
    stating what [prefix_bases] computes. *)
Fixpoint exclusive_prefix_sum (acc : Z) (counts : list Z) : list Z :=
  match counts with
  | [] => []
  | c :: rest => acc :: exclusive_prefix_sum (acc + c) rest
  end.

Definition total (counts : list Z) : Z := fold_right Z.add 0 counts.

Record allocation : Type := {
  nb_cc_dict : list (string * list Z);
  max_nb_dict : list (string * list Z);
  max_labels : list (string * Z)
}.

(** The body of the loop of line 841 over the names. *)
Definition bases_for_name (nb_cc_dict : list (string * list Z))
           (name : string) (st : list (string * list Z) * list (string * Z))
  : result (list (string * list Z) * list (string * Z)) :=
  let '(max_nb_dict, max_labels) := st in
  nb_cc <- Dict.get String.eqb nb_cc_dict name ;;
  max_nb <- Dict.get String.eqb max_nb_dict name ;;
  '(max_nb, total) <- prefix_bases nb_cc max_nb ;;
  Ok (Dict.set String.eqb max_nb_dict name max_nb,
      Dict.set String.eqb max_labels name total).

(** Lines 833-848. *)
Definition allocate (hdf5names : list string) (chunk_list : list Z)
           (tr : translator) (cc_info_list : list cc_info)
  : result allocation :=
  let n := length chunk_list in
  nb_cc_dict <- count_table hdf5names n tr cc_info_list ;;
  let max_nb_dict := init_tables hdf5names n in
  '(max_nb_dict, max_labels) <-
    for_each hdf5names (bases_for_name nb_cc_dict) (max_nb_dict, []) ;;
  Ok {| nb_cc_dict := nb_cc_dict;
        max_nb_dict := max_nb_dict;
        max_labels := max_labels |}.

(** A table of per-chunk arrays is well formed for [hdf5names] and [n]
    chunks when it holds exactly the names of [hdf5names], each with an
    array of length [n]. *)
Definition wf_table (hdf5names : list string) (n : nat)
           (d : list (string * list Z)) : Prop :=
  forall h,
    (In h hdf5names ->
     exists arr, Dict.get String.eqb d h = Ok arr /\ length arr = n) /\
    (~ In h hdf5names -> Dict.get String.eqb d h = Raise KeyError).

(** A record of [cc_info_list] is well formed when its name is one of
    [hdf5names] and its chunk one of [chunk_list]. *)
Definition wf_info (hdf5names : list string) (chunk_list : list Z)
           (info : cc_info) : Prop :=
  let '(chunk, name, _) := info in In name hdf5names /\ In chunk chunk_list.

(** The translator built from the first [k] entries of [chunk_list] maps
    a chunk to a position that holds it, and knows each of them. *)
Definition tr_sound (chunk_list : list Z) (k : nat) (tr : translator) : Prop :=
  (forall c i, Dict.get Z.eqb tr c = Ok i ->
               (i < k)%nat /\ nth i chunk_list 0 = c) /\
  (forall j, (j < k)%nat ->
             exists i, Dict.get Z.eqb tr (nth j chunk_list 0) = Ok i).

(** What the loop over [cc_info_list] maintains: the table stays well
    formed, and an entry that is not zero was written by a record of that
    name whose chunk translates to that position. *)
Definition counts_inv (hdf5names : list string) (n : nat) (tr : translator)
           (processed : list cc_info) (d : list (string * list Z)) : Prop :=
  wf_table hdf5names n d /\
  forall h arr i, Dict.get String.eqb d h = Ok arr -> nth i arr 0 <> 0 ->
                  exists c v, In (c, h, v) processed /\
                              Dict.get Z.eqb tr c = Ok i.

(** Counts that the [int32] arrays hold without wrapping. *)
Definition counts_fit (counts : list Z) : Prop :=
  Forall (fun c => 0 <= c) counts /\ total counts < 2 ^ 31.

(** What the loop over the names maintains: for every name already
    processed, the bases are the exclusive prefix sum of its counts. *)
Definition bases_inv (hdf5names : list string) (n : nat)
           (nb_cc_dict : list (string * list Z)) (processed : list string)
           (st : list (string * list Z) * list (string * Z)) : Prop :=
  wf_table hdf5names n (fst st) /\
  forall h counts,
    In h processed -> Dict.get String.eqb nb_cc_dict h = Ok counts ->
    counts_fit counts ->
    Dict.get String.eqb (fst st) h = Ok (exclusive_prefix_sum 0 counts) /\
    Dict.get String.eqb (snd st) h = Ok (total counts).

(** *** make_merge_list (lines 462-477) and the graph library it calls *)

Definition mem (v : Z) (l : list Z) : bool := existsb (Z.eqb v) l.

(** An undirected graph as networkx keeps it: a dictionary from each node
    to its neighbours. *)
Definition graph := list (Z * list Z).

Definition nodes (G : graph) : list Z := map fst G.

Fixpoint adj (G : graph) (v : Z) : list Z :=
  match G with
  | [] => []
  | (k, ns) :: rest => if v =? k then ns else adj rest v
  end.

Definition add_node (G : graph) (v : Z) : graph :=
  if mem v (nodes G) then G else G ++ [(v, [])].

Definition add_nbr (G : graph) (u v : Z) : graph :=
  map (fun p => if fst p =? u
                then (fst p, if mem v (snd p) then snd p else snd p ++ [v])
                else p) G.

Definition add_edge (G : graph) (e : Z * Z) : graph :=
  let '(u, v) := e in
  add_nbr (add_nbr (add_node (add_node G u) v) u v) v u.

(** [nx.from_edgelist]. *)
Definition from_edgelist (es : list (Z * Z)) : graph :=
  fold_left add_edge es [].

Section Components.
Variable set_iter : list Z -> list Z.

(** One pass of [for v in thislevel] in networkx's [_plain_bfs]: [seen]
    collects the nodes in the order they are yielded. *)
Fixpoint visit_level (G : graph) (level seen next : list Z)
  : list Z * list Z :=
  match level with
  | [] => (seen, next)
  | v :: rest =>
      if mem v seen then visit_level G rest seen next
      else visit_level G rest (seen ++ [v]) (next ++ adj G v)
  end.

(** [_plain_bfs]: the [while nextlevel] loop.  Every round but the last
    yields a node not seen before, so the loop runs at most once per node
    and once more; [fuel] bounds it, and with the fuel [components_from]
    gives it the bound is not reached ([BfsFacts.plain_bfs_spec]). *)
Fixpoint plain_bfs (fuel : nat) (G : graph) (seen nextlevel : list Z)
  : list Z :=
  match fuel with
  | O => seen
  | S fuel' =>
      match nextlevel with
      | [] => seen
      | _ :: _ =>
          let '(seen', next') :=
            visit_level G (set_iter nextlevel) seen [] in
          plain_bfs fuel' G seen' next'
      end
  end.

(** The loop of [nx.connected_components]; each component is the set
    built from the nodes [_plain_bfs] yields, kept here in the order of
    insertion. *)
Fixpoint components_from (G : graph) (vs seen : list Z) : list (list Z) :=
  match vs with
  | [] => []
  | v :: rest =>
      if mem v seen then components_from G rest seen
      else
        let c := plain_bfs (length G + 2) G [] [v] in
        c :: components_from G rest (seen ++ c)
  end.

Definition connected_components (G : graph) : list (list Z) :=
  components_from G (set_iter (nodes G)) [].

(** [np.arange(n)]. *)
Definition arange (n : Z) : list Z := map Z.of_nat (seq 0 (Z.to_nat n)).

(** The body of [for id in this_cc], with [rep] for [this_cc[0]]. *)
Definition set_rep (rep id : Z) (st : list (Z * Z) * list Z)
  : result (list (Z * Z) * list Z) :=
  let '(merge_dict, merge_list) := st in
  merge_list' <- Np.setitem merge_list id rep ;;
  Ok (Dict.set Z.eqb merge_dict id rep, merge_list').

(** The body of [for this_cc in cc]. *)
Definition merge_component (c : list Z) (st : list (Z * Z) * list Z)
  : result (list (Z * Z) * list Z) :=
  let this_cc := set_iter c in
  for_each this_cc (set_rep (hd 0 this_cc)) st.

(** The body of [make_merge_list] for one hdf5 name: [merge_dict[name]]
    and [merge_list_dict[name]]. *)
Definition merge_list_for (this_stitch_list : list (Z * Z)) (max_label : Z)
  : result (list (Z * Z) * list Z) :=
  let G := from_edgelist this_stitch_list in
  let cc := connected_components G in
  for_each cc merge_component ([], arange (max_label + 1)).

(** The body of [for hdf5_name in hdf5names]. *)
Definition merge_for_name (stitch_list : list (string * list (Z * Z)))
           (max_labels : list (string * Z)) (hdf5_name : string)
           (st : list (string * list (Z * Z)) * list (string * list Z))
  : result (list (string * list (Z * Z)) * list (string * list Z)) :=
  let '(merge_dict, merge_list_dict) := st in
  this_stitch_list <- Dict.get String.eqb stitch_list hdf5_name ;;
  max_label <- Dict.get String.eqb max_labels hdf5_name ;;
  '(md, ml) <- merge_list_for this_stitch_list max_label ;;
  Ok (Dict.set String.eqb merge_dict hdf5_name md,
      Dict.set String.eqb merge_list_dict hdf5_name ml).

(** [make_merge_list(hdf5names, stitch_list, max_labels)]. *)
Definition make_merge_list (hdf5names : list string)
           (stitch_list : list (string * list (Z * Z)))
           (max_labels : list (string * Z))
  : result (list (string * list (Z * Z)) * list (string * list Z)) :=
  for_each hdf5names (merge_for_name stitch_list max_labels) ([], []).
End Components.

(** The merge graph of a stitch list, for stating what the remap does. *)
Definition edge_rel (es : list (Z * Z)) (x y : Z) : Prop :=
  In (x, y) es \/ In (y, x) es.

Definition connected (es : list (Z * Z)) : Z -> Z -> Prop :=
  clos_refl_trans Z (edge_rel es).

Definition mentioned (es : list (Z * Z)) (x : Z) : Prop :=
  exists y, edge_rel es x y.

(** The same on a graph: one step along an adjacency list, and paths. *)
Definition step (G : graph) (v w : Z) : Prop := In w (adj G v).

Definition reach (G : graph) : Z -> Z -> Prop := clos_refl_trans Z (step G).

(** [G] is the graph of the edge list [es]. *)
Definition graph_of (es : list (Z * Z)) (G : graph) : Prop :=
  (forall v, In v (nodes G) <-> mentioned es v) /\
  (forall v w, In w (adj G v) <-> edge_rel es v w).

(** A component is the set of the nodes reachable from one of its nodes. *)
Definition is_class (G : graph) (c : list Z) : Prop :=
  exists s, In s (nodes G) /\ forall x, In x c <-> reach G s x.

Definition disjoint (c c' : list Z) : Prop :=
  forall x, In x c -> ~ In x c'.

(** What the [while] loop of [_plain_bfs] maintains, for the source [s]:
    [seen] has no duplicates and holds nodes reachable from [s] only, every
    neighbour of a node of [seen] is in [seen] or waits in [next], and [s]
    itself is in one of the two. *)
Definition bfs_inv (G : graph) (s : Z) (seen next : list Z) : Prop :=
  NoDup seen /\ incl seen (nodes G) /\ incl next (nodes G) /\
  (forall v w, In v seen -> In w (adj G v) -> In w seen \/ In w next) /\
  (forall x, In x seen \/ In x next -> reach G s x) /\
  (In s seen \/ In s next).

(** Every id of the stitch list lies between [lo] and [max_label]. *)
Definition ids_within (lo max_label : Z) (es : list (Z * Z)) : Prop :=
  forall a b, In (a, b) es ->
              lo <= a <= max_label /\ lo <= b <= max_label.

(** The inputs of [make_merge_list] are well formed for a name when the
    name has a stitch list and a maximal label, and every id of the stitch
    list lies between [lo] and that label. *)
Definition merge_input_ok (lo : Z) (stitch_list : list (string * list (Z * Z)))
           (max_labels : list (string * Z)) (h : string) : Prop :=
  exists es m,
    Dict.get String.eqb stitch_list h = Ok es /\
    Dict.get String.eqb max_labels h = Ok m /\
    ids_within lo m es.

(** What the loop over the names maintains: the merge list of every name
    already processed is the one [merge_list_for] computes. *)
Definition merge_inv (set_iter : list Z -> list Z)
           (stitch_list : list (string * list (Z * Z)))
           (max_labels : list (string * Z)) (processed : list string)
           (st : list (string * list (Z * Z)) * list (string * list Z)) : Prop :=
  forall h es m md ml,
    In h processed ->
    Dict.get String.eqb stitch_list h = Ok es ->
    Dict.get String.eqb max_labels h = Ok m ->
    merge_list_for set_iter es m = Ok (md, ml) ->
    Dict.get String.eqb (fst st) h = Ok md /\
    Dict.get String.eqb (snd st) h = Ok ml.

(** [remap[x]]. *)
Definition remap (merge_list : list Z) (x : Z) : Z :=
  nth (Z.to_nat x) merge_list 0.

End ObjectExtraction.

(** ** syconn/proc/ssd_proc.py *)

Module SsdProc.

(** What the background correction reads from the attribute dictionary of
    a [SegmentationObject]. *)
Record so_attrs : Type := {
  mapping_ids : list Z;
  mapping_ratios : list Q
}.

(** [ratios[ids == 0]]: the ratios at the positions where the id is 0 (the
    two arrays have the same length). *)
Fixpoint mask_select (ids : list Z) (ratios : list Q) : list Q :=
  match ids, ratios with
  | i :: ids', r :: ratios' =>
      if i =? 0 then r :: mask_select ids' ratios'
      else mask_select ids' ratios'
  | _, _ => []
  end.

(** A NumPy float, as far as the mapping decision depends on it: a number
    (rounding is not modelled), an infinity or nan. *)
Inductive float : Type :=
| Fin (q : Q)
| PInf
| NInf
| NaN.

(** [a / b] on NumPy floats, for a finite divisor [b].  A zero divisor
    raises nothing: NumPy warns and the quotient is an infinity, or nan
    for [0 / 0].  The divisor of the correction is [1 - ratio_0], which
    is [+0.0] when it is zero. *)
Definition divide (a : float) (b : Q) : float :=
  match a with
  | Fin x =>
      if Qeq_bool b 0 then
        if negb (Qle_bool x 0) then PInf
        else if negb (Qle_bool 0 x) then NInf
        else NaN
      else Fin (x / b)
  | PInf => if negb (Qle_bool 0 b) then NInf else PInf
  | NInf => if negb (Qle_bool 0 b) then PInf else NInf
  | NaN => NaN
  end.

(** [r > q] on NumPy floats: nan is above nothing. *)
Definition float_gt (r : float) (q : Q) : bool :=
  match r with
  | Fin x => negb (Qle_bool x q)
  | PInf => true
  | NInf => false
  | NaN => false
  end.

(** The same as a proposition, for stating what the masks keep. *)
Definition above (r : float) (q : Q) : Prop :=
  match r with
  | Fin x => (q < x)%Q
  | PInf => True
  | NInf => False
  | NaN => False
  end.

Definition getitem_F (l : list float) (i : nat) : result float :=
  match nth_error l i with
  | Some r => Ok r
  | None => Raise IndexError
  end.

(** Lines 130-133 and 167-185 of [_apply_mapping_decisions_thread] for one
    object type: [ids] is [ssv.attr_dict["mapping_<type>_ids"]],
    [obj_ratios] the array of [ssv.attr_dict["mapping_<type>_ratios"]] and
    [load so_id] the attributes of the segmentation object [so_id]. *)
Definition correct_ratios (obj_type : string) (ids : list Z)
           (obj_ratios : list float) (load : Z -> so_attrs)
  : result (list float) :=
  let correct_for_background := String.eqb obj_type "sj" in
  if correct_for_background then
    for_each (BlockProcessing.range 0 (length ids)) (fun i_so_id obj_ratios =>
      let so_id := nth i_so_id ids 0 in
      let this_so := load so_id in
      if ObjectExtraction.mem 0 (mapping_ids this_so) then
        match mask_select (mapping_ids this_so) (mapping_ratios this_so) with
        | [] => Raise IndexError
        | ratio_0 :: _ =>
            r <- getitem_F obj_ratios i_so_id ;;
            Ok (Np.update i_so_id (divide r (1 - ratio_0)%Q) obj_ratios)
        end
      else Ok obj_ratios) obj_ratios
  else Ok obj_ratios.

End SsdProc.

(** ** Concrete inputs used in the examples below *)

Module Fixtures.
Import BlockProcessing.

(** A 7 x 7 x 3 label block: id 1 at the centre voxel (3, 3, 1), id 2 at
    (3, 6, 1), background elsewhere. *)
Definition arr_two_ids : array3 :=
  map (fun x => map (fun y => map (fun z =>
    if Nat.eqb x 3 && Nat.eqb y 3 && Nat.eqb z 1 then 1
    else if Nat.eqb x 3 && Nat.eqb y 6 && Nat.eqb z 1 then 2
    else 0) (seq 0 3)) (seq 0 7)) (seq 0 7).

(** The edge mask that flags the centre voxel only. *)
Definition edges_center : array3 :=
  map (fun x => map (fun y => map (fun z =>
    if Nat.eqb x 3 && Nat.eqb y 3 && Nat.eqb z 1 then 1 else 0)
    (seq 0 3)) (seq 0 7)) (seq 0 7).

(** A segmentation object mapped entirely to background. *)
Definition so_background : SsdProc.so_attrs :=
  {| SsdProc.mapping_ids := [0]; SsdProc.mapping_ratios := [1%Q] |}.

End Fixtures.

From Stdlib Require Import Lqa.

(** ** Python ranges and slices *)

Module Py.

(** [range(start, stop, step)]: [ValueError] for a zero step; otherwise the
    values [start + k * step] that lie before [stop] in the direction of
    the step. *)
Definition range3 (start stop step : Z) : result (list Z) :=
  if step =? 0 then Raise ValueError
  else
    let n := if 0 <? step
             then (stop - start + step - 1) / step
             else (start - stop - step - 1) / (- step) in
    Ok (map (fun k => start + Z.of_nat k * step) (seq 0 (Z.to_nat n))).

(** An end point of a slice, brought into [0 .. len]. *)
Definition clamp (len i : Z) : Z :=
  if i <? 0 then Z.max (i + len) 0 else Z.min i len.

(** [l[i:j]]. *)
Definition slice {A : Type} (l : list A) (i j : Z) : list A :=
  let len := Z.of_nat (length l) in
  let lo := clamp len i in
  let hi := clamp len j in
  firstn (Z.to_nat (hi - lo)) (skipn (Z.to_nat lo) l).

(** [a[mask]] for a boolean mask of the length of [a]. *)
Fixpoint select {A : Type} (mask : list bool) (l : list A) : list A :=
  match mask, l with
  | m :: mask', x :: l' => if m then x :: select mask' l' else select mask' l'
  | _, _ => []
  end.

End Py.

(** ** ssd_proc.py: batches of cell ids and the mapping decisions *)

Module SsdProcJobs.

(** [[ssd.ssv_ids[i:i + stride] for i in range(0, len(ssd.ssv_ids),
    stride)]], the blocks that [aggregate_segmentation_object_mappings],
    [apply_mapping_decisions] and [map_synaptic_conn_objects] hand to their
    workers. *)
Definition ssv_id_blocks {A : Type} (ssv_ids : list A) (stride : Z)
  : result (list (list A)) :=
  starts <- Py.range3 0 (Z.of_nat (length ssv_ids)) stride ;;
  Ok (map (fun i => Py.slice ssv_ids i (i + stride)) starts).

(** [multi_params]: one parameter list per block; [common] stands for the
    entries every block shares (version, working directory, ...). *)
Definition multi_params {A B : Type} (ssv_ids : list A) (stride : Z)
           (common : B) : result (list (list A * B)) :=
  blocks <- ssv_id_blocks ssv_ids stride ;;
  Ok (map (fun b => (b, common)) blocks).

(** The background ratio of a segmentation object: the ratio at the first
    position mapped to id 0, when there is one. *)
Definition ratio_0 (so : SsdProc.so_attrs) : option Q :=
  if ObjectExtraction.mem 0 (SsdProc.mapping_ids so)
  then hd_error (SsdProc.mask_select (SsdProc.mapping_ids so)
                                     (SsdProc.mapping_ratios so))
  else None.

(** A ratio after the correction for that object. *)
Definition corrected (so : SsdProc.so_attrs) (r : Q) : Q :=
  match ratio_0 so with
  | Some r0 => (r / (1 - r0))%Q
  | None => r
  end.

(** The same for a ratio that is a NumPy float, whatever the background
    ratio is. *)
Definition corrected_ratio (so : SsdProc.so_attrs) (r : SsdProc.float)
  : SsdProc.float :=
  match ratio_0 so with
  | Some r0 => SsdProc.divide r (1 - r0)%Q
  | None => r
  end.

(** The body of the loop of [SsdProc.correct_ratios]. *)
Definition correction_body (ids : list Z) (load : Z -> SsdProc.so_attrs)
           (i_so_id : nat) (obj_ratios : list SsdProc.float)
  : result (list SsdProc.float) :=
  let so_id := nth i_so_id ids 0 in
  let this_so := load so_id in
  if ObjectExtraction.mem 0 (SsdProc.mapping_ids this_so) then
    match SsdProc.mask_select (SsdProc.mapping_ids this_so)
                              (SsdProc.mapping_ratios this_so) with
    | [] => Raise IndexError
    | ratio_0 :: _ =>
        r <- SsdProc.getitem_F obj_ratios i_so_id ;;
        Ok (Np.update i_so_id (SsdProc.divide r (1 - ratio_0)%Q) obj_ratios)
    end
  else Ok obj_ratios.

(** Lines 187-204 of [_apply_mapping_decisions_thread] for one object
    type, after the ratios were corrected: the mask of the ratios above
    [lower_ratio] (and not above [upper_ratio] when that is below 1), the
    ids the mask keeps, and of those the ones whose object is larger than
    [sizethreshold].  [size_of] is [obj.size]. *)
Definition id_mask (lower_ratio upper_ratio : Q)
           (obj_ratios : list SsdProc.float) : list bool :=
  map (fun r =>
         SsdProc.float_gt r lower_ratio &&
         negb (negb (Qle_bool 1 upper_ratio) && SsdProc.float_gt r upper_ratio))
      obj_ratios.

Definition mapping_decision (ids : list Z) (obj_ratios : list SsdProc.float)
           (lower_ratio upper_ratio sizethreshold : Q) (size_of : Z -> Z)
  : result (list Z) :=
  if negb (Nat.eqb (length ids) (length obj_ratios)) then Raise IndexError
  else
    let candidate_ids :=
      Py.select (id_mask lower_ratio upper_ratio obj_ratios) ids in
    Ok (filter (fun c => negb (Qle_bool (inject_Z (size_of c)) sizethreshold))
               candidate_ids).

(** Lines 167-204 for one object type: the correction, then the decision. *)
Definition apply_mapping_decision (obj_type : string) (ids : list Z)
           (obj_ratios : list SsdProc.float) (load : Z -> SsdProc.so_attrs)
           (lower_ratio upper_ratio sizethreshold : Q) (size_of : Z -> Z)
  : result (list Z) :=
  obj_ratios <- SsdProc.correct_ratios obj_type ids obj_ratios load ;;
  mapping_decision ids obj_ratios lower_ratio upper_ratio sizethreshold size_of.

(** Lines 246-261 of [_map_synaptic_conn_objects_thread] for one cell: the
    three cached arrays have one entry per conn object. *)
Definition ssv_conn_ids (conn_ids : list Z) (syn_prob : list Q)
           (ssv_partners : list (Z * Z)) (ssv_id : Z) : list Z :=
  let keep := map (fun p => negb (Qle_bool p (1 # 2))) syn_prob in
  let conn_ids := Py.select keep conn_ids in
  let ssv_partners := Py.select keep ssv_partners in
  Py.select (map (fun p => fst p =? ssv_id) ssv_partners) conn_ids
  ++ Py.select (map (fun p => snd p =? ssv_id) ssv_partners) conn_ids.

(** The ids of the conn objects whose probability and partners pass a
    test, in the order of the three arrays and one for every such
    object. *)
Definition conn_ids_where (test : Q -> Z * Z -> bool) (conn_ids : list Z)
           (syn_prob : list Q) (ssv_partners : list (Z * Z)) : list Z :=
  map fst (filter (fun row => test (fst (snd row)) (snd (snd row)))
                  (combine conn_ids (combine syn_prob ssv_partners))).

End SsdProcJobs.

(** ** objectextraction.py: choosing the chunks *)

Module ChunkBox.

Definition triple := (Z * Z * Z)%type.

Definition triple_eqb (a b : triple) : bool :=
  let '(a0, a1, a2) := a in
  let '(b0, b1, b2) := b in
  (a0 =? b0) && (a1 =? b1) && (a2 =? b2).

(** [a % b] on the integers of a NumPy array: zero (with a warning) when
    [b] is zero, and of the sign of [b] otherwise. *)
Definition np_mod (a b : Z) : Z := if b =? 0 then 0 else a mod b.

(** Lines 140-144 of [calculate_chunk_numbers_for_box] for one dimension:
    the offset and the size after the loop body. *)
Definition align_dim (offset size chunk_size : Z) : Z * Z :=
  let offset_overlap := np_mod offset chunk_size in
  let offset := offset - offset_overlap in
  let size := size + offset_overlap in
  let size := size + np_mod (chunk_size - size) chunk_size in
  (offset, size).

(** The coordinates the three nested loops of lines 148-150 visit.  The
    range of an inner loop is built when the body of the outer loop runs,
    so that a step of zero raises only then. *)
Definition box_coords (offset size chunk_size : triple) : result (list triple) :=
  let '(o0, o1, o2) := offset in
  let '(s0, s1, s2) := size in
  let '(c0, c1, c2) := chunk_size in
  xs <- Py.range3 o0 (o0 + s0) c0 ;;
  match xs with
  | [] => Ok []
  | _ =>
      ys <- Py.range3 o1 (o1 + s1) c1 ;;
      match ys with
      | [] => Ok []
      | _ =>
          zs <- Py.range3 o2 (o2 + s2) c2 ;;
          Ok (flat_map (fun x =>
                flat_map (fun y => map (fun z => (x, y, z)) zs) ys) xs)
      end
  end.

(** Lines 151-152: the chunk of one coordinate is appended and entered in
    the translator. *)
Definition add_chunk (coord_dict : list (triple * Z)) (p : triple)
           (st : list Z * ObjectExtraction.translator)
  : result (list Z * ObjectExtraction.translator) :=
  let '(chunk_list, translator) := st in
  c <- Dict.get triple_eqb coord_dict p ;;
  let chunk_list := chunk_list ++ [c] in
  Ok (chunk_list,
      Dict.set Z.eqb translator (last chunk_list 0) (length chunk_list - 1)%nat).

(** The box after lines 140-144. *)
Definition align_box (offset size chunk_size : triple) : triple * triple :=
  let '(o0, o1, o2) := offset in
  let '(s0, s1, s2) := size in
  let '(c0, c1, c2) := chunk_size in
  let '(o0', s0') := align_dim o0 s0 c0 in
  let '(o1', s1') := align_dim o1 s1 c1 in
  let '(o2', s2') := align_dim o2 s2 c2 in
  ((o0', o1', o2'), (s0', s1', s2')).

(** [calculate_chunk_numbers_for_box(cset, offset, size)]; [coord_dict] and
    [chunk_size] are those of [cset]. *)
Definition calculate_chunk_numbers_for_box
           (coord_dict : list (triple * Z)) (chunk_size offset size : triple)
  : result (list Z * ObjectExtraction.translator) :=
  let '(offset, size) := align_box offset size chunk_size in
  coords <- box_coords offset size chunk_size ;;
  for_each coords (add_chunk coord_dict) ([], []).

(** [offset] and [size] are arrays, and lines 141-144 change them in
    place: the call as a step on the arrays of the caller, which hold the
    aligned box afterwards. *)
Definition call_on_arrays (coord_dict : list (triple * Z)) (chunk_size : triple)
           (box : triple * triple)
  : result (list Z * ObjectExtraction.translator) * (triple * triple) :=
  (calculate_chunk_numbers_for_box coord_dict chunk_size (fst box) (snd box),
   align_box (fst box) (snd box) chunk_size).

(** The origin of the chunk that holds a coordinate of one dimension. *)
Definition chunk_origin (x chunk_size : Z) : Z := x - x mod chunk_size.

(** The key of [coord_dict] for the chunk that holds a voxel. *)
Definition chunk_coord (chunk_size p : triple) : triple :=
  let '(c0, c1, c2) := chunk_size in
  let '(x, y, z) := p in
  (chunk_origin x c0, chunk_origin y c1, chunk_origin z c2).

(** The voxels of the box at [offset] of the given [size]. *)
Definition in_box (offset size p : triple) : Prop :=
  let '(o0, o1, o2) := offset in
  let '(s0, s1, s2) := size in
  let '(x, y, z) := p in
  o0 <= x < o0 + s0 /\ o1 <= y < o1 + s1 /\ o2 <= z < o2 + s2.

Definition positive3 (t : triple) : Prop :=
  let '(a, b, c) := t in 0 < a /\ 0 < b /\ 0 < c.

(** Lines 785-796 of [from_probabilities_to_objects] (and 1058-1069 of
    [from_ids_to_objects]): the chunk list and the translator; [n_chunks]
    is [len(cset.chunk_dict)]. *)
Definition select_chunks (coord_dict : list (triple * Z)) (chunk_size : triple)
           (n_chunks : nat) (chunk_list : option (list Z))
           (offset size : option triple)
  : result (list Z * ObjectExtraction.translator) :=
  match size, offset with
  | Some size, Some offset =>
      calculate_chunk_numbers_for_box coord_dict chunk_size offset size
  | _, _ =>
      match chunk_list with
      | None =>
          Ok (map Z.of_nat (seq 0 n_chunks),
              fold_left (fun tr ii => Dict.set Z.eqb tr (Z.of_nat ii) ii)
                        (seq 0 n_chunks) [])
      | Some chunk_list =>
          Ok (chunk_list, ObjectExtraction.make_translator chunk_list)
      end
  end.

(** The body of the loop of lines 340-342 of [make_unique_labels]. *)
Definition base_for_name (max_nb_dict : list (string * list Z))
           (tr : ObjectExtraction.translator) (nb_chunk : Z) (hdf5_name : string)
           (this_max_nb_dict : list (string * Z)) : result (list (string * Z)) :=
  arr <- Dict.get String.eqb max_nb_dict hdf5_name ;;
  idx <- Dict.get Z.eqb tr nb_chunk ;;
  v <- Np.getitem arr (Z.of_nat idx) ;;
  Ok (Dict.set String.eqb this_max_nb_dict hdf5_name v).

(** Lines 337-345 of [make_unique_labels]: the parameters of the workers,
    one per entry of the chunk list: the chunk and the base of every
    name.  [chunk_dict] is [cset.chunk_dict]. *)
Definition unique_labels_param {C : Type} (chunk_dict : list (Z * C))
           (hdf5names : list string) (max_nb_dict : list (string * list Z))
           (tr : ObjectExtraction.translator) (nb_chunk : Z)
           (multi_params : list (C * list (string * Z)))
  : result (list (C * list (string * Z))) :=
  this_max_nb_dict <-
    for_each hdf5names (base_for_name max_nb_dict tr nb_chunk) [] ;;
  chunk <- Dict.get Z.eqb chunk_dict nb_chunk ;;
  Ok (multi_params ++ [(chunk, this_max_nb_dict)]).

Definition make_unique_labels_params {C : Type} (chunk_dict : list (Z * C))
           (hdf5names : list string) (chunk_list : list Z)
           (max_nb_dict : list (string * list Z))
           (tr : ObjectExtraction.translator)
  : result (list (C * list (string * Z))) :=
  for_each chunk_list (unique_labels_param chunk_dict hdf5names max_nb_dict tr)
           [].

End ChunkBox.

(** ** objectextraction.py: collecting the results of the workers *)

Module Collect.

(** [d[k].append(v)], with a new list for a new key. *)
Definition append_to {V : Type} (d : list (Z * list V)) (k : Z) (v : V)
  : list (Z * list V) :=
  match Dict.get Z.eqb d k with
  | Ok l => Dict.set Z.eqb d k (l ++ [v])
  | Raise _ => Dict.set Z.eqb d k [v]
  end.

(** Lines 108-113 of [extract_ids] for one name: a result is the pair of a
    chunk and the ids found in it for every name. *)
Definition id_mapping_for {C : Type}
           (results : list (C * list (string * list Z))) (hdf5_name : string)
  : result (list (Z * list C)) :=
  for_each results (fun res id_mapping =>
    ids <- Dict.get String.eqb (snd res) hdf5_name ;;
    Ok (fold_left (fun m this_id => append_to m this_id (fst res))
                  ids id_mapping)) [].

(** Lines 105-113 of [extract_ids]. *)
Definition extract_ids_mapping {C : Type}
           (results : list (C * list (string * list Z)))
           (hdf5names : list string)
  : result (list (string * list (Z * list C))) :=
  for_each hdf5names (fun hdf5_name id_mapping =>
    m <- id_mapping_for results hdf5_name ;;
    Ok (Dict.set String.eqb id_mapping hdf5_name m)) [].

(** Lines 619-622 of [extract_voxels] for one name: a result holds, for
    every name, the items (key, value) of a dictionary. *)
Definition remap_dict_for {V : Type}
           (results : list (list (string * list (Z * V)))) (hdf5_name : string)
  : result (list (Z * list V)) :=
  for_each results (fun res remap_dict =>
    items <- Dict.get String.eqb res hdf5_name ;;
    Ok (fold_left (fun d kv => append_to d (fst kv) (snd kv))
                  items remap_dict)) [].

(** The values a list of items holds for a key, in order. *)
Definition values_of {V : Type} (k : Z) (items : list (Z * V)) : list V :=
  map snd (filter (fun kv => fst kv =? k) items).

(** What a result holds for a name; nothing when it lacks the name. *)
Definition entry {V : Type} (hdf5_name : string) (res : list (string * list V))
  : list V :=
  match Dict.get String.eqb res hdf5_name with
  | Ok l => l
  | Raise _ => []
  end.

(** What a lookup gives in a dictionary of lists that holds the values
    [vs] for the key, and no key without a value. *)
Definition listed {V : Type} (vs : list V) : result (list V) :=
  match vs with
  | [] => Raise KeyError
  | _ => Ok vs
  end.

(** What a key holds once the values stored so far are followed by [vs]. *)
Definition extended {V : Type} (r : result (list V)) (vs : list V)
  : result (list V) :=
  match r with
  | Ok l => Ok (l ++ vs)
  | Raise _ => listed vs
  end.

(** The chunk of a result of [extract_ids], once for every time the result
    lists the id under the name. *)
Definition chunks_with_id {C : Type} (hdf5_name : string) (this_id : Z)
           (res : C * list (string * list Z)) : list C :=
  map (fun _ => fst res) (filter (Z.eqb this_id) (entry hdf5_name (snd res))).

(** Lines 405-413 of [make_stitch_list]: the stitch list of every name is
    extended by the edges of every result. *)
Definition append_elems (hdf5_name : string) (elems : list (Z * Z))
           (stitch_list : list (string * list (Z * Z)))
  : result (list (string * list (Z * Z))) :=
  for_each elems (fun elem stitch_list =>
    cur <- Dict.get String.eqb stitch_list hdf5_name ;;
    Ok (Dict.set String.eqb stitch_list hdf5_name (cur ++ [elem]))) stitch_list.

Definition extend_stitch_list (hdf5names : list string)
           (res : list (string * list (Z * Z)))
           (stitch_list : list (string * list (Z * Z)))
  : result (list (string * list (Z * Z))) :=
  for_each hdf5names (fun hdf5_name stitch_list =>
    elems <- Dict.get String.eqb res hdf5_name ;;
    append_elems hdf5_name elems stitch_list) stitch_list.

Definition collect_stitch_list (hdf5names : list string)
           (results : list (list (string * list (Z * Z))))
  : result (list (string * list (Z * Z))) :=
  let stitch_list :=
    fold_left (fun d h => Dict.set String.eqb d h []) hdf5names [] in
  for_each results (extend_stitch_list hdf5names) stitch_list.

End Collect.

(** ** Concrete inputs for the examples of the chunk choice *)

Module ChunkFixtures.

(** A chunk set of 3 x 1 x 2 chunks of 4 x 4 x 3 voxels. *)
Definition coord_dict_grid : list (ChunkBox.triple * Z) :=
  [((0, 0, 0), 0); ((0, 0, 3), 1); ((4, 0, 0), 2); ((4, 0, 3), 3);
   ((8, 0, 0), 4); ((8, 0, 3), 5)].

End ChunkFixtures.

(** ** block_processing.py: arrays of a given shape *)

Module BlockGrid.
Import BlockProcessing.

(** The nested lists of an array of shape [(n0, n1, n2)]. *)
Definition has_shape (a : array3) (n0 n1 n2 : nat) : Prop :=
  length a = n0 /\
  forall x, (x < n0)%nat ->
    length (nth x a []) = n1 /\
    forall y, (y < n1)%nat -> length (nth y (nth x a []) []) = n2.

(** The window [process_block_nonzero] cuts for the output voxel
    [(x, y, z)], the voxel at its center, and the result of [kernel] on
    the two. *)
Definition window_at (arr : array3) (st : stencil_t) (x y z : nat) : list Z :=
  let '(s0, s1, s2) := st in
  window arr x (x + s0) y (y + s1) z (z + s2).

Definition center_at (arr : array3) (st : stencil_t) (x y z : nat) : Z :=
  let '(s0, s1, s2) := st in
  get3 arr (x + s0 / 2) (y + s1 / 2) (z + s2 / 2).

Definition kernel_at (dt : id_dtype) (arr : array3) (st : stencil_t)
           (x y z : nat) : result Z :=
  kernel dt (window_at arr st x y z) (center_at arr st x y z).

(** The window [process_block] cuts around the voxel [(x, y, z)], and the
    result of [kernel] on it. *)
Definition block_window_at (arr : array3) (st : stencil_t) (x y z : nat)
  : list Z :=
  let '(s0, s1, s2) := st in
  window arr (x - s0 / 2) (x + s0 / 2 + 1)
             (y - s1 / 2) (y + s1 / 2)
             (z - s2 / 2) (z + s2 / 2).

Definition block_kernel_at (dt : id_dtype) (arr : array3) (st : stencil_t)
           (x y z : nat) : result Z :=
  kernel dt (block_window_at arr st x y z) (get3 arr x y z).

(** A window holds an id other than background and the center id. *)
Definition has_partner (chunk : list Z) (center_id : Z) : Prop :=
  exists v, In v chunk /\ v <> 0 /\ v <> center_id.

(** The voxels the three loops of [process_block] visit, in order. *)
Definition interior (st : stencil_t) (n0 n1 n2 : nat)
  : list (nat * nat * nat) :=
  let '(s0, s1, s2) := st in
  flat_map (fun x =>
    flat_map (fun y =>
      map (fun z => (x, y, z)) (range (s2 / 2) (n2 - s2 / 2)))
      (range (s1 / 2) (n1 - s1 / 2)))
    (range (s0 / 2) (n0 - s0 / 2)).

End BlockGrid.

(** * Proofs *)

(** ** Facts about the NumPy helpers *)

Module NpFacts.
Import Np.

Lemma fold_max_ge_init (l : list Z) (x : Z) : x <= fold_left Z.max l x.
Proof.
revert x; induction l as [|a l IH]; intros x; simpl; [lia|].
specialize (IH (Z.max x a)); lia.
Qed.

Lemma fold_max_ge (l : list Z) (x y : Z) :
  In y l -> y <= fold_left Z.max l x.
Proof.
revert x; induction l as [|a l IH]; intros x H; simpl in *; [tauto|].
destruct H as [H|H].
- subst. pose proof (fold_max_ge_init l (Z.max x y)); lia.
- now apply IH.
Qed.

Lemma fold_max_in (l : list Z) (x : Z) :
  fold_left Z.max l x = x \/ In (fold_left Z.max l x) l.
Proof.
revert x; induction l as [|a l IH]; intros x; simpl; [now left|].
destruct (IH (Z.max x a)) as [H|H]; [|now right; right].
rewrite H. destruct (Z.max_spec x a) as [[_ E]|[_ E]]; rewrite E; auto.
Qed.

Lemma max_spec (l : list Z) (m : Z) :
  max l = Ok m -> In m l /\ (forall c, In c l -> c <= m).
Proof.
destruct l as [|x l]; simpl; [discriminate|].
intros H; injection H as <-. split.
- destruct (fold_max_in l x) as [E|E]; [left; now rewrite E | now right].
- intros c [<-|Hc]; [apply fold_max_ge_init | now apply fold_max_ge].
Qed.

Lemma max_nonempty (l : list Z) : l <> [] -> exists m, max l = Ok m.
Proof. destruct l; [congruence|]; intros _; simpl; eauto. Qed.

Lemma argmax_index (l : list Z) (m : Z) :
  max l = Ok m -> argmax l = index_of m l.
Proof.
destruct l as [|x l]; simpl; [discriminate|].
intros H; injection H as <-. reflexivity.
Qed.

(** The first entry that carries the count [m]; in a table sorted by id it
    is the smallest id with that count. *)
Lemma index_of_first (t : list (Z * Z)) (m : Z) :
  In m (map snd t) ->
  exists b,
    nth (index_of m (map snd t)) (map fst t) 0 = b /\ In (b, m) t /\
    (StronglySorted Z.lt (map fst t) -> forall k, In (k, m) t -> b <= k).
Proof.
induction t as [|[k0 c0] t IH]; simpl; [tauto|].
intros Hin. destruct (Z.eqb_spec c0 m) as [->|Hne].
- exists k0. repeat split; auto.
  intros Hs k [E|Hk]; [injection E as <-; lia|].
  inversion Hs as [|? ? _ Hall]; subst.
  rewrite Forall_forall in Hall.
  assert (k0 < k) by (apply Hall; change k with (fst (k, m)); now apply in_map).
  lia.
- destruct Hin as [E|Hin]; [congruence|].
  destruct (IH Hin) as (b & Hb & Hbin & Hmin).
  exists b. repeat split; auto.
  intros Hs k [E|Hk]; [congruence|].
  inversion Hs; subst. now apply Hmin.
Qed.

Lemma lookup_In (t : list (Z * Z)) (k c : Z) :
  NoDup (map fst t) -> (In (k, c) t <-> lookup k t = Some c).
Proof.
induction t as [|[k0 c0] t IH]; simpl; intros Hnd.
- split; [tauto | discriminate].
- inversion Hnd as [|? ? Hnotin Hnd']; subst.
  destruct (Z.eqb_spec k k0) as [->|Hne].
  + split.
    * intros [E|Hin]; [congruence|].
      exfalso; apply Hnotin. change k0 with (fst (k0, c)). now apply in_map.
    * intros E; left; congruence.
  + rewrite <- (IH Hnd'). split; [intros [E|]; [congruence | assumption] | auto].
Qed.

Lemma lookup_None (t : list (Z * Z)) (k : Z) :
  lookup k t = None <-> ~ In k (map fst t).
Proof.
induction t as [|[k0 c0] t IH]; simpl; [tauto|].
destruct (Z.eqb_spec k k0) as [->|Hne].
- split; [discriminate | intros H; exfalso; apply H; now left].
- rewrite IH. split; [intros H [E|Hin]; [congruence | tauto] | tauto].
Qed.

Lemma sorted_NoDup (l : list Z) : StronglySorted Z.lt l -> NoDup l.
Proof.
induction 1 as [|a l Hs IH Hall]; constructor; auto.
intros Hin. rewrite Forall_forall in Hall. specialize (Hall _ Hin). lia.
Qed.

Lemma count_insert_keys (x : Z) (t : list (Z * Z)) (k : Z) :
  In k (map fst (count_insert x t)) <-> k = x \/ In k (map fst t).
Proof.
induction t as [|[k0 c0] t IH]; simpl.
- intuition.
- destruct (Z.ltb_spec x k0); simpl; [intuition|].
  destruct (Z.eqb_spec x k0) as [->|Hne]; simpl; [intuition|].
  rewrite IH. intuition.
Qed.

Lemma count_insert_sorted (x : Z) (t : list (Z * Z)) :
  StronglySorted Z.lt (map fst t) ->
  StronglySorted Z.lt (map fst (count_insert x t)).
Proof.
induction t as [|[k0 c0] t IH]; simpl; intros Hs.
- repeat constructor.
- inversion Hs as [|? ? Hs' Hall]; subst.
  destruct (Z.ltb_spec x k0); simpl.
  + constructor; [assumption|]. constructor; [assumption|].
    rewrite Forall_forall in *. intros y Hy. specialize (Hall _ Hy). lia.
  + destruct (Z.eqb_spec x k0) as [->|Hne]; simpl; [assumption|].
    constructor; [now apply IH|].
    rewrite Forall_forall in *. intros y Hy.
    apply count_insert_keys in Hy. destruct Hy as [->|Hy]; [lia | now apply Hall].
Qed.

Lemma lookup_count_insert (x k : Z) (t : list (Z * Z)) :
  StronglySorted Z.lt (map fst t) ->
  lookup k (count_insert x t) =
    if k =? x
    then Some (match lookup x t with Some c => c + 1 | None => 1 end)
    else lookup k t.
Proof.
induction t as [|[k0 c0] t IH]; simpl; intros Hs.
- destruct (Z.eqb_spec k x); reflexivity.
- inversion Hs as [|? ? Hs' Hall]; subst.
  destruct (Z.ltb_spec x k0); simpl.
  + destruct (Z.eqb_spec k x) as [->|Hne]; [|reflexivity].
    destruct (Z.eqb_spec x k0); [lia|].
    assert (E : lookup x t = None).
    { apply lookup_None. intros Hin. rewrite Forall_forall in Hall.
      specialize (Hall _ Hin). lia. }
    now rewrite E.
  + destruct (Z.eqb_spec x k0) as [->|Hne]; simpl.
    * destruct (Z.eqb_spec k k0) as [->|Hne']; reflexivity.
    * destruct (Z.eqb_spec k k0) as [->|Hne'].
      -- destruct (Z.eqb_spec k0 x); [congruence | reflexivity].
      -- rewrite (IH Hs'). destruct (Z.eqb_spec k x) as [->|]; [|reflexivity].
         reflexivity.
Qed.

Lemma unique_sorted (l : list Z) : StronglySorted Z.lt (map fst (unique l)).
Proof.
induction l as [|x l IH]; simpl; [constructor|].
now apply count_insert_sorted.
Qed.

Lemma count_cons (k x : Z) (l : list Z) :
  count k (x :: l) = if k =? x then count k l + 1 else count k l.
Proof.
unfold count; simpl.
destruct (Z.eq_dec x k) as [->|Hne].
- rewrite Z.eqb_refl. lia.
- destruct (Z.eqb_spec k x); [congruence | reflexivity].
Qed.

Lemma count_nonneg (k : Z) (l : list Z) : 0 <= count k l.
Proof. unfold count; lia. Qed.

Lemma count_pos (k : Z) (l : list Z) : In k l <-> 0 < count k l.
Proof.
unfold count. rewrite (count_occ_In Z.eq_dec). lia.
Qed.

Lemma lookup_unique (k : Z) (l : list Z) :
  lookup k (unique l) = if count k l =? 0 then None else Some (count k l).
Proof.
induction l as [|x l IH]; simpl; [reflexivity|].
rewrite lookup_count_insert by apply unique_sorted.
rewrite count_cons. pose proof (count_nonneg k l).
destruct (Z.eqb_spec k x) as [->|Hne]; [|assumption].
rewrite IH.
destruct (Z.eqb_spec (count x l) 0) as [E|E];
  destruct (Z.eqb_spec (count x l + 1) 0); try lia; [now rewrite E | reflexivity].
Qed.

Lemma mask_set_keys (v c : Z) (t : list (Z * Z)) :
  map fst (mask_set v c t) = map fst t.
Proof.
unfold mask_set. rewrite map_map. apply map_ext.
intros [k c0]; simpl. destruct (k =? v); reflexivity.
Qed.

Lemma lookup_mask_set (v c k : Z) (t : list (Z * Z)) :
  lookup k (mask_set v c t) =
    if k =? v
    then match lookup k t with Some _ => Some c | None => None end
    else lookup k t.
Proof.
induction t as [|[k0 c0] t IH]; simpl.
- destruct (k =? v); reflexivity.
- destruct (Z.eqb_spec k0 v) as [->|Hne]; simpl.
  + destruct (Z.eqb_spec k v) as [->|Hne']; [reflexivity|].
    rewrite IH. destruct (Z.eqb_spec k v); [congruence | reflexivity].
  + destruct (Z.eqb_spec k k0) as [->|Hne'].
    * destruct (Z.eqb_spec k0 v); [congruence | reflexivity].
    * apply IH.
Qed.

End NpFacts.

(** ** kernel *)

Module KernelFacts.
Import Np NpFacts BlockProcessing.

Lemma masked_keys (chunk : list Z) (center_id : Z) :
  map fst (masked chunk center_id) = map fst (unique chunk).
Proof. unfold masked. now rewrite !mask_set_keys. Qed.

Lemma lookup_masked (chunk : list Z) (center_id k : Z) :
  lookup k (masked chunk center_id) =
    if count k chunk =? 0 then None
    else Some (if (k =? center_id) || (k =? 0) then -1 else count k chunk).
Proof.
unfold masked. rewrite !lookup_mask_set, lookup_unique.
destruct (count k chunk =? 0), (k =? center_id), (k =? 0); reflexivity.
Qed.

Lemma masked_NoDup (chunk : list Z) (center_id : Z) :
  NoDup (map fst (masked chunk center_id)).
Proof. rewrite masked_keys. apply sorted_NoDup, unique_sorted. Qed.

Lemma masked_candidate (chunk : list Z) (center_id y : Z) :
  In y chunk -> y <> 0 -> y <> center_id ->
  In (y, count y chunk) (masked chunk center_id).
Proof.
intros Hin H0 Hc. apply lookup_In; [apply masked_NoDup|].
rewrite lookup_masked. apply count_pos in Hin.
destruct (Z.eqb_spec (count y chunk) 0); [lia|].
destruct (Z.eqb_spec y center_id); [congruence|].
destruct (Z.eqb_spec y 0); [congruence | reflexivity].
Qed.

Lemma masked_entry (chunk : list Z) (center_id b m : Z) :
  In (b, m) (masked chunk center_id) -> 0 < m ->
  In b chunk /\ b <> 0 /\ b <> center_id /\ m = count b chunk.
Proof.
intros Hin Hm. apply lookup_In in Hin; [|apply masked_NoDup].
rewrite lookup_masked in Hin.
destruct (Z.eqb_spec (count b chunk) 0) as [|Hc]; [discriminate|].
pose proof (count_nonneg b chunk).
destruct (Z.eqb_spec b center_id); simpl in Hin;
  [injection Hin as <-; lia|].
destruct (Z.eqb_spec b 0); simpl in Hin; injection Hin as <-; [lia|].
repeat split; auto. apply count_pos; lia.
Qed.

Lemma kernel_unfold (dt : id_dtype) (chunk : list Z) (center_id : Z) :
  kernel dt chunk center_id =
    (m <- max (map snd (masked chunk center_id)) ;;
     if m >? 0
     then pair_key dt center_id
            (nth (argmax (map snd (masked chunk center_id)))
                 (map fst (masked chunk center_id)) 0)
     else Ok 0).
Proof. reflexivity. Qed.

Lemma masked_nonempty (chunk : list Z) (center_id : Z) :
  chunk <> [] -> map snd (masked chunk center_id) <> [].
Proof.
destruct chunk as [|x chunk]; [congruence|]. intros _ E.
assert (H : In x (map fst (masked (x :: chunk) center_id))).
{ rewrite masked_keys. simpl. apply count_insert_keys. now left. }
destruct (masked (x :: chunk) center_id); [destruct H | discriminate].
Qed.

(** The two outcomes of [kernel] on a window that is not empty. *)
Lemma kernel_cases (dt : id_dtype) (chunk : list Z) (center_id : Z) :
  chunk <> [] ->
  (kernel dt chunk center_id = Ok 0 /\
   forall y, In y chunk -> y = 0 \/ y = center_id)
  \/
  (exists b,
      kernel dt chunk center_id = pair_key dt center_id b /\
      In b chunk /\ b <> 0 /\ b <> center_id /\
      forall y, In y chunk -> y <> 0 -> y <> center_id ->
                count y chunk <= count b chunk /\
                (count y chunk = count b chunk -> b <= y)).
Proof.
intros Hne. rewrite kernel_unfold.
destruct (max_nonempty _ (masked_nonempty _ center_id Hne)) as [m Hm].
rewrite Hm; simpl.
destruct (max_spec _ _ Hm) as [Hin Hall].
destruct (Z.gtb_spec m 0) as [Hpos|Hnpos].
- right. rewrite (argmax_index _ _ Hm).
  destruct (index_of_first _ _ Hin) as (b & Hb & Hbin & Hmin).
  rewrite Hb. exists b.
  destruct (masked_entry _ _ _ _ Hbin) as (Hb1 & Hb2 & Hb3 & Hb4); [lia|].
  repeat split; auto.
  + subst m. apply Hall.
    change (count y chunk) with (snd (y, count y chunk)).
    apply in_map. now apply masked_candidate.
  + intros E. apply Hmin.
    * rewrite masked_keys. apply unique_sorted.
    * rewrite Hb4, <- E. now apply masked_candidate.
- left. split; [reflexivity|].
  intros y Hy.
  destruct (Z.eq_dec y 0) as [|H0]; [now left|].
  destruct (Z.eq_dec y center_id) as [|Hc]; [now right|].
  exfalso.
  assert (count y chunk <= m).
  { apply Hall. change (count y chunk) with (snd (y, count y chunk)).
    apply in_map. now apply masked_candidate. }
  apply count_pos in Hy. lia.
Qed.

(** [int64] arithmetic is exact on what fits. *)
Lemma wrap_int64_small (z : Z) :
  - 2 ^ 63 <= z < 2 ^ 63 -> wrap_int64 z = z.
Proof.
intros H. unfold wrap_int64. rewrite Z.mod_small; lia.
Qed.

Lemma wrap_int64_range (z : Z) : - 2 ^ 63 <= wrap_int64 z < 2 ^ 63.
Proof.
unfold wrap_int64.
pose proof (Z.mod_pos_bound (z + 2 ^ 63) (2 ^ 64) ltac:(lia)). lia.
Qed.

(** What the [uint64] output holds of an [int64] value. *)
Lemma as_uint64_wrap (z : Z) : as_uint64 (wrap_int64 z) = as_uint64 z.
Proof.
unfold as_uint64, wrap_int64.
rewrite <- (Z.mod_add ((z + 2 ^ 63) mod 2 ^ 64 - 2 ^ 63) 1 (2 ^ 64)) by lia.
replace ((z + 2 ^ 63) mod 2 ^ 64 - 2 ^ 63 + 1 * 2 ^ 64)
  with ((z + 2 ^ 63) mod 2 ^ 64 + 2 ^ 63) by lia.
rewrite Zplus_mod_idemp_l.
replace (z + 2 ^ 63 + 2 ^ 63) with (z + 1 * 2 ^ 64) by lia.
now rewrite Z.mod_add by lia.
Qed.

Lemma as_uint64_small (z : Z) : 0 <= z < 2 ^ 64 -> as_uint64 z = z.
Proof. intros H. unfold as_uint64. now rewrite Z.mod_small. Qed.

Lemma as_uint64_add_l (a b : Z) :
  as_uint64 (wrap_int64 a + b) = as_uint64 (a + b).
Proof.
unfold as_uint64. rewrite <- Zplus_mod_idemp_l.
change (wrap_int64 a mod 2 ^ 64) with (as_uint64 (wrap_int64 a)).
rewrite as_uint64_wrap. unfold as_uint64. now rewrite Zplus_mod_idemp_l.
Qed.

(** The ids are ordered before the shift. *)
Lemma pair_key_min_max (dt : id_dtype) (a b : Z) :
  pair_key dt a b = shift_add dt (Z.min a b) (Z.max a b).
Proof.
unfold pair_key. destruct (Z.gtb_spec a b).
- rewrite Z.min_r, Z.max_l by lia. reflexivity.
- rewrite Z.min_l, Z.max_r by lia. reflexivity.
Qed.

(** The key as the [uint64] output stores it, for ids of 32 bits. *)
Lemma pair_key_stored (a b : Z) :
  0 <= a < 2 ^ 32 -> 0 <= b < 2 ^ 32 ->
  exists k, pair_key np_int64 a b = Ok k /\ as_uint64 k = key_of a b.
Proof.
intros Ha Hb. rewrite pair_key_min_max. unfold shift_add.
eexists; split; [reflexivity|].
rewrite as_uint64_wrap, as_uint64_add_l. unfold key_of.
apply as_uint64_small. rewrite Z.shiftl_mul_pow2 by lia. lia.
Qed.

(** Nothing wraps when the smaller id has 31 bits and the larger 32. *)
Lemma pair_key_exact (a b : Z) :
  0 <= Z.min a b < 2 ^ 31 -> 0 <= Z.max a b < 2 ^ 32 ->
  pair_key np_int64 a b = Ok (key_of a b).
Proof.
intros Ha Hb. rewrite pair_key_min_max. unfold shift_add, key_of.
rewrite Z.shiftl_mul_pow2 by lia.
rewrite (wrap_int64_small (Z.min a b * 2 ^ 32)) by lia.
rewrite wrap_int64_small by lia. reflexivity.
Qed.

Lemma key_of_pos (a b : Z) : 0 <= a -> 0 <= b -> b <> 0 -> key_of a b <> 0.
Proof.
intros Ha Hb Hne. unfold key_of. rewrite Z.shiftl_mul_pow2 by lia. lia.
Qed.

Lemma key_of_bound (a b : Z) :
  0 <= a < 2 ^ 32 -> 0 <= b < 2 ^ 32 -> 0 <= key_of a b < 2 ^ 64.
Proof.
intros Ha Hb. unfold key_of. rewrite Z.shiftl_mul_pow2 by lia. lia.
Qed.

Lemma pair_key_uint64 (a b : Z) : pair_key np_uint64 a b = Raise TypeError.
Proof. unfold pair_key. now destruct (a >? b). Qed.

End KernelFacts.

(** ** The window as a multiset *)

Module WindowFacts.
Import Np NpFacts BlockProcessing.






End WindowFacts.

(** ** Thresholds, overlap and background correction *)

Module OverlapFacts.
Import ObjectExtraction.

Lemma Qmax2_l (a b : Q) : (a <= Qmax2 a b)%Q.
Proof.
unfold Qmax2. destruct (Qle_bool a b) eqn:E.
- now apply Qle_bool_iff.
- apply Qle_refl.
Qed.

Lemma Qmax2_r (a b : Q) : (b <= Qmax2 a b)%Q.
Proof.
unfold Qmax2. destruct (Qle_bool a b) eqn:E.
- apply Qle_refl.
- apply Qlt_le_weak, Qnot_le_lt. intros H.
  apply Qle_bool_iff in H. congruence.
Qed.

Lemma Qmax2_cases (a b : Q) : Qmax2 a b = a \/ Qmax2 a b = b.
Proof. unfold Qmax2. destruct (Qle_bool a b); auto. Qed.

Lemma fold_Qmax2_ge_init (l : list Q) (x : Q) : (x <= fold_left Qmax2 l x)%Q.
Proof.
revert x; induction l as [|a l IH]; intros x; simpl; [apply Qle_refl|].
eapply Qle_trans; [apply (Qmax2_l x a) | apply IH].
Qed.

Lemma fold_Qmax2_ge (l : list Q) (x y : Q) :
  In y l -> (y <= fold_left Qmax2 l x)%Q.
Proof.
revert x; induction l as [|a l IH]; intros x H; simpl in *; [tauto|].
destruct H as [->|H]; [|now apply IH].
eapply Qle_trans; [apply (Qmax2_r x y) | apply fold_Qmax2_ge_init].
Qed.

Lemma fold_Qmax2_in (l : list Q) (x : Q) :
  In (fold_left Qmax2 l x) (x :: l).
Proof.
revert x; induction l as [|a l IH]; intros x; simpl; [now left|].
destruct (IH (Qmax2 x a)) as [H|H]; [|now right; right].
rewrite <- H. destruct (Qmax2_cases x a) as [E|E]; rewrite E; auto.
Qed.

Lemma np_max_Q_spec (l : list Q) :
  l <> [] ->
  exists m, np_max_Q l = Ok m /\ In m l /\ forall s, In s l -> (s <= m)%Q.
Proof.
destruct l as [|x l]; [congruence|]. intros _.
exists (fold_left Qmax2 l x). split; [reflexivity|]. split.
- apply fold_Qmax2_in.
- intros s [<-|H]; [apply fold_Qmax2_ge_init | now apply fold_Qmax2_ge].
Qed.

End OverlapFacts.

(** ** Arrays and dictionaries *)

Module ArrayFacts.
Import Np.

Lemma update_length {A : Type} (i : nat) (v : A) (l : list A) :
  length (update i v l) = length l.
Proof.
revert i; induction l as [|x l IH]; intros [|i]; simpl; auto.
Qed.

Lemma nth_update {A : Type} (i j : nat) (v d : A) (l : list A) :
  (i < length l)%nat ->
  nth j (update i v l) d = if Nat.eqb j i then v else nth j l d.
Proof.
revert i j; induction l as [|x l IH]; intros [|i] [|j] H; simpl in *;
  try lia; auto.
apply IH. lia.
Qed.

Lemma update_same {A : Type} (i : nat) (d : A) (l : list A) :
  update i (nth i l d) l = l.
Proof.
revert i; induction l as [|x l IH]; intros [|i]; simpl; auto.
now rewrite IH.
Qed.

Lemma norm_index_nonneg (len : nat) (i : nat) :
  (i < len)%nat -> norm_index len (Z.of_nat i) = Ok i.
Proof.
intros H. unfold norm_index.
destruct (Z.leb_spec 0 (Z.of_nat i)); [|lia].
destruct (Z.ltb_spec (Z.of_nat i) (Z.of_nat len)); [|lia].
simpl. now rewrite Nat2Z.id.
Qed.

Lemma norm_index_pred (len : nat) (i : nat) :
  (0 < i <= len)%nat -> norm_index len (Z.of_nat i - 1) = Ok (i - 1)%nat.
Proof.
intros H. replace (Z.of_nat i - 1) with (Z.of_nat (i - 1)) by lia.
apply norm_index_nonneg. lia.
Qed.

Lemma norm_index_last (len : nat) :
  (0 < len)%nat -> norm_index len (-1) = Ok (len - 1)%nat.
Proof.
intros H. unfold norm_index.
destruct (Z.leb_spec 0 (-1)); [lia|]. simpl.
destruct (Z.leb_spec (- Z.of_nat len) (-1)); [|lia]. simpl.
f_equal. lia.
Qed.

Lemma norm_index_range (len : nat) (i : Z) :
  0 <= i < Z.of_nat len -> norm_index len i = Ok (Z.to_nat i).
Proof.
intros H. unfold norm_index.
destruct (Z.leb_spec 0 i); [|lia].
destruct (Z.ltb_spec i (Z.of_nat len)); [|lia]. reflexivity.
Qed.

Lemma norm_index_above (len : nat) (i : Z) :
  Z.of_nat len <= i -> norm_index len i = Raise IndexError.
Proof.
intros H. unfold norm_index.
destruct (Z.leb_spec 0 i); [|lia].
destruct (Z.ltb_spec i (Z.of_nat len)); [lia|]. simpl.
destruct (Z.leb_spec (- Z.of_nat len) i); simpl;
  destruct (Z.ltb_spec i 0); try lia; reflexivity.
Qed.

Lemma for_each_app {A S : Type} (xs ys : list A) (body : A -> S -> result S)
      (s : S) :
  for_each (xs ++ ys) body s = (s' <- for_each xs body s ;; for_each ys body s').
Proof.
revert s; induction xs as [|x xs IH]; intros s; simpl; [reflexivity|].
destruct (body x s); simpl; auto.
Qed.

End ArrayFacts.

Module DictFacts.

Section WithKey.
Context {K V : Type} (eqb : K -> K -> bool).
Hypothesis eqb_spec : forall a b, reflect (a = b) (eqb a b).

Lemma get_set_same (d : list (K * V)) (k : K) (v : V) :
  Dict.get eqb (Dict.set eqb d k v) k = Ok v.
Proof.
induction d as [|[k' v'] d IH]; simpl.
- destruct (eqb_spec k k); [reflexivity | congruence].
- destruct (eqb_spec k k') as [E|E]; simpl.
  + destruct (eqb_spec k k'); [reflexivity | congruence].
  + destruct (eqb_spec k k'); [congruence | assumption].
Qed.

Lemma get_set_other (d : list (K * V)) (k k' : K) (v : V) :
  k <> k' -> Dict.get eqb (Dict.set eqb d k v) k' = Dict.get eqb d k'.
Proof.
intros Hne. induction d as [|[k0 v0] d IH]; simpl.
- destruct (eqb_spec k' k); [congruence | reflexivity].
- destruct (eqb_spec k k0) as [E|E]; simpl.
  + subst k0. destruct (eqb_spec k' k); [congruence | reflexivity].
  + destruct (eqb_spec k' k0); [reflexivity | assumption].
Qed.

Lemma set_get_same (d : list (K * V)) (k : K) (v : V) :
  Dict.get eqb d k = Ok v -> Dict.set eqb d k v = d.
Proof.
induction d as [|[k0 v0] d IH]; simpl; [discriminate|].
destruct (eqb_spec k k0) as [E|E].
- intros H; injection H as <-. reflexivity.
- intros H. now rewrite IH.
Qed.
End WithKey.

Lemma string_eqb_spec (a b : string) : reflect (a = b) (String.eqb a b).
Proof. apply String.eqb_spec. Qed.

Lemma Z_eqb_spec (a b : Z) : reflect (a = b) (Z.eqb a b).
Proof. apply Z.eqb_spec. Qed.

End DictFacts.

(** ** Bases: the prefix sum of the counts *)

Module BasesFacts.
Import Np ArrayFacts ObjectExtraction.

Lemma int32_id (z : Z) : - 2 ^ 31 <= z < 2 ^ 31 -> int32 z = z.
Proof.
intros H. unfold int32. rewrite Z.mod_small; lia.
Qed.

Lemma eps_length (acc : Z) (l : list Z) :
  length (exclusive_prefix_sum acc l) = length l.
Proof. revert acc; induction l; intros; simpl; auto. Qed.

Lemma eps_head (acc : Z) (l : list Z) :
  l <> [] -> nth 0 (exclusive_prefix_sum acc l) 0 = acc.
Proof. destruct l; [congruence | reflexivity]. Qed.

Lemma eps_step (acc : Z) (l : list Z) (i : nat) :
  (S i < length l)%nat ->
  nth (S i) (exclusive_prefix_sum acc l) 0 =
    nth i (exclusive_prefix_sum acc l) 0 + nth i l 0.
Proof.
revert acc i; induction l as [|c l IH]; intros acc i H; simpl in *; [lia|].
destruct i as [|i].
- destruct l; simpl in *; [lia | reflexivity].
- apply IH. lia.
Qed.

Lemma eps_last (acc : Z) (l : list Z) (i : nat) :
  S i = length l ->
  nth i (exclusive_prefix_sum acc l) 0 + nth i l 0 = acc + total l.
Proof.
revert acc i; induction l as [|c l IH]; intros acc i H; simpl in *; [lia|].
destruct i as [|i].
- destruct l; simpl in *; [lia | lia].
- rewrite IH by lia. unfold total. lia.
Qed.

Lemma total_nonneg (l : list Z) : Forall (fun c => 0 <= c) l -> 0 <= total l.
Proof.
induction 1; unfold total in *; simpl; lia.
Qed.

Lemma eps_bounds (acc : Z) (l : list Z) (i : nat) :
  Forall (fun c => 0 <= c) l -> (i < length l)%nat ->
  acc <= nth i (exclusive_prefix_sum acc l) 0 /\
  nth i (exclusive_prefix_sum acc l) 0 + nth i l 0 <= acc + total l.
Proof.
intros Hall. revert acc i.
induction Hall as [|c l Hc Hall IH]; intros acc i H; simpl in *; [lia|].
pose proof (total_nonneg _ Hall) as Ht.
destruct i as [|i]; unfold total in *; simpl.
- lia.
- destruct (IH (acc + c) i) as [H1 H2]; [lia|]. lia.
Qed.

Lemma eps_mono (acc : Z) (l : list Z) (i j : nat) :
  Forall (fun c => 0 <= c) l -> (i <= j < length l)%nat ->
  nth i (exclusive_prefix_sum acc l) 0 <= nth j (exclusive_prefix_sum acc l) 0.
Proof.
intros Hall [Hij Hj]. induction Hij as [|j Hij IH]; [lia|].
rewrite eps_step by lia.
assert (0 <= nth j l 0).
{ rewrite Forall_forall in Hall. apply Hall, nth_In. lia. }
specialize (IH ltac:(lia)). lia.
Qed.

End BasesFacts.

Module PrefixBasesFacts.
Import Np ArrayFacts ObjectExtraction BasesFacts.

Section Loop.
Variable nb_cc : list Z.
Hypothesis counts_nonneg : Forall (fun c => 0 <= c) nb_cc.
Hypothesis total_fits : total nb_cc < 2 ^ 31.

(** After the rounds up to [k], the first [k] bases are those of the
    exclusive prefix sum; the remaining rounds fill in the rest. *)
Lemma bases_loop (cnt k : nat) (m : list Z) :
  (1 <= k)%nat -> (k + cnt = length nb_cc)%nat -> length m = length nb_cc ->
  (forall i, (i < k)%nat ->
             nth i m 0 = nth i (exclusive_prefix_sum 0 nb_cc) 0) ->
  exists m',
    for_each (seq k cnt) (bases_body nb_cc) m = Ok m' /\
    length m' = length nb_cc /\
    forall i, (i < length nb_cc)%nat ->
              nth i m' 0 = nth i (exclusive_prefix_sum 0 nb_cc) 0.
Proof.
revert k m. induction cnt as [|cnt IH]; intros k m Hk Hn Hlen Hpre.
- exists m. simpl. repeat split; auto. intros i Hi. apply Hpre. lia.
- cbn [for_each seq]. unfold bases_body at 1. unfold getitem, setitem.
  rewrite Hlen.
  rewrite (norm_index_pred (length nb_cc) k) by lia. cbn [bind].
  rewrite (norm_index_nonneg (length nb_cc) k) by lia. cbn [bind].
  assert (Ek : nth (k - 1) m 0 + nth (k - 1) nb_cc 0
               = nth k (exclusive_prefix_sum 0 nb_cc) 0).
  { rewrite Hpre by lia.
    replace k with (S (k - 1)) at 3 by lia.
    rewrite eps_step; [reflexivity | lia]. }
  rewrite Ek.
  assert (Hb : 0 <= nth k (exclusive_prefix_sum 0 nb_cc) 0 <= total nb_cc).
  { destruct (eps_bounds 0 nb_cc k counts_nonneg) as [H1 H2]; [lia|].
    assert (0 <= nth k nb_cc 0).
    { rewrite Forall_forall in counts_nonneg.
      apply counts_nonneg, nth_In. lia. }
    lia. }
  rewrite int32_id by lia.
  apply IH.
  + lia.
  + lia.
  + now rewrite update_length.
  + intros i Hi. rewrite nth_update by lia.
    destruct (Nat.eqb_spec i k) as [->|Hne]; [reflexivity|].
    apply Hpre. lia.
Qed.
End Loop.

(** The inner loops of [from_probabilities_to_objects] compute the
    exclusive prefix sum and the total of the counts, as long as the total
    fits the [int32] arrays. *)
Lemma prefix_bases_spec (nb_cc max_nb : list Z) :
  nb_cc <> [] -> length max_nb = length nb_cc ->
  Forall (fun c => 0 <= c) nb_cc -> total nb_cc < 2 ^ 31 ->
  prefix_bases nb_cc max_nb = Ok (exclusive_prefix_sum 0 nb_cc, total nb_cc).
Proof.
intros Hne Hlen Hall Hfit.
assert (Hn : (0 < length nb_cc)%nat) by (destruct nb_cc; simpl; [congruence | lia]).
unfold prefix_bases. unfold setitem at 1.
rewrite (norm_index_range (length max_nb) 0) by lia. simpl.
destruct (bases_loop nb_cc Hall Hfit (length nb_cc - 1) 1 (update 0 0 max_nb))
  as (m' & Hloop & Hlen' & Hnth).
- lia.
- lia.
- now rewrite update_length.
- intros i Hi. assert (i = 0%nat) by lia; subst i.
  rewrite nth_update by lia. simpl.
  symmetry. now apply eps_head.
- unfold BlockProcessing.range.
  change (match max_nb with [] => [] | _ :: rest => 0 :: rest end)
    with (update 0 0 max_nb).
  rewrite Hloop. simpl.
  assert (Em : m' = exclusive_prefix_sum 0 nb_cc).
  { apply (nth_ext _ _ 0 0); [now rewrite eps_length|].
    intros i Hi. apply Hnth. lia. }
  subst m'. unfold getitem. rewrite eps_length.
  rewrite (norm_index_last (length nb_cc)) by lia. simpl.
  rewrite (eps_last 0 nb_cc (length nb_cc - 1)) by lia.
  rewrite int32_id; [reflexivity|].
  pose proof (total_nonneg _ Hall). lia.
Qed.

End PrefixBasesFacts.

(** ** Loops with invariants *)

Module LoopFacts.

(** Every body step succeeds and keeps [P]: so does the loop. *)
Lemma for_each_ok {A S : Type} (P : S -> Prop) (Q : A -> Prop)
      (body : A -> S -> result S) (xs : list A) :
  (forall x s, Q x -> P s -> exists s', body x s = Ok s' /\ P s') ->
  Forall Q xs ->
  forall s, P s -> exists s', for_each xs body s = Ok s' /\ P s'.
Proof.
intros Hbody Hall. induction Hall as [|x xs Hx Hall IH]; intros s Hs; simpl.
- eauto.
- destruct (Hbody x s Hx Hs) as (s1 & E & H1). rewrite E; simpl. now apply IH.
Qed.

(** An invariant over the part of the list already processed. *)
Lemma for_each_inv {A S : Type} (I : list A -> S -> Prop)
      (body : A -> S -> result S) (xs : list A) (s0 : S) :
  I [] s0 ->
  (forall pre x s s', I pre s -> body x s = Ok s' -> I (pre ++ [x]) s') ->
  forall s', for_each xs body s0 = Ok s' -> I xs s'.
Proof.
intros H0 Hstep.
assert (G : forall pre s, I pre s ->
            forall s', for_each xs body s = Ok s' -> I (pre ++ xs) s').
{ induction xs as [|x xs IH]; intros pre s Hs s' E; simpl in E.
  - injection E as <-. now rewrite app_nil_r.
  - destruct (body x s) as [s1|e] eqn:Eb; simpl in E; [|discriminate].
    replace (pre ++ x :: xs) with ((pre ++ [x]) ++ xs)
      by (now rewrite <- app_assoc).
    apply (IH (pre ++ [x]) s1); [|assumption].
    now apply (Hstep pre x s s1). }
intros s' E. apply (G [] s0 H0 s' E).
Qed.

Lemma bind_Ok {A B : Type} (m : result A) (k : A -> result B) (b : B) :
  bind m k = Ok b -> exists a, m = Ok a /\ k a = Ok b.
Proof. destruct m; simpl; [eauto | discriminate]. Qed.

End LoopFacts.

(** ** The chunk translator *)

Module TranslatorFacts.
Import ObjectExtraction DictFacts.

Lemma translator_fold (chunk_list : list Z) (cnt k : nat) (tr : translator) :
  tr_sound chunk_list k tr ->
  tr_sound chunk_list (k + cnt)
    (fold_left (fun tr ii => Dict.set Z.eqb tr (nth ii chunk_list 0) ii)
               (seq k cnt) tr).
Proof.
revert k tr. induction cnt as [|cnt IH]; intros k tr Htr; simpl.
- now rewrite Nat.add_0_r.
- replace (k + S cnt)%nat with (S k + cnt)%nat by lia.
  apply IH. destruct Htr as [H1 H2]. split.
  + intros c i E.
    destruct (Z.eq_dec (nth k chunk_list 0) c) as [Ec|Ec].
    * subst c. rewrite (get_set_same Z.eqb Z_eqb_spec) in E.
      injection E as <-. split; [lia | reflexivity].
    * rewrite (get_set_other Z.eqb Z_eqb_spec) in E by assumption.
      destruct (H1 c i E). split; [lia | assumption].
  + intros j Hj.
    destruct (Z.eq_dec (nth k chunk_list 0) (nth j chunk_list 0)) as [Ec|Ec].
    * rewrite <- Ec. rewrite (get_set_same Z.eqb Z_eqb_spec). eauto.
    * rewrite (get_set_other Z.eqb Z_eqb_spec) by assumption.
      apply H2. assert (j <> k) by congruence. lia.
Qed.

Lemma make_translator_sound (chunk_list : list Z) :
  tr_sound chunk_list (length chunk_list) (make_translator chunk_list).
Proof.
unfold make_translator.
apply (translator_fold chunk_list (length chunk_list) 0 []).
split; [intros c i E; discriminate | intros j Hj; lia].
Qed.

Lemma translator_index (chunk_list : list Z) (c : Z) (i : nat) :
  Dict.get Z.eqb (make_translator chunk_list) c = Ok i ->
  (i < length chunk_list)%nat /\ nth i chunk_list 0 = c.
Proof. apply make_translator_sound. Qed.

Lemma translator_defined (chunk_list : list Z) (c : Z) :
  In c chunk_list ->
  exists i, Dict.get Z.eqb (make_translator chunk_list) c = Ok i.
Proof.
intros Hin. destruct (In_nth _ _ 0 Hin) as (j & Hj & <-).
now apply make_translator_sound.
Qed.

End TranslatorFacts.

(** ** The table of counts *)

Module CountTableFacts.
Import Np ArrayFacts DictFacts LoopFacts ObjectExtraction.

Local Abbreviation sget := (Dict.get String.eqb).
Local Abbreviation sset := (Dict.set String.eqb).

Lemma sget_set_same {V : Type} (d : list (string * V)) (k : string) (v : V) :
  sget (sset d k v) k = Ok v.
Proof. apply get_set_same, string_eqb_spec. Qed.

Lemma sget_set_other {V : Type} (d : list (string * V)) (k k' : string) (v : V) :
  k <> k' -> sget (sset d k v) k' = sget d k'.
Proof. apply get_set_other, string_eqb_spec. Qed.

Lemma init_fold_get (n : nat) (hdf5names : list string)
      (d : list (string * list Z)) (h : string) :
  sget (fold_left (fun d h => sset d h (zeros n)) hdf5names d) h =
    if in_dec string_dec h hdf5names then Ok (zeros n) else sget d h.
Proof.
revert d. induction hdf5names as [|x r IH]; intros d; simpl; [reflexivity|].
rewrite IH. destruct (string_dec x h) as [->|Hne].
- rewrite sget_set_same. destruct (in_dec string_dec h r); reflexivity.
- rewrite sget_set_other by assumption.
  destruct (in_dec string_dec h r); reflexivity.
Qed.

Lemma init_tables_get (hdf5names : list string) (n : nat) (h : string) :
  sget (init_tables hdf5names n) h =
    if in_dec string_dec h hdf5names then Ok (zeros n) else Raise KeyError.
Proof. unfold init_tables. now rewrite init_fold_get. Qed.

Lemma init_tables_wf (hdf5names : list string) (n : nat) :
  wf_table hdf5names n (init_tables hdf5names n).
Proof.
intros h. rewrite init_tables_get.
destruct (in_dec string_dec h hdf5names); split; try tauto.
intros _. exists (zeros n). split; [reflexivity | apply repeat_length].
Qed.

Lemma wf_table_name (hdf5names : list string) (n : nat)
      (d : list (string * list Z)) (h : string) (arr : list Z) :
  wf_table hdf5names n d -> sget d h = Ok arr ->
  In h hdf5names /\ length arr = n.
Proof.
intros Hwf E. destruct (Hwf h) as [H1 H2].
destruct (in_dec string_dec h hdf5names) as [Hin|Hnin].
- split; [assumption|]. destruct (H1 Hin) as (arr' & E' & Hlen). congruence.
- rewrite (H2 Hnin) in E. discriminate.
Qed.

Lemma wf_table_set (hdf5names : list string) (n : nat)
      (d : list (string * list Z)) (h : string) (arr : list Z) :
  wf_table hdf5names n d -> In h hdf5names -> length arr = n ->
  wf_table hdf5names n (sset d h arr).
Proof.
intros Hwf Hin Hlen h'. destruct (string_dec h h') as [<-|Hne].
- rewrite sget_set_same. split; [eauto | tauto].
- rewrite sget_set_other by assumption. apply Hwf.
Qed.

Lemma setitem_nat_inv {A : Type} (l l' : list A) (i : nat) (v : A) :
  setitem l (Z.of_nat i) v = Ok l' ->
  (i < length l)%nat /\ l' = update i v l.
Proof.
unfold setitem. intros E.
destruct (Nat.lt_ge_cases i (length l)) as [Hlt|Hge].
- rewrite norm_index_nonneg in E by assumption. simpl in E.
  injection E as <-. auto.
- rewrite norm_index_above in E by lia. discriminate.
Qed.

Lemma setitem_nat {A : Type} (l : list A) (i : nat) (v : A) :
  (i < length l)%nat -> setitem l (Z.of_nat i) v = Ok (update i v l).
Proof.
intros H. unfold setitem. now rewrite norm_index_nonneg.
Qed.

Lemma store_count_inv (tr : translator) (c : Z) (name : string) (nb : Z)
      (d d' : list (string * list Z)) :
  store_count tr (c, name, nb) d = Ok d' ->
  exists arr idx,
    sget d name = Ok arr /\ Dict.get Z.eqb tr c = Ok idx /\
    (idx < length arr)%nat /\ d' = sset d name (update idx (int32 nb) arr).
Proof.
unfold store_count. intros E.
apply bind_Ok in E. destruct E as (arr & Ea & E).
apply bind_Ok in E. destruct E as (idx & Ei & E).
apply bind_Ok in E. destruct E as (arr' & Es & E).
injection E as <-. apply setitem_nat_inv in Es. destruct Es as [Hlt ->].
exists arr, idx. auto.
Qed.

Lemma store_count_ok (tr : translator) (c : Z) (name : string) (nb : Z)
      (d : list (string * list Z)) (arr : list Z) (idx : nat) :
  sget d name = Ok arr -> Dict.get Z.eqb tr c = Ok idx ->
  (idx < length arr)%nat ->
  store_count tr (c, name, nb) d = Ok (sset d name (update idx (int32 nb) arr)).
Proof.
intros Ea Ei Hlt. unfold store_count. rewrite Ea, Ei. simpl.
rewrite setitem_nat by assumption. reflexivity.
Qed.

Lemma count_table_inv (hdf5names : list string) (n : nat) (tr : translator)
      (cc_info_list : list cc_info) (d : list (string * list Z)) :
  count_table hdf5names n tr cc_info_list = Ok d ->
  counts_inv hdf5names n tr cc_info_list d.
Proof.
unfold count_table.
apply (for_each_inv (counts_inv hdf5names n tr)).
- split; [apply init_tables_wf|].
  intros h arr i E Hnz. rewrite init_tables_get in E.
  destruct (in_dec string_dec h hdf5names); [|discriminate].
  injection E as <-. exfalso. apply Hnz. unfold zeros.
  destruct (Nat.lt_ge_cases i n).
  + apply nth_repeat_lt. assumption.
  + apply nth_overflow. now rewrite repeat_length.
- intros pre [[c name] nb] d0 d1 [Hwf Hcnt] E.
  apply store_count_inv in E.
  destruct E as (arr & idx & Ea & Ei & Hlt & ->).
  destruct (wf_table_name _ _ _ _ _ Hwf Ea) as [Hin Hlen].
  split.
  + apply wf_table_set; auto. now rewrite update_length.
  + intros h arr' i E Hnz.
    destruct (string_dec name h) as [<-|Hne].
    * rewrite sget_set_same in E. injection E as <-.
      rewrite nth_update in Hnz by assumption.
      destruct (Nat.eqb_spec i idx) as [Ei'|Hi].
      -- subst i. exists c, nb. split; [apply in_or_app; right; now left | assumption].
      -- destruct (Hcnt name arr i Ea Hnz) as (c' & v & Hc' & Et).
         exists c', v. split; [apply in_or_app; now left | assumption].
    * rewrite sget_set_other in E by assumption.
      destruct (Hcnt h arr' i E Hnz) as (c' & v & Hc' & Et).
      exists c', v. split; [apply in_or_app; now left | assumption].
Qed.

Lemma count_table_ok (hdf5names : list string) (chunk_list : list Z)
      (cc_info_list : list cc_info) :
  Forall (wf_info hdf5names chunk_list) cc_info_list ->
  exists d,
    count_table hdf5names (length chunk_list) (make_translator chunk_list)
                cc_info_list = Ok d /\
    wf_table hdf5names (length chunk_list) d.
Proof.
intros Hall. unfold count_table.
apply (for_each_ok (wf_table hdf5names (length chunk_list))
                   (wf_info hdf5names chunk_list)); auto.
- intros [[c name] nb] d [Hname Hchunk] Hwf.
  destruct (Hwf name) as [H1 _]. destruct (H1 Hname) as (arr & Ea & Hlen).
  destruct (TranslatorFacts.translator_defined _ _ Hchunk) as (idx & Ei).
  destruct (TranslatorFacts.translator_index _ _ _ Ei) as [Hlt _].
  rewrite (store_count_ok _ _ _ nb _ _ _ Ea Ei) by lia.
  eexists; split; [reflexivity|].
  apply wf_table_set; auto. now rewrite update_length.
- apply init_tables_wf.
Qed.

End CountTableFacts.

(** ** Allocation of the bases *)

Module AllocateFacts.
Import Np ArrayFacts DictFacts LoopFacts ObjectExtraction BasesFacts.
Import PrefixBasesFacts CountTableFacts TranslatorFacts.

Local Abbreviation sget := (Dict.get String.eqb).
Local Abbreviation sset := (Dict.set String.eqb).

Lemma bases_body_ok (nb_cc : list Z) (k : nat) (m : list Z) :
  (1 <= k < length nb_cc)%nat -> length m = length nb_cc ->
  exists m', bases_body nb_cc k m = Ok m' /\ length m' = length nb_cc.
Proof.
intros Hk Hlen. unfold bases_body, getitem, setitem. rewrite Hlen.
rewrite (norm_index_pred (length nb_cc) k) by lia. simpl.
rewrite (norm_index_nonneg (length nb_cc) k) by lia. simpl.
eexists; split; [reflexivity|]. now rewrite update_length.
Qed.

Lemma prefix_bases_total (nb_cc max_nb : list Z) :
  nb_cc <> [] -> length max_nb = length nb_cc ->
  exists m t, prefix_bases nb_cc max_nb = Ok (m, t) /\
              length m = length nb_cc.
Proof.
intros Hne Hlen.
assert (Hn : (0 < length nb_cc)%nat)
  by (destruct nb_cc; simpl; [congruence | lia]).
unfold prefix_bases. unfold setitem at 1.
rewrite (norm_index_range (length max_nb) 0) by lia. simpl.
change (match max_nb with [] => [] | _ :: rest => 0 :: rest end)
  with (update 0 0 max_nb).
destruct (for_each_ok (fun m => length m = length nb_cc)
                      (fun k => (1 <= k < length nb_cc)%nat)
                      (bases_body nb_cc)
                      (BlockProcessing.range 1 (length nb_cc)))
  with (s := update 0 0 max_nb) as (m' & E & Hlen').
- intros k m Hk Hm. now apply bases_body_ok.
- apply Forall_forall. intros k Hk. unfold BlockProcessing.range in Hk.
  apply in_seq in Hk. lia.
- now rewrite update_length.
- rewrite E. simpl. unfold getitem. rewrite Hlen'.
  rewrite (norm_index_last (length nb_cc)) by lia. simpl.
  eexists; eexists; split; [reflexivity | assumption].
Qed.

Lemma prefix_bases_nonempty (nb_cc max_nb : list Z) (r : list Z * Z) :
  length max_nb = length nb_cc -> prefix_bases nb_cc max_nb = Ok r ->
  nb_cc <> [].
Proof.
intros Hlen E ->. destruct max_nb; [|discriminate]. discriminate.
Qed.

Lemma bases_for_name_inv (nb_cc_dict mnd mnd' : list (string * list Z))
      (ml ml' : list (string * Z)) (name : string) :
  bases_for_name nb_cc_dict name (mnd, ml) = Ok (mnd', ml') ->
  exists nb_cc max_nb m t,
    sget nb_cc_dict name = Ok nb_cc /\ sget mnd name = Ok max_nb /\
    prefix_bases nb_cc max_nb = Ok (m, t) /\
    mnd' = sset mnd name m /\ ml' = Dict.set String.eqb ml name t.
Proof.
unfold bases_for_name. intros E.
apply bind_Ok in E. destruct E as (nb_cc & E1 & E).
apply bind_Ok in E. destruct E as (max_nb & E2 & E).
apply bind_Ok in E. destruct E as ([m t] & E3 & E).
injection E as <- <-. exists nb_cc, max_nb, m, t. auto.
Qed.

Lemma bases_loop_inv (hdf5names : list string) (n : nat)
      (nb_cc_dict : list (string * list Z)) (names : list string)
      (st : list (string * list Z) * list (string * Z)) :
  wf_table hdf5names n nb_cc_dict ->
  for_each names (bases_for_name nb_cc_dict) (init_tables hdf5names n, [])
    = Ok st ->
  bases_inv hdf5names n nb_cc_dict names st.
Proof.
intros Hwf.
apply (for_each_inv (bases_inv hdf5names n nb_cc_dict)).
- split; [apply init_tables_wf | intros h counts []].
- intros pre x [mnd ml] [mnd' ml'] [Hwf' Hpre] E.
  apply bases_for_name_inv in E.
  destruct E as (nb_cc & max_nb & m & t & E1 & E2 & E3 & -> & ->).
  simpl in *.
  destruct (wf_table_name _ _ _ _ _ Hwf E1) as [Hin Hlen1].
  destruct (wf_table_name _ _ _ _ _ Hwf' E2) as [_ Hlen2].
  assert (Hne : nb_cc <> [])
    by (apply (prefix_bases_nonempty nb_cc max_nb (m, t)); congruence).
  destruct (prefix_bases_total nb_cc max_nb Hne) as (m0 & t0 & E0 & Hlen0);
    [congruence|].
  assert (m0 = m /\ t0 = t) as [-> ->] by (split; congruence).
  split.
  + apply wf_table_set; auto. congruence.
  + intros h counts Hh Ec Hfit. cbn [fst snd].
    destruct (string_dec x h) as [<-|Hne'].
    * rewrite !sget_set_same.
      assert (counts = nb_cc) by congruence; subst counts.
      destruct Hfit as [Hnn Htot].
      rewrite (prefix_bases_spec nb_cc max_nb) in E3; auto; [|congruence].
      injection E3 as <- <-. auto.
    * rewrite !sget_set_other by assumption.
      apply Hpre; auto.
      apply in_app_or in Hh. destruct Hh as [Hh|[Hh|[]]]; [assumption | congruence].
Qed.

Lemma allocate_inv (hdf5names : list string) (chunk_list : list Z)
      (tr : translator) (cc_info_list : list cc_info) (a : allocation) :
  allocate hdf5names chunk_list tr cc_info_list = Ok a ->
  count_table hdf5names (length chunk_list) tr cc_info_list
    = Ok (nb_cc_dict a) /\
  bases_inv hdf5names (length chunk_list) (nb_cc_dict a) hdf5names
            (max_nb_dict a, max_labels a).
Proof.
unfold allocate. intros E.
apply bind_Ok in E. destruct E as (d & Ed & E).
apply bind_Ok in E. destruct E as ([mnd ml] & Eb & E).
injection E as <-. simpl. split; [assumption|].
apply bases_loop_inv; [|assumption].
apply (count_table_inv _ _ _ _ _ Ed).
Qed.

Lemma allocate_ok (hdf5names : list string) (chunk_list : list Z)
      (cc_info_list : list cc_info) :
  chunk_list <> [] ->
  Forall (wf_info hdf5names chunk_list) cc_info_list ->
  exists a,
    allocate hdf5names chunk_list (make_translator chunk_list) cc_info_list
      = Ok a.
Proof.
intros Hne Hall. unfold allocate.
destruct (count_table_ok hdf5names chunk_list cc_info_list Hall)
  as (d & Ed & Hwf).
rewrite Ed. simpl.
destruct (for_each_ok
            (fun st => wf_table hdf5names (length chunk_list) (fst st))
            (fun h => In h hdf5names)
            (bases_for_name d) hdf5names)
  with (s := (init_tables hdf5names (length chunk_list),
              @nil (string * Z))) as ([mnd ml] & E & _).
- intros h [mnd ml] Hh Hwf'. simpl in Hwf'.
  destruct (Hwf h) as [H1 _]. destruct (H1 Hh) as (nb_cc & E1 & Hl1).
  destruct (Hwf' h) as [H2 _]. destruct (H2 Hh) as (max_nb & E2 & Hl2).
  assert (Hne' : nb_cc <> []).
  { intros ->. simpl in Hl1. destruct chunk_list; [congruence | discriminate]. }
  destruct (prefix_bases_total nb_cc max_nb Hne') as (m & t & E3 & Hl3);
    [congruence|].
  unfold bases_for_name. rewrite E1, E2. simpl. rewrite E3. simpl.
  eexists; split; [reflexivity|]. simpl.
  apply wf_table_set; auto. congruence.
- apply Forall_forall. auto.
- simpl. apply init_tables_wf.
- rewrite E. simpl. eauto.
Qed.

(** A record with count 0 for a chunk that has no record changes nothing. *)
Lemma count_table_absent (hdf5names : list string) (chunk_list : list Z)
      (cc_info_list : list cc_info) (c : Z) (h : string)
      (d : list (string * list Z)) :
  count_table hdf5names (length chunk_list) (make_translator chunk_list)
              cc_info_list = Ok d ->
  In c chunk_list -> In h hdf5names ->
  (forall v, ~ In (c, h, v) cc_info_list) ->
  (exists counts idx,
      sget d h = Ok counts /\
      Dict.get Z.eqb (make_translator chunk_list) c = Ok idx /\
      nth idx counts 0 = 0) /\
  count_table hdf5names (length chunk_list) (make_translator chunk_list)
              (cc_info_list ++ [(c, h, 0)]) = Ok d.
Proof.
intros Ed Hc Hh Habs.
destruct (count_table_inv _ _ _ _ _ Ed) as [Hwf Hcnt].
destruct (Hwf h) as [H1 _]. destruct (H1 Hh) as (counts & Ec & Hlen).
destruct (translator_defined _ _ Hc) as (idx & Ei).
destruct (translator_index _ _ _ Ei) as [Hlt Hnth].
assert (Hz : nth idx counts 0 = 0).
{ destruct (Z.eq_dec (nth idx counts 0) 0) as [|Hnz]; [assumption|].
  exfalso. destruct (Hcnt h counts idx Ec Hnz) as (c' & v & Hin & Ei').
  destruct (translator_index _ _ _ Ei') as [_ Hnth'].
  apply (Habs v). rewrite <- Hnth, Hnth'. exact Hin. }
split; [exists counts, idx; auto|].
unfold count_table in *. rewrite for_each_app, Ed. cbn [bind for_each].
rewrite (store_count_ok _ _ _ 0 _ _ _ Ec Ei) by lia.
change (int32 0) with 0. rewrite <- Hz at 1. rewrite update_same.
cbn [bind]. now rewrite (set_get_same String.eqb string_eqb_spec _ _ _ Ec).
Qed.

End AllocateFacts.

(** ** The merge graph *)

Module GraphFacts.
Import ObjectExtraction.

Lemma mem_In (v : Z) (l : list Z) : mem v l = true <-> In v l.
Proof.
unfold mem. rewrite existsb_exists. split.
- intros (x & Hx & E). apply Z.eqb_eq in E. now subst.
- intros H. exists v. split; [assumption | apply Z.eqb_refl].
Qed.

Lemma mem_false (v : Z) (l : list Z) : mem v l = false <-> ~ In v l.
Proof.
rewrite <- mem_In. destruct (mem v l); split; congruence.
Qed.

Lemma nodes_app (G G' : graph) : nodes (G ++ G') = nodes G ++ nodes G'.
Proof. apply map_app. Qed.

Lemma nodes_add_node (G : graph) (v x : Z) :
  In x (nodes (add_node G v)) <-> x = v \/ In x (nodes G).
Proof.
unfold add_node. destruct (mem v (nodes G)) eqn:E.
- apply mem_In in E. split; [auto | intros [->|H]; assumption].
- rewrite nodes_app, in_app_iff. simpl. intuition.
Qed.

Lemma adj_app_leaf (G : graph) (v x : Z) :
  adj (G ++ [(v, [])]) x = adj G x.
Proof.
induction G as [|[k ns] G IH]; simpl.
- destruct (x =? v); reflexivity.
- destruct (x =? k); [reflexivity | assumption].
Qed.

Lemma adj_add_node (G : graph) (v x : Z) : adj (add_node G v) x = adj G x.
Proof.
unfold add_node. destruct (mem v (nodes G)); [reflexivity | apply adj_app_leaf].
Qed.

Lemma nodes_add_nbr (G : graph) (u v : Z) : nodes (add_nbr G u v) = nodes G.
Proof.
unfold add_nbr, nodes. rewrite map_map. apply map_ext.
intros [k ns]; simpl. destruct (k =? u); reflexivity.
Qed.

Lemma adj_add_nbr (G : graph) (u v x w : Z) :
  In w (adj (add_nbr G u v) x) <->
  In w (adj G x) \/ (x = u /\ w = v /\ In u (nodes G)).
Proof.
induction G as [|[k ns] G IH]; simpl.
- intuition.
- destruct (Z.eqb_spec k u) as [->|Hk]; simpl.
  + destruct (Z.eqb_spec x u) as [->|Hx].
    * destruct (mem v ns) eqn:E.
      -- apply mem_In in E. split; [auto | intros [H|(_ & -> & _)]; assumption].
      -- rewrite in_app_iff. simpl. intuition.
    * rewrite IH. intuition.
  + destruct (Z.eqb_spec x k) as [->|Hx].
    * split; [auto | intros [H|(E & _)]; [assumption | congruence]].
    * rewrite IH. intuition.
Qed.

Lemma nodes_add_edge (G : graph) (u v x : Z) :
  In x (nodes (add_edge G (u, v))) <-> x = u \/ x = v \/ In x (nodes G).
Proof.
unfold add_edge. rewrite !nodes_add_nbr, !nodes_add_node. intuition.
Qed.

Lemma adj_add_edge (G : graph) (u v x w : Z) :
  In w (adj (add_edge G (u, v)) x) <->
  In w (adj G x) \/ (x = u /\ w = v) \/ (x = v /\ w = u).
Proof.
unfold add_edge. rewrite !adj_add_nbr, !nodes_add_nbr, !adj_add_node.
rewrite !nodes_add_node. intuition.
Qed.

Lemma edge_rel_snoc (es : list (Z * Z)) (u v x y : Z) :
  edge_rel (es ++ [(u, v)]) x y <->
  edge_rel es x y \/ (x = u /\ y = v) \/ (x = v /\ y = u).
Proof.
unfold edge_rel. rewrite !in_app_iff. simpl.
split.
- intros [[H|[H|[]]]|[H|[H|[]]]]; auto;
    injection H as -> ->; auto.
- intros [[H|H]|[[-> ->]|[-> ->]]]; auto.
Qed.

Lemma mentioned_snoc (es : list (Z * Z)) (u v x : Z) :
  mentioned (es ++ [(u, v)]) x <-> x = u \/ x = v \/ mentioned es x.
Proof.
unfold mentioned. split.
- intros (y & H). apply edge_rel_snoc in H.
  destruct H as [H|[[-> _]|[-> _]]]; eauto.
- intros [->|[->|(y & H)]].
  + exists v. apply edge_rel_snoc. auto.
  + exists u. apply edge_rel_snoc. auto.
  + exists y. apply edge_rel_snoc. auto.
Qed.

Lemma graph_of_fold (es es0 : list (Z * Z)) (G : graph) :
  graph_of es0 G -> graph_of (es0 ++ es) (fold_left add_edge es G).
Proof.
revert es0 G. induction es as [|[u v] es IH]; intros es0 G HG; cbn [fold_left].
- now rewrite app_nil_r.
- replace (es0 ++ (u, v) :: es) with ((es0 ++ [(u, v)]) ++ es)
    by (now rewrite <- app_assoc).
  apply IH. destruct HG as [Hn Ha]. split.
  + intros x. rewrite nodes_add_edge, mentioned_snoc, Hn. tauto.
  + intros x w. rewrite adj_add_edge, edge_rel_snoc, Ha. tauto.
Qed.

Lemma from_edgelist_graph (es : list (Z * Z)) : graph_of es (from_edgelist es).
Proof.
apply (graph_of_fold es [] []). split.
- intros v. simpl. split; [tauto | intros (y & [[]|[]])].
- intros v w. simpl. split; [tauto | intros [[]|[]]].
Qed.

Lemma edge_rel_sym (es : list (Z * Z)) (x y : Z) :
  edge_rel es x y -> edge_rel es y x.
Proof. unfold edge_rel. tauto. Qed.

Lemma connected_sym (es : list (Z * Z)) (x y : Z) :
  connected es x y -> connected es y x.
Proof.
unfold connected. induction 1 as [x y H| |x y z _ IH1 _ IH2].
- apply rt_step. now apply edge_rel_sym.
- apply rt_refl.
- now apply rt_trans with y.
Qed.

Lemma connected_mentioned (es : list (Z * Z)) (x y : Z) :
  connected es x y -> x = y \/ (mentioned es x /\ mentioned es y).
Proof.
unfold connected. induction 1 as [x y H| |x y z _ IH1 _ IH2].
- right. split; [now exists y | exists x; now apply edge_rel_sym].
- now left.
- destruct IH1 as [->|[Hx Hy]]; [assumption|].
  destruct IH2 as [<-|[_ Hz]]; right; auto.
Qed.

Lemma reach_connected (es : list (Z * Z)) (G : graph) (x y : Z) :
  graph_of es G -> (reach G x y <-> connected es x y).
Proof.
intros [_ Ha]. unfold reach, connected, step. split.
- induction 1 as [x y H| |x y z _ IH1 _ IH2].
  + apply rt_step. now apply Ha.
  + apply rt_refl.
  + now apply rt_trans with y.
- induction 1 as [x y H| |x y z _ IH1 _ IH2].
  + apply rt_step. now apply Ha.
  + apply rt_refl.
  + now apply rt_trans with y.
Qed.

Lemma graph_adj_nodes (es : list (Z * Z)) (G : graph) (v w : Z) :
  graph_of es G -> In w (adj G v) -> In w (nodes G).
Proof.
intros [Hn Ha] H. apply Hn. exists v. apply edge_rel_sym. now apply Ha.
Qed.

Lemma connected_Permutation (es es' : list (Z * Z)) (x y : Z) :
  Permutation es es' -> connected es x y -> connected es' x y.
Proof.
intros HP. unfold connected.
induction 1 as [x y H| |x y z _ IH1 _ IH2].
- apply rt_step. destruct H as [H|H]; [left | right];
    now apply (Permutation_in _ HP).
- apply rt_refl.
- now apply rt_trans with y.
Qed.

End GraphFacts.

(** ** Breadth-first search and connected components *)

Module BfsFacts.
Import ObjectExtraction GraphFacts.

Section Search.
Variable set_iter : list Z -> list Z.
Hypothesis set_iter_spec : set_iter_ok set_iter.
Variable G : graph.
Hypothesis adj_nodes : forall v w, In w (adj G v) -> In w (nodes G).
Hypothesis adj_sym : forall v w, In w (adj G v) -> In v (adj G w).

Lemma reach_sym (x y : Z) : reach G x y -> reach G y x.
Proof.
unfold reach. induction 1 as [x y H| |x y z _ IH1 _ IH2].
- apply rt_step. now apply adj_sym.
- apply rt_refl.
- now apply rt_trans with y.
Qed.

Lemma closed_reach (S : list Z) (s x : Z) :
  (forall v w, In v S -> In w (adj G v) -> In w S) ->
  In s S -> reach G s x -> In x S.
Proof.
intros Hclosed Hs Hr. apply clos_rt_rtn1 in Hr.
induction Hr as [|y z Hstep _ IH]; [assumption|].
now apply (Hclosed y z).
Qed.

Lemma visit_level_spec (level seen next seen' next' : list Z) :
  visit_level G level seen next = (seen', next') ->
  NoDup seen ->
  NoDup seen' /\
  (forall x, In x seen' <-> In x seen \/ In x level) /\
  (forall w, In w next' <->
             In w next \/
             exists v, In v seen' /\ ~ In v seen /\ In w (adj G v)) /\
  ((seen' = seen /\ next' = next) \/ (length seen < length seen')%nat).
Proof.
revert seen next. induction level as [|v rest IH]; intros seen next E Hnd.
- simpl in E. injection E as <- <-.
  split; [assumption|]. split; [intros x; simpl; tauto|].
  split; [|now left].
  intros w. split; [auto | intros [H|(v & H1 & H2 & _)]; tauto].
- simpl in E. destruct (mem v seen) eqn:Ev.
  + apply mem_In in Ev.
    destruct (IH seen next E Hnd) as (H1 & H2 & H3 & H4).
    split; [assumption|]. split; [|split; assumption].
    intros x. rewrite H2. simpl. split; [tauto|].
    intros [H|[<-|H]]; auto.
  + apply mem_false in Ev.
    assert (Hnd' : NoDup (seen ++ [v])).
    { apply NoDup_app; [assumption | repeat constructor; tauto |].
      intros x Hx [<-|[]]. contradiction. }
    destruct (IH (seen ++ [v]) (next ++ adj G v) E Hnd') as (H1 & H2 & H3 & H4).
    split; [assumption|].
    split.
    { intros x. rewrite H2, in_app_iff. simpl. tauto. }
    split.
    { intros w. rewrite H3, in_app_iff. split.
      - intros [[H|H]|(u & Hu1 & Hu2 & Hu3)].
        + now left.
        + right. exists v. split; [|split; assumption].
          apply H2. left. apply in_or_app. right. now left.
        + right. exists u. split; [assumption|]. split; [|assumption].
          intros Hin. apply Hu2. apply in_or_app. now left.
      - intros [H|(u & Hu1 & Hu2 & Hu3)]; [now left; left|].
        destruct (Z.eq_dec u v) as [->|Hne]; [now left; right|].
        right. exists u. split; [assumption|]. split; [|assumption].
        rewrite in_app_iff. simpl. intros [H|[H|[]]]; [contradiction | congruence]. }
    right. destruct H4 as [[-> _]|H4].
    * rewrite length_app. simpl. lia.
    * rewrite length_app in H4. simpl in H4. lia.
Qed.

Lemma bfs_done (s : Z) (seen : list Z) :
  bfs_inv G s seen [] ->
  NoDup seen /\ forall x, In x seen <-> reach G s x.
Proof.
intros (Hnd & _ & _ & Hcl & Hr & Hs). split; [assumption|].
intros x. split; [intros H; apply Hr; now left|].
apply closed_reach.
- intros v w Hv Hw. destruct (Hcl v w Hv Hw) as [H|[]]. assumption.
- destruct Hs as [H|[]]. assumption.
Qed.

Lemma bfs_step (s : Z) (seen next seen' next' : list Z) :
  bfs_inv G s seen next ->
  visit_level G (set_iter next) seen [] = (seen', next') ->
  bfs_inv G s seen' next' /\
  ((seen' = seen /\ next' = []) \/ (length seen < length seen')%nat).
Proof.
intros (Hnd & Hseen & Hnext & Hcl & Hr & Hs) E.
destruct (visit_level_spec _ _ _ _ _ E Hnd) as (H1 & H2 & H3 & H4).
assert (Hlevel : forall x, In x (set_iter next) <-> In x next)
  by apply set_iter_spec.
split; [|assumption].
split; [assumption|].
split.
{ intros x Hx. apply H2 in Hx. destruct Hx as [Hx|Hx]; [now apply Hseen|].
  apply Hnext. now apply Hlevel. }
split.
{ intros w Hw. apply H3 in Hw. destruct Hw as [[]|(v & _ & _ & Hv)].
  now apply (adj_nodes v). }
split.
{ intros v w Hv Hw.
  destruct (in_dec Z.eq_dec v seen) as [Hin|Hnin].
  - left. apply H2. destruct (Hcl v w Hin Hw) as [H|H]; [now left|].
    right. now apply Hlevel.
  - right. apply H3. right. exists v. auto. }
split.
{ intros x [Hx|Hx].
  - apply Hr. apply H2 in Hx. destruct Hx as [Hx|Hx]; [now left|].
    right. now apply Hlevel.
  - apply H3 in Hx. destruct Hx as [[]|(v & Hv1 & Hv2 & Hv3)].
    apply rt_trans with v; [|now apply rt_step].
    apply Hr. apply H2 in Hv1. destruct Hv1 as [Hv1|Hv1]; [now left|].
    right. now apply Hlevel. }
left. apply H2. destruct Hs as [Hs|Hs]; [now left|].
right. now apply Hlevel.
Qed.

Lemma plain_bfs_nil (fuel : nat) (seen : list Z) :
  plain_bfs set_iter fuel G seen [] = seen.
Proof. destruct fuel; reflexivity. Qed.

(** With one round of fuel per node and two more, [_plain_bfs] returns
    exactly the nodes reachable from the source, each once. *)
Lemma plain_bfs_spec (fuel : nat) (s : Z) (seen next : list Z) :
  bfs_inv G s seen next ->
  (length (nodes G) + 2 <= fuel + length seen)%nat ->
  NoDup (plain_bfs set_iter fuel G seen next) /\
  forall x, In x (plain_bfs set_iter fuel G seen next) <-> reach G s x.
Proof.
revert seen next. induction fuel as [|fuel IH]; intros seen next Hinv Hfuel.
- exfalso. destruct Hinv as (Hnd & Hseen & _).
  pose proof (NoDup_incl_length Hnd Hseen). lia.
- destruct next as [|z next0].
  + simpl. now apply bfs_done.
  + cbn [plain_bfs].
    destruct (visit_level G (set_iter (z :: next0)) seen []) as [seen' next'] eqn:E.
    destruct (bfs_step _ _ _ _ _ Hinv E) as [Hinv' [[-> ->]|Hlen]].
    * rewrite plain_bfs_nil. now apply bfs_done.
    * apply IH; [assumption | lia].
Qed.

Lemma component_of (v : Z) :
  In v (nodes G) ->
  NoDup (plain_bfs set_iter (length G + 2) G [] [v]) /\
  forall x, In x (plain_bfs set_iter (length G + 2) G [] [v]) <-> reach G v x.
Proof.
intros Hv. apply plain_bfs_spec.
- split; [constructor|]. split; [intros x []|].
  split; [intros x [<-|[]]; assumption|].
  split; [intros x w []|].
  split; [intros x [[]|[<-|[]]]; apply rt_refl|].
  right. now left.
- unfold nodes. rewrite length_map. simpl. lia.
Qed.

Lemma reach_nodes (v x : Z) : In v (nodes G) -> reach G v x -> In x (nodes G).
Proof.
intros Hv Hr. apply clos_rt_rtn1 in Hr.
induction Hr as [|y z Hstep _ IH]; [assumption|].
now apply (adj_nodes y).
Qed.

Lemma components_from_spec (vs seen : list Z) :
  incl vs (nodes G) ->
  (forall x y, In x seen -> reach G x y -> In y seen) ->
  Forall (is_class G) (components_from set_iter G vs seen) /\
  Forall (fun c => NoDup c /\ disjoint c seen)
         (components_from set_iter G vs seen) /\
  ForallOrdPairs disjoint (components_from set_iter G vs seen) /\
  (forall v, In v vs ->
             In v seen \/
             exists c, In c (components_from set_iter G vs seen) /\ In v c).
Proof.
revert seen. induction vs as [|v rest IH]; intros seen Hvs Hclosed.
- simpl. split; [constructor|]. split; [constructor|].
  split; [constructor | intros x []].
- assert (Hrest : incl rest (nodes G)) by (intros x Hx; apply Hvs; now right).
  cbn [components_from]. destruct (mem v seen) eqn:Ev.
  + apply mem_In in Ev.
    destruct (IH seen Hrest Hclosed) as (H1 & H2 & H3 & H4).
    repeat split; auto.
    intros x [<-|Hx]; [now left | now apply H4].
  + apply mem_false in Ev.
    assert (Hv : In v (nodes G)) by (apply Hvs; now left).
    destruct (component_of v Hv) as [Hnd Hc].
    set (c := plain_bfs set_iter (length G + 2) G [] [v]) in *.
    assert (Hclosed' : forall x y, In x (seen ++ c) -> reach G x y ->
                                   In y (seen ++ c)).
    { intros x y Hx Hxy. apply in_app_or in Hx. apply in_or_app.
      destruct Hx as [Hx|Hx]; [left; now apply (Hclosed x)|].
      right. apply Hc. apply rt_trans with x; [now apply Hc | assumption]. }
    destruct (IH (seen ++ c) Hrest Hclosed') as (H1 & H2 & H3 & H4).
    split; [constructor; [exists v; auto | assumption]|].
    split.
    { constructor.
      - split; [assumption|]. intros x Hx Hin. apply Ev.
        apply (Hclosed x v Hin). apply reach_sym. now apply Hc.
      - rewrite Forall_forall in *. intros c' Hc'.
        destruct (H2 c' Hc') as [Hnd' Hdis]. split; [assumption|].
        intros x Hx Hin. apply (Hdis x Hx). apply in_or_app. now left. }
    split.
    { constructor; [|assumption].
      rewrite Forall_forall in *. intros c' Hc' x Hx Hin.
      destruct (H2 c' Hc') as [_ Hdis].
      apply (Hdis x Hin). apply in_or_app. now right. }
    intros x [<-|Hx].
    * right. exists c. split; [now left|]. apply Hc. apply rt_refl.
    * destruct (H4 x Hx) as [Hin|(c' & Hc' & Hin)].
      -- apply in_app_or in Hin. destruct Hin as [Hin|Hin]; [now left|].
         right. exists c. split; [now left | assumption].
      -- right. exists c'. split; [now right | assumption].
Qed.

(** [nx.connected_components]: every node lies in exactly one component,
    and a component is the set of the nodes reachable from any of its
    members. *)
Lemma connected_components_spec :
  Forall (is_class G) (connected_components set_iter G) /\
  Forall (fun c => NoDup c) (connected_components set_iter G) /\
  ForallOrdPairs disjoint (connected_components set_iter G) /\
  (forall v, In v (nodes G) ->
             exists c, In c (connected_components set_iter G) /\ In v c).
Proof.
unfold connected_components.
destruct (components_from_spec (set_iter (nodes G)) []) as (H1 & H2 & H3 & H4).
- intros x Hx. now apply set_iter_spec.
- intros x y [].
- split; [assumption|]. split; [|split; [assumption|]].
  + rewrite Forall_forall in *. intros c Hc. now destruct (H2 c Hc).
  + intros v Hv. destruct (H4 v) as [[]|H]; [|assumption].
    now apply set_iter_spec.
Qed.

Lemma class_members (c : list Z) (x y : Z) :
  is_class G c -> In x c -> (In y c <-> reach G x y).
Proof.
intros (s & Hs & Hc) Hx. rewrite Hc. apply Hc in Hx. split; intros H.
- apply rt_trans with s; [now apply reach_sym | assumption].
- now apply rt_trans with x.
Qed.

Lemma class_nodes (c : list Z) (x : Z) :
  is_class G c -> In x c -> In x (nodes G).
Proof.
intros (s & Hs & Hc) Hx. apply (reach_nodes s); [assumption | now apply Hc].
Qed.

Lemma disjoint_same (cs : list (list Z)) (c c' : list Z) (x : Z) :
  ForallOrdPairs disjoint cs -> In c cs -> In c' cs ->
  In x c -> In x c' -> c = c'.
Proof.
induction 1 as [|a l Hall _ IH]; intros Hc Hc' Hx Hx'; [destruct Hc|].
rewrite Forall_forall in Hall.
destruct Hc as [<-|Hc], Hc' as [<-|Hc'].
- reflexivity.
- exfalso. now apply (Hall c' Hc' x).
- exfalso. now apply (Hall c Hc x).
- now apply IH.
Qed.

End Search.

End BfsFacts.

(** ** The merge list *)

Module MergeFacts.
Import Np ArrayFacts ObjectExtraction GraphFacts BfsFacts.

Lemma insert_slot_perm (i x : Z) (tbl : list (Z * Z)) :
  Permutation (x :: map snd tbl) (map snd (insert_slot i x tbl)).
Proof.
induction tbl as [|[j y] tbl IH]; simpl; [apply Permutation_refl|].
destruct (i <? j); [apply Permutation_refl|]. simpl.
eapply Permutation_trans; [apply perm_swap|]. now apply perm_skip.
Qed.

Lemma place_perm (mask x : Z) (tbl : list (Z * Z)) :
  Permutation (x :: map snd tbl) (map snd (place mask tbl x)).
Proof. apply insert_slot_perm. Qed.

Lemma fold_place_perm (mask : Z) (l : list Z) (tbl : list (Z * Z)) :
  Permutation (l ++ map snd tbl) (map snd (fold_left (place mask) l tbl)).
Proof.
revert tbl. induction l as [|x l IH]; intros tbl; simpl;
  [apply Permutation_refl|].
eapply Permutation_trans; [|apply IH].
eapply Permutation_trans; [apply Permutation_middle|].
apply Permutation_app_head. apply place_perm.
Qed.

Lemma set_add_perm (st : Z * list (Z * Z)) (x : Z) :
  Permutation (x :: map snd (snd st)) (map snd (snd (set_add st x))).
Proof.
destruct st as [mask tbl]. unfold set_add.
destruct (_ <? _); simpl; [apply place_perm|].
eapply Permutation_trans; [apply place_perm|].
eapply Permutation_trans; [|apply fold_place_perm].
simpl. now rewrite app_nil_r.
Qed.

Lemma fold_insert_perm (l : list Z) (st : Z * list (Z * Z)) :
  Permutation (l ++ map snd (snd st))
              (map snd (snd (fold_left set_add l st))).
Proof.
revert st. induction l as [|x l IH]; intros st; simpl;
  [apply Permutation_refl|].
eapply Permutation_trans; [|apply IH].
eapply Permutation_trans; [apply Permutation_middle|].
apply Permutation_app_head. apply set_add_perm.
Qed.

Lemma insertion_order_ok : set_iter_ok insertion_order.
Proof.
intros l. unfold insertion_order. split.
- apply NoDup_rev, NoDup_nodup.
- intros x. rewrite <- in_rev, nodup_In, <- in_rev. tauto.
Qed.

Lemma hash_order_ok : set_iter_ok hash_order.
Proof.
intros l. unfold hash_order.
pose proof (fold_insert_perm (insertion_order l) (7, [])) as HP.
simpl in HP. rewrite app_nil_r in HP.
destruct (insertion_order_ok l) as [Hnd Hin]. split.
- apply (Permutation_NoDup HP Hnd).
- intros x. rewrite <- Hin. split; intros H.
  + apply (Permutation_in _ (Permutation_sym HP) H).
  + apply (Permutation_in _ HP H).
Qed.

(** Keys that share a slot of the table of 8: the second goes to the slot
    the probe sequence finds, which can lie before the first; with the
    fifth key the table is resized to 32 slots. *)
Example hash_order_examples :
  hash_order [7; 15] = [15; 7] /\
  hash_order [1; 8] = [8; 1] /\
  hash_order [8; 16; 24] = [8; 16; 24] /\
  hash_order [16; 24; 8] = [16; 24; 8] /\
  hash_order [8; 16; 24; 32; 40] = [32; 8; 40; 16; 24].
Proof. repeat split. Qed.

Lemma arange_length (n : Z) : length (arange n) = Z.to_nat n.
Proof. unfold arange. now rewrite length_map, length_seq. Qed.

Lemma remap_arange (n x : Z) : 0 <= x < n -> remap (arange n) x = x.
Proof.
intros H. unfold remap, arange.
change 0 with (Z.of_nat 0) at 1. rewrite map_nth.
rewrite seq_nth by lia. simpl. lia.
Qed.

Lemma remap_update (ml : list Z) (id rep x : Z) :
  0 <= id < Z.of_nat (length ml) -> 0 <= x ->
  remap (update (Z.to_nat id) rep ml) x =
    if x =? id then rep else remap ml x.
Proof.
intros Hid Hx. unfold remap. rewrite nth_update by lia.
destruct (Nat.eqb_spec (Z.to_nat x) (Z.to_nat id)) as [E|E];
  destruct (Z.eqb_spec x id); try reflexivity; lia.
Qed.

Lemma set_rep_loop (rep : Z) (l : list Z) (md : list (Z * Z)) (ml : list Z) :
  (forall id, In id l -> 0 <= id < Z.of_nat (length ml)) ->
  exists md' ml',
    for_each l (set_rep rep) (md, ml) = Ok (md', ml') /\
    length ml' = length ml /\
    forall x, 0 <= x ->
              remap ml' x = if mem x l then rep else remap ml x.
Proof.
revert md ml. induction l as [|id l IH]; intros md ml Hl.
- exists md, ml. simpl. auto.
- assert (Hid : 0 <= id < Z.of_nat (length ml)) by (apply Hl; now left).
  cbn [for_each]. unfold set_rep at 1. unfold setitem.
  rewrite norm_index_range by assumption. cbn [bind].
  destruct (IH (Dict.set Z.eqb md id rep) (update (Z.to_nat id) rep ml))
    as (md' & ml' & E & Hlen & Hmap).
  { intros id' Hin. rewrite update_length. apply Hl. now right. }
  exists md', ml'. split; [assumption|].
  split; [now rewrite Hlen, update_length|].
  intros x Hx. rewrite (Hmap x Hx), remap_update by assumption.
  unfold mem. simpl. fold (mem x l).
  destruct (x =? id); simpl; [|reflexivity].
  destruct (mem x l); reflexivity.
Qed.

Section Merge.
Variable set_iter : list Z -> list Z.
Hypothesis set_iter_spec : set_iter_ok set_iter.

Lemma merge_component_spec (c : list Z) (md : list (Z * Z)) (ml : list Z) :
  (forall id, In id c -> 0 <= id < Z.of_nat (length ml)) ->
  exists md' ml',
    merge_component set_iter c (md, ml) = Ok (md', ml') /\
    length ml' = length ml /\
    forall x, 0 <= x ->
              (In x c -> remap ml' x = hd 0 (set_iter c)) /\
              (~ In x c -> remap ml' x = remap ml x).
Proof.
intros Hc. unfold merge_component.
destruct (set_rep_loop (hd 0 (set_iter c)) (set_iter c) md ml)
  as (md' & ml' & E & Hlen & Hmap).
{ intros id Hid. apply Hc. now apply set_iter_spec. }
exists md', ml'. split; [assumption|]. split; [assumption|].
intros x Hx. rewrite (Hmap x Hx). split; intros H.
- assert (Hm : mem x (set_iter c) = true)
    by (apply mem_In; now apply set_iter_spec).
  now rewrite Hm.
- assert (Hm : mem x (set_iter c) = false).
  { apply mem_false. intros Hin. apply H. now apply set_iter_spec. }
  now rewrite Hm.
Qed.

(** After the loop over the components, an id holds the first id of a
    component that contains it, or is untouched when there is none. *)
Lemma merge_components_spec (cs : list (list Z)) (md : list (Z * Z))
      (ml : list Z) :
  (forall c id, In c cs -> In id c -> 0 <= id < Z.of_nat (length ml)) ->
  exists md' ml',
    for_each cs (merge_component set_iter) (md, ml) = Ok (md', ml') /\
    length ml' = length ml /\
    forall x, 0 <= x ->
              (exists c, In c cs /\ In x c /\
                         remap ml' x = hd 0 (set_iter c)) \/
              ((forall c, In c cs -> ~ In x c) /\ remap ml' x = remap ml x).
Proof.
revert md ml. induction cs as [|c cs IH]; intros md ml Hcs.
- exists md, ml. simpl. split; [reflexivity|]. split; [reflexivity|].
  intros x _. right. split; [intros c [] | reflexivity].
- destruct (merge_component_spec c md ml) as (md1 & ml1 & E1 & Hlen1 & Hmap1).
  { intros id Hid. apply (Hcs c); [now left | assumption]. }
  destruct (IH md1 ml1) as (md' & ml' & E & Hlen & Hmap).
  { intros c' id Hc' Hid. rewrite Hlen1. apply (Hcs c'); [now right | assumption]. }
  exists md', ml'. cbn [for_each]. rewrite E1. cbn [bind].
  split; [assumption|]. split; [congruence|].
  intros x Hx. destruct (Hmap x Hx) as [(c' & Hc' & Hin & Hrep)|[Hnone Hsame]].
  + left. exists c'. split; [now right | auto].
  + destruct (Hmap1 x Hx) as [Hyes Hno].
    destruct (in_dec Z.eq_dec x c) as [Hin|Hnin].
    * left. exists c. split; [now left|]. split; [assumption|].
      rewrite Hsame. now apply Hyes.
    * right. split.
      -- intros c' [<-|Hc']; [assumption | now apply Hnone].
      -- rewrite Hsame. now apply Hno.
Qed.

Lemma hd_set_iter_In (c : list Z) (x : Z) : In x c -> In (hd 0 (set_iter c)) c.
Proof.
intros Hx. apply set_iter_spec.
assert (H : In x (set_iter c)) by now apply set_iter_spec.
destruct (set_iter c); [destruct H | now left].
Qed.

Lemma mentioned_within (lo max_label : Z) (es : list (Z * Z)) (x : Z) :
  ids_within lo max_label es -> mentioned es x -> lo <= x <= max_label.
Proof.
intros Hes (y & [H|H]); now destruct (Hes _ _ H).
Qed.

(** What [make_merge_list] computes for one name. *)
Lemma merge_list_spec (es : list (Z * Z)) (max_label : Z) :
  ids_within 0 max_label es ->
  exists md ml,
    merge_list_for set_iter es max_label = Ok (md, ml) /\
    length ml = Z.to_nat (max_label + 1) /\
    (forall x, 0 <= x <= max_label ->
               connected es x (remap ml x) /\ 0 <= remap ml x <= max_label) /\
    (forall x y, 0 <= x <= max_label -> 0 <= y <= max_label ->
                 (connected es x y <-> remap ml x = remap ml y)) /\
    (forall x, 0 <= x <= max_label -> ~ mentioned es x -> remap ml x = x).
Proof.
intros Hes. unfold merge_list_for.
set (G := from_edgelist es).
assert (HG : graph_of es G) by apply from_edgelist_graph.
assert (Hadj : forall v w, In w (adj G v) -> In w (nodes G))
  by (intros v w; apply (graph_adj_nodes es G v w HG)).
assert (Hsym : forall v w, In w (adj G v) -> In v (adj G w)).
{ intros v w H. apply HG. apply edge_rel_sym. now apply HG. }
destruct (connected_components_spec set_iter set_iter_spec G Hadj Hsym)
  as (Hclass & _ & Hdisj & Hcover).
set (cs := connected_components set_iter G) in *.
rewrite Forall_forall in Hclass.
assert (Hrange : forall c id, In c cs -> In id c ->
                              0 <= id < Z.of_nat (length (arange (max_label + 1)))).
{ intros c id Hc Hid. rewrite arange_length.
  assert (Hm : mentioned es id).
  { apply HG. apply (class_nodes G Hadj c); auto. }
  pose proof (mentioned_within 0 max_label es id Hes Hm). lia. }
destruct (merge_components_spec cs [] (arange (max_label + 1)) Hrange)
  as (md & ml & E & Hlen & Hmap).
exists md, ml. split; [assumption|].
split; [now rewrite Hlen, arange_length|].
assert (Hrep : forall x, 0 <= x <= max_label ->
          (exists c, In c cs /\ In x c /\ remap ml x = hd 0 (set_iter c)) \/
          (~ mentioned es x /\ remap ml x = x)).
{ intros x Hx. destruct (Hmap x) as [H|[Hnone Hsame]]; [lia | now left|].
  right. split.
  - intros Hm. apply HG in Hm. destruct (Hcover x Hm) as (c & Hc & Hin).
    now apply (Hnone c).
  - rewrite Hsame. apply remap_arange. lia. }
assert (Hconn : forall x, 0 <= x <= max_label ->
          connected es x (remap ml x) /\ 0 <= remap ml x <= max_label).
{ intros x Hx. destruct (Hrep x Hx) as [(c & Hc & Hin & ->)|[_ ->]].
  - pose proof (hd_set_iter_In c x Hin) as Hhd. split.
    + apply (reach_connected es G); [assumption|].
      now apply (class_members G Hsym c x _ (Hclass c Hc) Hin).
    + apply (mentioned_within 0 max_label es); [assumption|].
      apply HG. apply (class_nodes G Hadj c); auto.
  - split; [apply rt_refl | assumption]. }
split; [assumption|].
split.
- intros x y Hx Hy. split.
  + intros Hxy. destruct (connected_mentioned es x y Hxy) as [->|[Hmx Hmy]];
      [reflexivity|].
    destruct (Hrep x Hx) as [(c & Hc & Hin & Ex)|[Hn _]]; [|contradiction].
    destruct (Hrep y Hy) as [(c' & Hc' & Hin' & Ey)|[Hn _]]; [|contradiction].
    assert (Hyc : In y c).
    { apply (class_members G Hsym c x y (Hclass c Hc) Hin).
      now apply (reach_connected es G). }
    assert (c = c') by (apply (disjoint_same cs c c' y); assumption).
    subst c'. congruence.
  + intros E'. destruct (Hconn x Hx) as [H1 _]. destruct (Hconn y Hy) as [H2 _].
    unfold connected in *. apply rt_trans with (remap ml x); [assumption|].
    rewrite E'. now apply connected_sym.
- intros x Hx Hn. destruct (Hrep x Hx) as [(c & Hc & Hin & _)|[_ E']];
    [|assumption].
  exfalso. apply Hn. apply HG. apply (class_nodes G Hadj c); auto.
Qed.

End Merge.

End MergeFacts.

(** ** make_merge_list over the names *)

Module MergeNamesFacts.
Import Np ArrayFacts DictFacts LoopFacts ObjectExtraction CountTableFacts.
Import MergeFacts.

Local Abbreviation sget := (Dict.get String.eqb).

Lemma merge_for_name_inv (set_iter : list Z -> list Z)
      (sl : list (string * list (Z * Z))) (mls : list (string * Z))
      (h : string) (mdd mdd' : list (string * list (Z * Z)))
      (mld mld' : list (string * list Z)) :
  merge_for_name set_iter sl mls h (mdd, mld) = Ok (mdd', mld') ->
  exists es m md ml,
    sget sl h = Ok es /\ sget mls h = Ok m /\
    merge_list_for set_iter es m = Ok (md, ml) /\
    mdd' = Dict.set String.eqb mdd h md /\
    mld' = Dict.set String.eqb mld h ml.
Proof.
unfold merge_for_name. intros E.
apply bind_Ok in E. destruct E as (es & E1 & E).
apply bind_Ok in E. destruct E as (m & E2 & E).
apply bind_Ok in E. destruct E as ([md ml] & E3 & E).
injection E as <- <-. exists es, m, md, ml. auto.
Qed.

Lemma make_merge_list_inv (set_iter : list Z -> list Z)
      (hdf5names : list string) (sl : list (string * list (Z * Z)))
      (mls : list (string * Z))
      (r : list (string * list (Z * Z)) * list (string * list Z)) :
  make_merge_list set_iter hdf5names sl mls = Ok r ->
  merge_inv set_iter sl mls hdf5names r.
Proof.
unfold make_merge_list.
apply (for_each_inv (merge_inv set_iter sl mls)).
- intros h es m md ml [].
- intros pre x [mdd mld] [mdd' mld'] Hpre E.
  apply merge_for_name_inv in E.
  destruct E as (es0 & m0 & md0 & ml0 & E1 & E2 & E3 & -> & ->).
  intros h es m md ml Hh Ees Em Eml. cbn [fst snd].
  destruct (string_dec x h) as [<-|Hne].
  + rewrite !sget_set_same.
    assert (es0 = es) by congruence. assert (m0 = m) by congruence. subst.
    rewrite Eml in E3. injection E3 as <- <-. auto.
  + rewrite !sget_set_other by assumption.
    apply (Hpre h es m md ml); auto.
    apply in_app_or in Hh. destruct Hh as [Hh|[Hh|[]]]; [assumption | congruence].
Qed.

Lemma make_merge_list_ok (set_iter : list Z -> list Z)
      (hdf5names : list string) (sl : list (string * list (Z * Z)))
      (mls : list (string * Z)) :
  set_iter_ok set_iter ->
  Forall (merge_input_ok 0 sl mls) hdf5names ->
  exists r, make_merge_list set_iter hdf5names sl mls = Ok r.
Proof.
intros Hiter Hall. unfold make_merge_list.
destruct (for_each_ok (fun _ => True) (merge_input_ok 0 sl mls)
                      (merge_for_name set_iter sl mls) hdf5names)
  with (s := (@nil (string * list (Z * Z)), @nil (string * list Z)))
  as (r & E & _); auto.
- intros h [mdd mld] (es & m & E1 & E2 & Hids) _.
  destruct (merge_list_spec set_iter Hiter es m Hids) as (md & ml & E3 & _).
  unfold merge_for_name. rewrite E1, E2. cbn [bind]. rewrite E3. cbn [bind].
  eauto.
- eauto.
Qed.

(** The merge list that [make_merge_list] returns for a name. *)
Lemma make_merge_list_spec (set_iter : list Z -> list Z)
      (hdf5names : list string) (sl : list (string * list (Z * Z)))
      (mls : list (string * Z)) :
  set_iter_ok set_iter ->
  Forall (merge_input_ok 0 sl mls) hdf5names ->
  exists mdd mld,
    make_merge_list set_iter hdf5names sl mls = Ok (mdd, mld) /\
    forall h es m,
      In h hdf5names -> sget sl h = Ok es -> sget mls h = Ok m ->
      exists md ml,
        merge_list_for set_iter es m = Ok (md, ml) /\
        sget mdd h = Ok md /\ sget mld h = Ok ml.
Proof.
intros Hiter Hall.
destruct (make_merge_list_ok set_iter hdf5names sl mls Hiter Hall)
  as ([mdd mld] & E).
exists mdd, mld. split; [assumption|].
intros h es m Hh Es Em.
rewrite Forall_forall in Hall.
destruct (Hall h Hh) as (es' & m' & Es' & Em' & Hids).
assert (es' = es) by congruence. assert (m' = m) by congruence. subst.
destruct (merge_list_spec set_iter Hiter es m Hids) as (md & ml & Eml & _).
exists md, ml. split; [assumption|].
apply (make_merge_list_inv _ _ _ _ _ E h es m md ml); auto.
Qed.

End MergeNamesFacts.

(** ** Ranges, slices and batches *)

Module PyFacts.
Import Py.

Lemma firstn_add_skipn {A : Type} (a b : nat) (l : list A) :
  firstn (a + b) l = firstn a l ++ firstn b (skipn a l).
Proof.
revert l. induction a as [|a IH]; intros l; simpl; [reflexivity|].
destruct l as [|x l]; simpl.
- now rewrite firstn_nil.
- now rewrite IH.
Qed.

Lemma blocks_concat {A : Type} (s m : nat) (l : list A) :
  concat (map (fun k => firstn s (skipn (k * s) l)) (seq 0 m))
    = firstn (m * s) l.
Proof.
induction m as [|m IH]; [reflexivity|].
rewrite seq_S, map_app, concat_app, IH. simpl.
rewrite app_nil_r. rewrite (Nat.add_comm s (m * s)).
symmetry. apply firstn_add_skipn.
Qed.

Lemma slice_block {A : Type} (l : list A) (i stride : Z) :
  0 <= i <= Z.of_nat (length l) -> 0 < stride ->
  slice l i (i + stride)
    = firstn (Z.to_nat stride) (skipn (Z.to_nat i) l).
Proof.
intros Hi Hs. unfold slice, clamp.
destruct (Z.ltb_spec i 0); [lia|].
destruct (Z.ltb_spec (i + stride) 0); [lia|].
rewrite (Z.min_l i) by lia.
destruct (Z.le_gt_cases (i + stride) (Z.of_nat (length l))) as [Hle|Hgt].
- rewrite Z.min_l by lia. f_equal. lia.
- rewrite Z.min_r by lia.
  assert (Hlen : length (skipn (Z.to_nat i) l)
                 = Z.to_nat (Z.of_nat (length l) - i))
    by (rewrite length_skipn; lia).
  rewrite (firstn_all2 (n := Z.to_nat stride)) by lia.
  apply firstn_all2. lia.
Qed.

Lemma range3_pos (start stop step : Z) :
  0 < step ->
  range3 start stop step =
    Ok (map (fun k => start + Z.of_nat k * step)
            (seq 0 (Z.to_nat ((stop - start + step - 1) / step)))).
Proof.
intros H. unfold range3.
destruct (Z.eqb_spec step 0); [lia|].
destruct (Z.ltb_spec 0 step); [reflexivity | lia].
Qed.

(** The members of a range with a positive step. *)
Lemma range3_In (start stop step x : Z) (l : list Z) :
  0 < step -> range3 start stop step = Ok l ->
  (In x l <-> start <= x < stop /\ (x - start) mod step = 0).
Proof.
intros Hs E. rewrite range3_pos in E by assumption. injection E as <-.
rewrite in_map_iff. split.
- intros (k & <- & Hk). apply in_seq in Hk.
  assert (Hq : Z.of_nat k < (stop - start + step - 1) / step) by lia.
  assert (Hk' : Z.of_nat k * step + step <= stop - start + step - 1).
  { pose proof (Z.mul_div_le (stop - start + step - 1) step Hs). nia. }
  split; [nia|].
  replace (start + Z.of_nat k * step - start) with (Z.of_nat k * step) by lia.
  apply Z.mod_mul. lia.
- intros [[H1 H2] Hm].
  exists (Z.to_nat ((x - start) / step)).
  assert (Hd : x - start = step * ((x - start) / step))
    by (apply Z.div_exact; [lia | assumption]).
  assert (Hq : 0 <= (x - start) / step) by (apply Z.div_pos; lia).
  split; [nia|].
  apply in_seq. split; [lia|]. simpl.
  assert ((x - start) / step + 1 <= (stop - start + step - 1) / step); [|lia].
  apply Z.div_le_lower_bound; [lia|]. nia.
Qed.

End PyFacts.

Module BatchFacts.
Import Py PyFacts SsdProcJobs.

Lemma ssv_id_blocks_pos {A : Type} (ssv_ids : list A) (stride : Z) :
  0 < stride ->
  ssv_id_blocks ssv_ids stride =
    Ok (map (fun k => firstn (Z.to_nat stride)
                             (skipn (k * Z.to_nat stride) ssv_ids))
            (seq 0 (Z.to_nat ((Z.of_nat (length ssv_ids) + stride - 1)
                              / stride)))).
Proof.
intros Hs. unfold ssv_id_blocks. rewrite range3_pos by assumption.
cbn [bind]. f_equal. rewrite map_map.
replace (Z.of_nat (length ssv_ids) - 0 + stride - 1)
  with (Z.of_nat (length ssv_ids) + stride - 1) by lia.
apply map_ext_in. intros k Hk. apply in_seq in Hk.
set (n := Z.of_nat (length ssv_ids)) in *.
assert (Hq : Z.of_nat k < (n + stride - 1) / stride) by lia.
assert (Hk' : Z.of_nat k * stride + stride <= n + stride - 1).
{ pose proof (Z.mul_div_le (n + stride - 1) stride Hs). nia. }
rewrite slice_block by (subst n; lia).
f_equal. f_equal. nia.
Qed.

End BatchFacts.

(** ** Boolean masks *)

Module SelectFacts.
Import Py.

Lemma select_In {A : Type} (mask : list bool) (l : list A) (c : A) :
  In c (select mask l) <->
  exists i, nth_error mask i = Some true /\ nth_error l i = Some c.
Proof.
revert l. induction mask as [|m mask IH]; intros l.
- simpl. split; [intros [] | intros (i & H & _); destruct i; discriminate].
- destruct l as [|x l].
  + simpl. split; [intros [] | intros (i & _ & H); destruct i; discriminate].
  + simpl. destruct m; simpl; rewrite IH; split.
    * intros [<-|(i & H1 & H2)]; [exists 0%nat; auto | exists (S i); auto].
    * intros ([|i] & H1 & H2); simpl in *; [left; congruence | right; eauto].
    * intros (i & H1 & H2). exists (S i); auto.
    * intros ([|i] & H1 & H2); simpl in *; [discriminate | eauto].
Qed.

Lemma select_select {A B : Type} (f : B -> bool) (keep : list bool)
      (P : list B) (C : list A) :
  length keep = length P -> length keep = length C ->
  select (map f (select keep P)) (select keep C)
    = select (map (fun kp => fst kp && f (snd kp)) (combine keep P)) C.
Proof.
revert P C. induction keep as [|k keep IH]; intros [|p P] [|c C] H1 H2;
  simpl in *; try discriminate; try reflexivity.
destruct k; simpl.
- destruct (f p); [f_equal|]; apply IH; lia.
- apply IH; lia.
Qed.

Lemma select_rows {A : Type} (h : Q -> bool) (f : Z * Z -> bool)
      (probs : list Q) (P : list (Z * Z)) (C : list A) :
  length probs = length C -> length P = length C ->
  select (map (fun kp => fst kp && f (snd kp)) (combine (map h probs) P)) C
    = map fst (filter (fun row => h (fst (snd row)) && f (snd (snd row)))
                      (combine C (combine probs P))).
Proof.
revert probs P. induction C as [|c C IH]; intros [|p probs] [|ab P] H1 H2;
  simpl in *; try discriminate; try reflexivity.
destruct (h p && f ab); simpl; [f_equal|]; apply IH; lia.
Qed.

Lemma select_length_le {A : Type} (mask : list bool) (l : list A) :
  (length (select mask l) <= length l)%nat.
Proof.
revert l. induction mask as [|m mask IH]; intros [|x l]; simpl; try lia.
specialize (IH l). destruct m; simpl; lia.
Qed.

End SelectFacts.

(** ** The background correction and the mapping decision *)

Module DecisionFacts.
Import Py SelectFacts ArrayFacts SsdProc SsdProcJobs.

Lemma correct_ratios_unfold (obj_type : string) (ids : list Z)
      (obj_ratios : list float) (load : Z -> so_attrs) :
  correct_ratios obj_type ids obj_ratios load =
    if String.eqb obj_type "sj"
    then for_each (BlockProcessing.range 0 (length ids))
                  (correction_body ids load) obj_ratios
    else Ok obj_ratios.
Proof. reflexivity. Qed.

Lemma Qgt_bool (a b : Q) : negb (Qle_bool a b) = true <-> (b < a)%Q.
Proof.
rewrite negb_true_iff. split.
- intros H. apply Qnot_le_lt. intros Hle. apply Qle_bool_iff in Hle. congruence.
- intros H. destruct (Qle_bool a b) eqn:E; [|reflexivity].
  apply Qle_bool_iff in E. exfalso. now apply (Qlt_not_le _ _ H).
Qed.

Lemma Qgt_bool_false (a b : Q) : negb (Qle_bool a b) = false <-> (a <= b)%Q.
Proof.
rewrite negb_false_iff. apply Qle_bool_iff.
Qed.

Lemma float_gt_above (r : float) (q : Q) : float_gt r q = true <-> above r q.
Proof.
destruct r; simpl; [apply Qgt_bool | tauto | | ];
  (split; [discriminate | tauto]).
Qed.

Lemma float_gt_not_above (r : float) (q : Q) :
  float_gt r q = false <-> ~ above r q.
Proof.
rewrite <- float_gt_above. destruct (float_gt r q); split; congruence.
Qed.

Lemma getitem_F_nth (l : list float) (i : nat) (d : float) :
  (i < length l)%nat -> getitem_F l i = Ok (nth i l d).
Proof.
intros H. unfold getitem_F.
now rewrite (nth_error_nth' l d H).
Qed.

(** The quotient of numbers, when the divisor is not zero. *)
Lemma divide_fin (r d : Q) : ~ (d == 0)%Q -> divide (Fin r) d = Fin (r / d)%Q.
Proof.
intros H. unfold divide. destruct (Qeq_bool d 0) eqn:E; [|reflexivity].
apply Qeq_bool_iff in E. contradiction.
Qed.

(** The quotient of a number and zero. *)
Lemma divide_zero (r d : Q) :
  (d == 0)%Q ->
  ((0 < r)%Q -> divide (Fin r) d = PInf) /\
  ((r < 0)%Q -> divide (Fin r) d = NInf) /\
  ((r == 0)%Q -> divide (Fin r) d = NaN).
Proof.
intros H. unfold divide. apply Qeq_bool_iff in H. rewrite H.
repeat split; intros Hr.
- apply Qgt_bool in Hr. now rewrite Hr.
- assert (E1 : negb (Qle_bool r 0) = false).
  { apply Qgt_bool_false. now apply Qlt_le_weak. }
  apply Qgt_bool in Hr. now rewrite E1, Hr.
- assert (E1 : negb (Qle_bool r 0) = false).
  { apply Qgt_bool_false. rewrite Hr. apply Qle_refl. }
  assert (E2 : negb (Qle_bool 0 r) = false).
  { apply Qgt_bool_false. rewrite Hr. apply Qle_refl. }
  now rewrite E1, E2.
Qed.

Lemma map_update {A B : Type} (f : A -> B) (i : nat) (v : A) (l : list A) :
  map f (Np.update i v l) = Np.update i (f v) (map f l).
Proof.
revert i. induction l as [|x l IH]; intros [|i]; simpl; auto.
now rewrite IH.
Qed.

(** One round of the loop, whatever the background ratio is: only the
    lookup of [ratio_0] can fail. *)
Lemma correction_body_ok (ids : list Z) (load : Z -> so_attrs) (i : nat)
      (rs : list float) :
  (i < length rs)%nat ->
  (ObjectExtraction.mem 0 (mapping_ids (load (nth i ids 0))) = true ->
   exists r0, ratio_0 (load (nth i ids 0)) = Some r0) ->
  correction_body ids load i rs =
    Ok (Np.update i (corrected_ratio (load (nth i ids 0)) (nth i rs NaN)) rs).
Proof.
intros Hi Hbg. unfold correction_body, corrected_ratio, ratio_0 in *.
destruct (ObjectExtraction.mem 0 (mapping_ids (load (nth i ids 0)))) eqn:Em.
- destruct (Hbg eq_refl) as (r0 & E0).
  destruct (mask_select (mapping_ids (load (nth i ids 0)))
                        (mapping_ratios (load (nth i ids 0))))
    as [|r0' rest]; [discriminate|].
  simpl in E0. injection E0 as ->.
  rewrite (getitem_F_nth _ _ NaN) by assumption. reflexivity.
- now rewrite update_same.
Qed.

Lemma correction_body_cases (ids : list Z) (load : Z -> so_attrs) (i : nat)
      (rs : list float) :
  (exists rs', correction_body ids load i rs = Ok rs') \/
  correction_body ids load i rs = Raise IndexError.
Proof.
unfold correction_body.
destruct (ObjectExtraction.mem 0 _); [|left; eauto].
destruct (mask_select _ _); [now right|].
unfold getitem_F. destruct (nth_error rs i); simpl; [left; eauto | now right].
Qed.

Lemma correction_loop (ids : list Z) (load : Z -> so_attrs)
      (ratios : list float) (cnt k : nat) (rs : list float) :
  (k + cnt <= length ratios)%nat -> length rs = length ratios ->
  (forall i, (k <= i < k + cnt)%nat ->
             ObjectExtraction.mem 0 (mapping_ids (load (nth i ids 0))) = true ->
             exists r0, ratio_0 (load (nth i ids 0)) = Some r0) ->
  (forall i, (k <= i)%nat -> nth i rs NaN = nth i ratios NaN) ->
  exists rs',
    for_each (seq k cnt) (correction_body ids load) rs = Ok rs' /\
    length rs' = length ratios /\
    (forall i, (i < k)%nat -> nth i rs' NaN = nth i rs NaN) /\
    (forall i, (k <= i < k + cnt)%nat ->
               nth i rs' NaN
                 = corrected_ratio (load (nth i ids 0)) (nth i ratios NaN)) /\
    (forall i, (k + cnt <= i)%nat -> nth i rs' NaN = nth i ratios NaN).
Proof.
revert k rs. induction cnt as [|cnt IH]; intros k rs Hk Hlen Hbg Hrest.
- exists rs. simpl. split; [reflexivity|]. split; [assumption|].
  split; [auto|]. split; [intros i Hi; lia|].
  intros i Hi. apply Hrest. lia.
- cbn [seq for_each].
  rewrite correction_body_ok; [|lia | apply Hbg; lia]. cbn [bind].
  set (rs1 := Np.update k (corrected_ratio (load (nth k ids 0))
                                           (nth k rs NaN)) rs).
  assert (Hlen1 : length rs1 = length ratios)
    by (subst rs1; now rewrite update_length).
  destruct (IH (S k) rs1) as (rs' & E & Hlen' & Hlow & Hmid & Hhigh).
  + lia.
  + assumption.
  + intros i Hi. apply Hbg. lia.
  + intros i Hi. subst rs1. rewrite nth_update by lia.
    destruct (Nat.eqb_spec i k); [lia|]. apply Hrest. lia.
  + exists rs'. split; [assumption|]. split; [assumption|].
    split.
    { intros i Hi. rewrite Hlow by lia. subst rs1.
      rewrite nth_update by lia. destruct (Nat.eqb_spec i k); [lia | reflexivity]. }
    split.
    { intros i Hi. destruct (Nat.eq_dec i k) as [->|Hne].
      - rewrite Hlow by lia. subst rs1. rewrite nth_update by lia.
        rewrite Nat.eqb_refl. now rewrite Hrest by lia.
      - apply Hmid. lia. }
    intros i Hi. apply Hhigh. lia.
Qed.

(** The correction as a whole. *)
Lemma correct_ratios_sj (ids : list Z) (obj_ratios : list float)
      (load : Z -> so_attrs) :
  (length ids <= length obj_ratios)%nat ->
  (forall i, (i < length ids)%nat ->
             ObjectExtraction.mem 0 (mapping_ids (load (nth i ids 0))) = true ->
             exists r0, ratio_0 (load (nth i ids 0)) = Some r0) ->
  exists rs,
    correct_ratios "sj" ids obj_ratios load = Ok rs /\
    length rs = length obj_ratios /\
    (forall i, (i < length ids)%nat ->
               nth i rs NaN
                 = corrected_ratio (load (nth i ids 0)) (nth i obj_ratios NaN)) /\
    (forall i, (length ids <= i)%nat -> nth i rs NaN = nth i obj_ratios NaN).
Proof.
intros Hlen Hbg. rewrite correct_ratios_unfold. simpl String.eqb. cbv iota.
unfold BlockProcessing.range. rewrite Nat.sub_0_r.
destruct (correction_loop ids load obj_ratios (length ids) 0 obj_ratios)
  as (rs & E & Hl & _ & Hmid & Hhigh).
- lia.
- reflexivity.
- intros i Hi. apply Hbg. lia.
- reflexivity.
- exists rs. split; [assumption|]. split; [assumption|].
  split; [intros i Hi; apply Hmid; lia|].
  intros i Hi; apply Hhigh; lia.
Qed.

(** The correction of a number by a background ratio other than 1. *)
Lemma corrected_ratio_fin (so : so_attrs) (r : Q) :
  (forall r0, ratio_0 so = Some r0 -> ~ (r0 == 1)%Q) ->
  corrected_ratio so (Fin r) = Fin (corrected so r).
Proof.
intros H. unfold corrected_ratio, corrected.
destruct (ratio_0 so) as [r0|]; [|reflexivity].
apply divide_fin. intros E. apply (H r0 eq_refl). lra.
Qed.

(** A list of floats that are numbers at every index. *)
Lemma all_fin (rs : list float) (qs : list Q) :
  length rs = length qs ->
  (forall i, (i < length rs)%nat -> nth i rs NaN = Fin (nth i qs 0%Q)) ->
  rs = map Fin qs.
Proof.
revert qs. induction rs as [|r rs IH]; intros [|q qs] Hl H;
  simpl in *; try discriminate; [reflexivity|].
f_equal.
- apply (H 0%nat). lia.
- apply IH; [lia|]. intros i Hi. apply (H (S i)). lia.
Qed.

Lemma nth_map_Fin (qs : list Q) (i : nat) :
  (i < length qs)%nat -> nth i (map Fin qs) NaN = Fin (nth i qs 0%Q).
Proof.
intros H. rewrite (nth_indep _ NaN (Fin 0%Q)) by now rewrite length_map.
apply map_nth.
Qed.

Lemma corrected_ge (so : so_attrs) (r : Q) :
  (0 <= r)%Q ->
  (forall r0, ratio_0 so = Some r0 -> (0 <= r0)%Q /\ (r0 < 1)%Q) ->
  (r <= corrected so r)%Q.
Proof.
intros Hr Hbg. unfold corrected. destruct (ratio_0 so) as [r0|]; [|lra].
destruct (Hbg r0 eq_refl) as [H0 H1].
apply Qle_shift_div_l; [lra|]. nra.
Qed.

Lemma id_mask_nth (lower upper : Q) (ratios : list float) (i : nat) :
  nth_error (id_mask lower upper ratios) i = Some true <->
  exists r, nth_error ratios i = Some r /\ above r lower /\
            ((upper < 1)%Q -> ~ above r upper).
Proof.
unfold id_mask. rewrite nth_error_map.
destruct (nth_error ratios i) as [r|]; simpl.
- split.
  + intros H. injection H as H. apply andb_true_iff in H. destruct H as [H1 H2].
    exists r. split; [reflexivity|]. split; [now apply float_gt_above|].
    intros Hu. apply negb_true_iff, andb_false_iff in H2.
    destruct H2 as [H2|H2].
    * apply Qgt_bool_false in H2. exfalso. now apply (Qlt_not_le _ _ Hu).
    * now apply float_gt_not_above.
  + intros (r' & E & H1 & H2). injection E as <-. f_equal.
    apply andb_true_iff. split; [now apply float_gt_above|].
    apply negb_true_iff, andb_false_iff.
    destruct (Qlt_le_dec upper 1) as [Hu|Hu].
    * right. apply float_gt_not_above. now apply H2.
    * left. now apply Qgt_bool_false.
- split; [discriminate | intros (r & E & _); discriminate].
Qed.

End DecisionFacts.

(** ** The chunks of a box *)

Module ChunkFacts.
Import Py PyFacts ChunkBox ObjectExtraction DictFacts LoopFacts TranslatorFacts.

Lemma triple_eqb_spec (a b : triple) : reflect (a = b) (triple_eqb a b).
Proof.
destruct a as [[a0 a1] a2], b as [[b0 b1] b2]. unfold triple_eqb.
destruct (Z.eqb_spec a0 b0), (Z.eqb_spec a1 b1), (Z.eqb_spec a2 b2);
  simpl; constructor; congruence.
Qed.

(** A lookup either finds a value or raises [KeyError]. *)
Lemma get_cases {K V : Type} (eqb : K -> K -> bool) (d : list (K * V)) (k : K) :
  (exists v, Dict.get eqb d k = Ok v) \/ Dict.get eqb d k = Raise KeyError.
Proof.
induction d as [|[k' v'] d IH]; simpl; [now right|].
destruct (eqb k k'); [left; eauto | assumption].
Qed.

(** The keys of a dictionary are those a value was stored under. *)
Lemma get_In {K V : Type} (eqb : K -> K -> bool)
      (eqb_spec : forall a b, reflect (a = b) (eqb a b))
      (d : list (K * V)) (k : K) (v : V) :
  Dict.get eqb d k = Ok v -> In (k, v) d.
Proof.
induction d as [|[k' v'] d IH]; simpl; [discriminate|].
destruct (eqb_spec k k') as [->|Hne].
- intros E. injection E as ->. now left.
- intros E. right. now apply IH.
Qed.

Lemma align_dim_spec (o s cs o' s' : Z) :
  0 < cs -> align_dim o s cs = (o', s') ->
  o' = chunk_origin o cs /\ o' mod cs = 0 /\ (o' + s') mod cs = 0 /\
  o' <= o < o' + cs /\ o + s <= o' + s' < o + s + cs.
Proof.
intros Hcs E. unfold align_dim, np_mod in E.
destruct (Z.eqb_spec cs 0); [lia|]. injection E as <- <-.
unfold chunk_origin.
pose proof (Z.mod_pos_bound o cs Hcs) as Hr.
pose proof (Z.mod_pos_bound (cs - (s + o mod cs)) cs Hcs) as Hm.
pose proof (Z.div_mod o cs ltac:(lia)) as Ho.
pose proof (Z.div_mod (cs - (s + o mod cs)) cs ltac:(lia)) as Ht.
split; [reflexivity|]. split; [|split; [|lia]].
- replace (o - o mod cs) with ((o / cs) * cs) by lia. apply Z.mod_mul. lia.
- replace (o - o mod cs + (s + o mod cs + (cs - (s + o mod cs)) mod cs))
    with ((o / cs + 1 - (cs - (s + o mod cs)) / cs) * cs) by lia.
  apply Z.mod_mul. lia.
Qed.

(** The origin of the chunk of a coordinate: the multiple of the chunk
    size at or below it. *)
Lemma chunk_origin_spec (x cs : Z) :
  0 < cs ->
  chunk_origin x cs mod cs = 0 /\ chunk_origin x cs <= x < chunk_origin x cs + cs.
Proof.
intros Hcs. unfold chunk_origin.
pose proof (Z.mod_pos_bound x cs Hcs).
pose proof (Z.div_mod x cs ltac:(lia)).
split; [|lia].
replace (x - x mod cs) with ((x / cs) * cs) by lia. apply Z.mod_mul. lia.
Qed.

Lemma chunk_origin_unique (x cs X : Z) :
  0 < cs -> X mod cs = 0 -> X <= x < X + cs -> chunk_origin x cs = X.
Proof.
intros Hcs Hm Hx. unfold chunk_origin.
apply Z.mod_divide in Hm; [|lia]. destruct Hm as [q ->].
assert (E : x mod cs = x - q * cs).
{ symmetry. apply (Z.mod_unique x cs q); [lia | lia]. }
lia.
Qed.

Lemma multiples_diff (a b cs : Z) :
  0 < cs -> a mod cs = 0 -> b mod cs = 0 -> (a - b) mod cs = 0.
Proof.
intros Hcs Ha Hb.
apply Z.mod_divide in Ha; [|lia]. apply Z.mod_divide in Hb; [|lia].
apply Z.mod_divide; [lia|]. now apply Z.divide_sub_r.
Qed.

Lemma multiples_step (a b cs : Z) :
  0 < cs -> a mod cs = 0 -> b mod cs = 0 -> a < b -> a + cs <= b.
Proof.
intros Hcs Ha Hb Hlt.
apply Z.mod_divide in Ha; [|lia]. apply Z.mod_divide in Hb; [|lia].
destruct Ha as [p ->], Hb as [q ->].
assert (p < q) by nia. assert (p + 1 <= q) by lia. nia.
Qed.

(** The chunk of a coordinate of the box lies on the grid of the aligned
    box. *)
Lemma origin_in_grid (o s cs o' s' x : Z) :
  0 < cs -> align_dim o s cs = (o', s') -> o <= x < o + s ->
  (o' <= chunk_origin x cs < o' + s') /\ (chunk_origin x cs - o') mod cs = 0.
Proof.
intros Hcs E Hx.
destruct (align_dim_spec _ _ _ _ _ Hcs E) as (_ & Hm1 & Hm2 & Hb1 & Hb2).
destruct (chunk_origin_spec x cs Hcs) as [Hm Hb].
split; [|now apply multiples_diff].
split.
- destruct (Z.lt_ge_cases (chunk_origin x cs) o') as [Hlt|]; [|assumption].
  pose proof (multiples_step _ _ _ Hcs Hm Hm1 Hlt). lia.
- lia.
Qed.

(** A point of the grid of the aligned box is the chunk of a coordinate of
    the box, when the box is not empty. *)
Lemma grid_has_voxel (o s cs o' s' X : Z) :
  0 < cs -> 0 < s -> align_dim o s cs = (o', s') ->
  o' <= X < o' + s' -> (X - o') mod cs = 0 ->
  exists x, o <= x < o + s /\ chunk_origin x cs = X.
Proof.
intros Hcs Hs E HX Hm.
destruct (align_dim_spec _ _ _ _ _ Hcs E) as (_ & Hm1 & Hm2 & Hb1 & Hb2).
assert (HXm : X mod cs = 0).
{ replace X with ((X - o') - (0 - o')) by lia.
  apply multiples_diff; [assumption | assumption |].
  apply multiples_diff; [assumption | apply Z.mod_0_l; lia | assumption]. }
assert (Hup : X + cs <= o' + s').
{ apply multiples_step; [assumption | assumption | assumption | lia]. }
assert (Hlow : o' = X \/ o' + cs <= X).
{ destruct (Z.eq_dec o' X); [now left | right].
  apply multiples_step; [assumption | assumption | assumption | lia]. }
exists (Z.max X o). split; [lia|].
apply chunk_origin_unique; [assumption | assumption | lia].
Qed.

Lemma flat_map_no_rows {A B C : Type} (f : A -> B -> list C) (xs : list A) :
  flat_map (fun x => flat_map (f x) []) xs = [].
Proof. induction xs as [|x xs IH]; simpl; auto. Qed.

(** With positive chunk sizes the three ranges exist, and the loops visit
    their product. *)
Lemma box_coords_pos (o0 o1 o2 s0 s1 s2 c0 c1 c2 : Z) :
  0 < c0 -> 0 < c1 -> 0 < c2 ->
  exists xs ys zs,
    range3 o0 (o0 + s0) c0 = Ok xs /\ range3 o1 (o1 + s1) c1 = Ok ys /\
    range3 o2 (o2 + s2) c2 = Ok zs /\
    box_coords (o0, o1, o2) (s0, s1, s2) (c0, c1, c2)
      = Ok (flat_map (fun x =>
              flat_map (fun y => map (fun z => (x, y, z)) zs) ys) xs).
Proof.
intros H0 H1 H2. unfold box_coords.
rewrite (range3_pos o0 _ c0 H0), (range3_pos o1 _ c1 H1),
        (range3_pos o2 _ c2 H2).
eexists. eexists. eexists.
split; [reflexivity|]. split; [reflexivity|]. split; [reflexivity|].
cbn [bind].
destruct (map (fun k => o0 + Z.of_nat k * c0) _) as [|x xs]; [reflexivity|].
cbn [bind].
destruct (map (fun k => o1 + Z.of_nat k * c1) _) as [|y ys];
  [now rewrite flat_map_no_rows | reflexivity].
Qed.

Lemma box_coords_In (o0 o1 o2 s0 s1 s2 c0 c1 c2 : Z) (coords : list triple)
      (x y z : Z) :
  0 < c0 -> 0 < c1 -> 0 < c2 ->
  box_coords (o0, o1, o2) (s0, s1, s2) (c0, c1, c2) = Ok coords ->
  (In (x, y, z) coords <->
   (o0 <= x < o0 + s0 /\ (x - o0) mod c0 = 0) /\
   (o1 <= y < o1 + s1 /\ (y - o1) mod c1 = 0) /\
   (o2 <= z < o2 + s2 /\ (z - o2) mod c2 = 0)).
Proof.
intros H0 H1 H2 E.
destruct (box_coords_pos o0 o1 o2 s0 s1 s2 c0 c1 c2 H0 H1 H2)
  as (xs & ys & zs & E0 & E1 & E2 & Eb).
rewrite Eb in E. injection E as <-.
rewrite <- (range3_In _ _ _ x xs H0 E0).
rewrite <- (range3_In _ _ _ y ys H1 E1).
rewrite <- (range3_In _ _ _ z zs H2 E2).
rewrite in_flat_map. split.
- intros (x' & Hx & Hin). apply in_flat_map in Hin.
  destruct Hin as (y' & Hy & Hin). apply in_map_iff in Hin.
  destruct Hin as (z' & Ez & Hz). injection Ez as <- <- <-. auto.
- intros (Hx & Hy & Hz). exists x. split; [assumption|].
  apply in_flat_map. exists y. split; [assumption|].
  apply in_map_iff. exists z. auto.
Qed.

Lemma box_coords_ok (offset size : triple) (c0 c1 c2 : Z) :
  0 < c0 -> 0 < c1 -> 0 < c2 ->
  exists coords, box_coords offset size (c0, c1, c2) = Ok coords.
Proof.
intros H0 H1 H2. destruct offset as [[o0 o1] o2], size as [[s0 s1] s2].
destruct (box_coords_pos o0 o1 o2 s0 s1 s2 c0 c1 c2 H0 H1 H2)
  as (xs & ys & zs & _ & _ & _ & Eb).
eauto.
Qed.

Lemma fold_left_ext_in {A B : Type} (f g : A -> B -> A) (l : list B) (a : A) :
  (forall x b, In b l -> f x b = g x b) -> fold_left f l a = fold_left g l a.
Proof.
revert a. induction l as [|b l IH]; intros a H; simpl; [reflexivity|].
rewrite (H a b) by now left. apply IH. intros x b' Hb. apply H. now right.
Qed.

(** Appending a chunk enters it in the translator under the new position. *)
Lemma make_translator_snoc (chunk_list : list Z) (c : Z) :
  make_translator (chunk_list ++ [c])
    = Dict.set Z.eqb (make_translator chunk_list) c (length chunk_list).
Proof.
unfold make_translator. rewrite length_app. simpl.
rewrite Nat.add_1_r, seq_S, fold_left_app. simpl.
rewrite nth_middle. f_equal.
apply fold_left_ext_in. intros tr ii Hii. apply in_seq in Hii.
now rewrite app_nth1 by lia.
Qed.

(** The translator of the default chunk list. *)
Lemma default_translator (n : nat) :
  fold_left (fun tr ii => Dict.set Z.eqb tr (Z.of_nat ii) ii) (seq 0 n) []
    = make_translator (map Z.of_nat (seq 0 n)).
Proof.
unfold make_translator. rewrite length_map, length_seq.
apply fold_left_ext_in. intros tr ii Hii. apply in_seq in Hii.
change 0 with (Z.of_nat 0). rewrite map_nth, seq_nth by lia. reflexivity.
Qed.

(** The loop of lines 148-152: the chunks are those of the coordinates,
    in order, and the translator is the one of the list. *)
Lemma add_chunk_loop (coord_dict : list (triple * Z)) (coords : list triple)
      (chunk_list : list Z) (tr : translator) :
  for_each coords (add_chunk coord_dict) ([], []) = Ok (chunk_list, tr) ->
  Forall2 (fun p c => Dict.get triple_eqb coord_dict p = Ok c) coords chunk_list
  /\ tr = make_translator chunk_list.
Proof.
intros E.
apply (for_each_inv
         (fun pre st =>
            Forall2 (fun p c => Dict.get triple_eqb coord_dict p = Ok c)
                    pre (fst st)
            /\ snd st = make_translator (fst st))
         (add_chunk coord_dict) coords ([], []) ) in E; [exact E| |].
- split; [constructor | reflexivity].
- intros pre p [cl t] [cl' t'] [HF Ht] Eb. simpl in HF, Ht. subst t.
  unfold add_chunk in Eb.
  destruct (Dict.get triple_eqb coord_dict p) as [c|] eqn:Ec;
    [|discriminate].
  simpl in Eb. injection Eb as <- <-. simpl. split.
  + apply Forall2_app; [assumption | now constructor].
  + rewrite last_last, length_app. simpl.
    rewrite make_translator_snoc. f_equal. lia.
Qed.

Lemma add_chunk_loop_ok (coord_dict : list (triple * Z)) (coords : list triple)
      (st : list Z * translator) :
  (forall p, In p coords -> exists c, Dict.get triple_eqb coord_dict p = Ok c) ->
  exists st', for_each coords (add_chunk coord_dict) st = Ok st'.
Proof.
intros H.
destruct (for_each_ok (fun _ => True)
            (fun p => exists c, Dict.get triple_eqb coord_dict p = Ok c)
            (add_chunk coord_dict) coords) with (s := st) as (st' & E & _).
- intros p [cl t] [c Ec] _. unfold add_chunk. rewrite Ec. simpl. eauto.
- now apply Forall_forall.
- exact I.
- eauto.
Qed.

Lemma add_chunk_loop_raise (coord_dict : list (triple * Z))
      (coords : list triple) (p : triple) (st : list Z * translator) :
  In p coords -> Dict.get triple_eqb coord_dict p = Raise KeyError ->
  for_each coords (add_chunk coord_dict) st = Raise KeyError.
Proof.
intros Hin Hp. revert st.
induction coords as [|q coords IH]; intros [cl t]; [contradiction|].
simpl. unfold add_chunk at 1.
destruct (get_cases triple_eqb coord_dict q) as [[c Ec]|Ec]; rewrite Ec; simpl.
- destruct Hin as [->|Hin]; [congruence|]. now apply IH.
- reflexivity.
Qed.

Lemma Forall2_In_l {A B : Type} (R : A -> B -> Prop) (l : list A) (l' : list B)
      (a : A) :
  Forall2 R l l' -> In a l -> exists b, In b l' /\ R a b.
Proof.
induction 1 as [|x y l l' Hxy HF IH]; intros Hin; [contradiction|].
destruct Hin as [->|Hin].
- exists y. split; [now left | assumption].
- destruct (IH Hin) as (b & Hb & Hr). exists b. split; [now right | assumption].
Qed.

Lemma Forall2_In_r {A B : Type} (R : A -> B -> Prop) (l : list A) (l' : list B)
      (b : B) :
  Forall2 R l l' -> In b l' -> exists a, In a l /\ R a b.
Proof.
induction 1 as [|x y l l' Hxy HF IH]; intros Hin; [contradiction|].
destruct Hin as [->|Hin].
- exists x. split; [now left | assumption].
- destruct (IH Hin) as (a & Ha & Hr). exists a. split; [now right | assumption].
Qed.

(** The translator of a list: the position it gives is the last one that
    holds the chunk. *)
Lemma translator_last (chunk_list : list Z) (c : Z) (i j : nat) :
  Dict.get Z.eqb (make_translator chunk_list) c = Ok i ->
  (j < length chunk_list)%nat -> nth j chunk_list 0 = c -> (j <= i)%nat.
Proof.
induction chunk_list as [|x l IH] using rev_ind; intros E Hj Hn.
- simpl in Hj. lia.
- rewrite make_translator_snoc in E. rewrite length_app in Hj. simpl in Hj.
  destruct (Z.eq_dec x c) as [->|Hne].
  + rewrite (get_set_same Z.eqb Z_eqb_spec) in E. injection E as <-. lia.
  + rewrite (get_set_other Z.eqb Z_eqb_spec) in E by assumption.
    destruct (Nat.eq_dec j (length l)) as [->|Hjl].
    * rewrite nth_middle in Hn. contradiction.
    * rewrite app_nth1 in Hn by lia. apply IH; [assumption | lia | assumption].
Qed.

Lemma translator_absent (chunk_list : list Z) (c : Z) :
  ~ In c chunk_list ->
  Dict.get Z.eqb (make_translator chunk_list) c = Raise KeyError.
Proof.
intros Hn.
destruct (get_cases Z.eqb (make_translator chunk_list) c) as [[i E]|E];
  [|assumption].
destruct (translator_index _ _ _ E) as [Hi Hc].
exfalso. apply Hn. rewrite <- Hc. now apply nth_In.
Qed.

Lemma translator_NoDup (chunk_list : list Z) (i : nat) :
  NoDup chunk_list -> (i < length chunk_list)%nat ->
  Dict.get Z.eqb (make_translator chunk_list) (nth i chunk_list 0) = Ok i.
Proof.
intros Hnd Hi.
destruct (translator_defined chunk_list (nth i chunk_list 0)) as [j E];
  [now apply nth_In|].
destruct (translator_index _ _ _ E) as [Hj Hc].
rewrite E. f_equal.
apply (proj1 (NoDup_nth chunk_list 0) Hnd); assumption.
Qed.

Lemma select_chunks_translator (coord_dict : list (triple * Z))
      (chunk_size : triple) (n_chunks : nat) (chunk_list : option (list Z))
      (offset size : option triple) (cl : list Z) (tr : translator) :
  select_chunks coord_dict chunk_size n_chunks chunk_list offset size
    = Ok (cl, tr) ->
  tr = make_translator cl.
Proof.
assert (Hd : forall r : result (list Z * translator),
          match chunk_list with
          | None =>
              Ok (map Z.of_nat (seq 0 n_chunks),
                  fold_left (fun tr ii => Dict.set Z.eqb tr (Z.of_nat ii) ii)
                            (seq 0 n_chunks) [])
          | Some chunk_list => Ok (chunk_list, make_translator chunk_list)
          end = Ok (cl, tr) -> tr = make_translator cl).
{ intros _. destruct chunk_list as [l|]; intros E; injection E as <- <-.
  - reflexivity.
  - apply default_translator. }
unfold select_chunks. destruct size as [size|]; [|apply Hd; exact (Raise KeyError)].
destruct offset as [offset|]; [|apply Hd; exact (Raise KeyError)].
unfold calculate_chunk_numbers_for_box.
destruct (align_box offset size chunk_size) as [o' s'].
intros E. apply bind_Ok in E. destruct E as (coords & _ & E).
now apply add_chunk_loop in E.
Qed.

(** Aligning an aligned box changes nothing. *)
Lemma align_dim_idempotent (o s cs : Z) :
  align_dim (fst (align_dim o s cs)) (snd (align_dim o s cs)) cs
    = align_dim o s cs.
Proof.
unfold align_dim, np_mod. destruct (Z.eqb_spec cs 0) as [->|Hcs]; simpl.
- f_equal; lia.
- pose proof (Z.div_mod o cs Hcs) as Ho.
  pose proof (Z.div_mod (cs - (s + o mod cs)) cs Hcs) as Ht.
  assert (E1 : (o - o mod cs) mod cs = 0).
  { replace (o - o mod cs) with ((o / cs) * cs) by lia. now apply Z.mod_mul. }
  rewrite E1.
  assert (E2 : (cs - (s + o mod cs + (cs - (s + o mod cs)) mod cs + 0)) mod cs
               = 0).
  { replace (cs - (s + o mod cs + (cs - (s + o mod cs)) mod cs + 0))
      with (((cs - (s + o mod cs)) / cs) * cs) by lia.
    now apply Z.mod_mul. }
  rewrite E2. f_equal; lia.
Qed.

Lemma align_box_idempotent (offset size chunk_size : triple) :
  align_box (fst (align_box offset size chunk_size))
            (snd (align_box offset size chunk_size)) chunk_size
    = align_box offset size chunk_size.
Proof.
destruct offset as [[o0 o1] o2], size as [[s0 s1] s2],
         chunk_size as [[c0 c1] c2].
unfold align_box.
pose proof (align_dim_idempotent o0 s0 c0) as H0.
pose proof (align_dim_idempotent o1 s1 c1) as H1.
pose proof (align_dim_idempotent o2 s2 c2) as H2.
destruct (align_dim o0 s0 c0) as [a0 b0], (align_dim o1 s1 c1) as [a1 b1],
         (align_dim o2 s2 c2) as [a2 b2].
cbn [fst snd] in *. now rewrite H0, H1, H2.
Qed.

End ChunkFacts.

(** ** Collecting the results of the workers *)

Module CollectFacts.
Import Collect DictFacts LoopFacts ChunkFacts CountTableFacts.

Lemma for_each_ext {A S : Type} (f g : A -> S -> result S) (xs : list A) (s : S) :
  (forall x s, In x xs -> f x s = g x s) -> for_each xs f s = for_each xs g s.
Proof.
revert s. induction xs as [|x xs IH]; intros s H; simpl; [reflexivity|].
rewrite (H x s) by now left.
destruct (g x s) as [s'|e]; simpl; [|reflexivity].
apply IH. intros y t Hy. apply H. now right.
Qed.

(** A loop whose body can only fail with [e] can only fail with [e], and
    does so when the body fails on one of the elements whatever the
    state. *)
Lemma for_each_cases {A S : Type} (body : A -> S -> result S) (e : exn)
      (xs : list A) (s : S) :
  (forall x s, In x xs -> (exists s', body x s = Ok s') \/ body x s = Raise e) ->
  (exists s', for_each xs body s = Ok s') \/ for_each xs body s = Raise e.
Proof.
revert s. induction xs as [|x xs IH]; intros s H; simpl; [left; eauto|].
destruct (H x s ltac:(now left)) as [[s' E]|E]; rewrite E; simpl.
- apply IH. intros y t Hy. apply H. now right.
- now right.
Qed.

Lemma for_each_raise {A S : Type} (body : A -> S -> result S) (e : exn)
      (xs : list A) (bad : A) (s : S) :
  (forall x s, In x xs -> (exists s', body x s = Ok s') \/ body x s = Raise e) ->
  In bad xs -> (forall s, body bad s = Raise e) ->
  for_each xs body s = Raise e.
Proof.
revert s. induction xs as [|x xs IH]; intros s H Hin Hbad; [contradiction|].
simpl. destruct (H x s ltac:(now left)) as [[s' E]|E]; rewrite E; simpl.
- destruct Hin as [->|Hin]; [rewrite Hbad in E; discriminate|].
  apply IH; [|assumption|assumption]. intros y t Hy. apply H. now right.
- reflexivity.
Qed.

Lemma get_append_to_same {V : Type} (d : list (Z * list V)) (k : Z) (v : V) :
  Dict.get Z.eqb (append_to d k v) k
    = Ok (match Dict.get Z.eqb d k with Ok l => l ++ [v] | Raise _ => [v] end).
Proof.
unfold append_to.
destruct (Dict.get Z.eqb d k); apply (get_set_same Z.eqb Z_eqb_spec).
Qed.

Lemma get_append_to_other {V : Type} (d : list (Z * list V)) (k k' : Z) (v : V) :
  k <> k' -> Dict.get Z.eqb (append_to d k v) k' = Dict.get Z.eqb d k'.
Proof.
intros Hne. unfold append_to.
destruct (Dict.get Z.eqb d k); now apply (get_set_other Z.eqb Z_eqb_spec).
Qed.

Lemma extended_nil {V : Type} (d : list (Z * list V)) (k : Z) :
  extended (Dict.get Z.eqb d k) [] = Dict.get Z.eqb d k.
Proof.
destruct (get_cases Z.eqb d k) as [[l E]|E]; rewrite E; simpl.
- now rewrite app_nil_r.
- reflexivity.
Qed.

Lemma extended_app {V : Type} (r : result (list V)) (vs ws : list V) :
  extended (extended r vs) ws = extended r (vs ++ ws).
Proof.
destruct r as [l|e]; simpl.
- now rewrite app_assoc.
- destruct vs as [|v vs]; simpl; reflexivity.
Qed.

(** Entering a list of items extends what every key holds by the values
    the items have for it. *)
Lemma append_items {V : Type} (items : list (Z * V)) (d : list (Z * list V))
      (k : Z) :
  Dict.get Z.eqb
    (fold_left (fun d kv => append_to d (fst kv) (snd kv)) items d) k
    = extended (Dict.get Z.eqb d k) (values_of k items).
Proof.
revert d. induction items as [|[k' v] items IH]; intros d.
- simpl. symmetry. apply extended_nil.
- simpl fold_left. rewrite IH. unfold values_of. simpl filter.
  destruct (Z.eqb_spec k' k) as [->|Hne].
  + rewrite get_append_to_same. simpl map.
    destruct (Dict.get Z.eqb d k) as [l|e]; simpl.
    * now rewrite <- app_assoc.
    * reflexivity.
  + now rewrite get_append_to_other.
Qed.

(** The loop over the results, for any way [items_of] of reading the items
    of a result. *)
Lemma collect_loop {R V : Type} (items_of : R -> result (list (Z * V)))
      (read : R -> list (Z * V)) (results : list R) (d0 : list (Z * list V)) :
  (forall res, In res results -> items_of res = Ok (read res)) ->
  exists d,
    for_each results (fun res d =>
      items <- items_of res ;;
      Ok (fold_left (fun d kv => append_to d (fst kv) (snd kv)) items d)) d0
      = Ok d /\
    forall k, Dict.get Z.eqb d k
              = extended (Dict.get Z.eqb d0 k)
                         (flat_map (fun res => values_of k (read res)) results).
Proof.
revert d0. induction results as [|res results IH]; intros d0 Hall.
- exists d0. split; [reflexivity|]. intros k. simpl. symmetry.
  apply extended_nil.
- simpl for_each. rewrite (Hall res) by now left. simpl bind.
  destruct (IH (fold_left (fun d kv => append_to d (fst kv) (snd kv))
                          (read res) d0)) as (d & E & Hd).
  { intros r Hr. apply Hall. now right. }
  exists d. split; [exact E|].
  intros k. rewrite Hd, append_items, extended_app. reflexivity.
Qed.

(** The body of the loop over the results fails only with [KeyError]. *)
Lemma collect_body_cases {R V : Type} (items_of : R -> result (list (Z * V)))
      (res : R) (d : list (Z * list V)) :
  (exists items, items_of res = Ok items) \/ items_of res = Raise KeyError ->
  (exists d',
     (items <- items_of res ;;
      Ok (fold_left (fun d kv => append_to d (fst kv) (snd kv)) items d))
     = Ok d') \/
  (items <- items_of res ;;
   Ok (fold_left (fun d kv => append_to d (fst kv) (snd kv)) items d))
  = Raise KeyError.
Proof.
intros [[items E]|E]; rewrite E; simpl; [left; eauto | now right].
Qed.

Lemma entry_get {V : Type} (h : string) (res : list (string * list V))
      (l : list V) :
  Dict.get String.eqb res h = Ok l -> entry h res = l.
Proof. intros E. unfold entry. now rewrite E. Qed.

Lemma values_of_ids {C : Type} (k : Z) (c : C) (ids : list Z) :
  values_of k (map (fun this_id => (this_id, c)) ids)
    = map (fun _ => c) (filter (Z.eqb k) ids).
Proof.
unfold values_of. induction ids as [|x ids IH]; [reflexivity|].
simpl. rewrite (Z.eqb_sym k x).
destruct (x =? k); simpl; now rewrite IH.
Qed.

(** The loop of [extract_ids] for one name reads the items (id, chunk) of
    every result. *)
Lemma id_mapping_for_items {C : Type}
      (results : list (C * list (string * list Z))) (h : string) :
  id_mapping_for results h
    = for_each results (fun res d =>
        items <- (ids <- Dict.get String.eqb (snd res) h ;;
                  Ok (map (fun this_id => (this_id, fst res)) ids)) ;;
        Ok (fold_left (fun d kv => append_to d (fst kv) (snd kv)) items d)) [].
Proof.
unfold id_mapping_for. apply for_each_ext. intros res d _.
destruct (Dict.get String.eqb (snd res) h) as [ids|e]; simpl; [|reflexivity].
f_equal. revert d. induction ids as [|x ids IH]; intros d; simpl;
  [reflexivity | apply IH].
Qed.

(** The stitch list before the first result: an empty list for every
    name. *)
Lemma empty_stitch_list (hdf5names : list string) (h : string)
      (d : list (string * list (Z * Z))) :
  Dict.get String.eqb
    (fold_left (fun d h => Dict.set String.eqb d h []) hdf5names d) h
    = if in_dec string_dec h hdf5names then Ok [] else Dict.get String.eqb d h.
Proof.
revert d. induction hdf5names as [|x r IH]; intros d; simpl; [reflexivity|].
rewrite IH. destruct (string_dec x h) as [->|Hne].
- rewrite sget_set_same. destruct (in_dec string_dec h r); reflexivity.
- rewrite sget_set_other by assumption.
  destruct (in_dec string_dec h r); reflexivity.
Qed.

(** The edges of one result for one name are appended one by one. *)
Lemma append_elems_spec (h : string) (elems cur : list (Z * Z))
      (sl : list (string * list (Z * Z))) :
  Dict.get String.eqb sl h = Ok cur ->
  exists sl',
    append_elems h elems sl = Ok sl' /\
    Dict.get String.eqb sl' h = Ok (cur ++ elems) /\
    forall h', h' <> h -> Dict.get String.eqb sl' h' = Dict.get String.eqb sl h'.
Proof.
unfold append_elems. revert cur sl.
induction elems as [|e elems IH]; intros cur sl Ecur.
- exists sl. split; [reflexivity|]. split; [now rewrite app_nil_r | auto].
- simpl for_each. rewrite Ecur. simpl bind.
  destruct (IH (cur ++ [e]) (Dict.set String.eqb sl h (cur ++ [e])))
    as (sl' & E & Hh & Hother).
  { apply sget_set_same. }
  exists sl'. split; [exact E|]. split.
  + rewrite Hh. now rewrite <- app_assoc.
  + intros h' Hne. rewrite (Hother h' Hne). apply sget_set_other. congruence.
Qed.

(** One result extends the stitch list of every name by its edges. *)
Lemma extend_stitch_list_spec (names all : list string)
      (res sl : list (string * list (Z * Z))) :
  NoDup names -> incl names all ->
  (forall h, In h names -> exists es, Dict.get String.eqb res h = Ok es) ->
  (forall h, In h all -> exists es, Dict.get String.eqb sl h = Ok es) ->
  exists sl',
    for_each names (fun hdf5_name stitch_list =>
      elems <- Dict.get String.eqb res hdf5_name ;;
      append_elems hdf5_name elems stitch_list) sl
      = Ok sl' /\
    forall h,
      Dict.get String.eqb sl' h
        = if in_dec string_dec h names
          then match Dict.get String.eqb sl h with
               | Ok cur => Ok (cur ++ entry h res)
               | Raise e => Raise e
               end
          else Dict.get String.eqb sl h.
Proof.
revert sl. induction names as [|x names IH]; intros sl Hnd Hincl Hres Hsl.
- exists sl. split; [reflexivity|]. intros h. reflexivity.
- apply NoDup_cons_iff in Hnd. destruct Hnd as [Hx Hnd].
  destruct (Hres x ltac:(now left)) as [es Ees].
  destruct (Hsl x (Hincl x ltac:(now left))) as [cur Ecur].
  destruct (append_elems_spec x es cur sl Ecur) as (sl1 & E1 & Hx1 & Hother).
  simpl for_each. rewrite Ees. simpl bind. rewrite E1. simpl bind.
  destruct (IH sl1) as (sl' & E & Hget).
  + assumption.
  + intros h Hh. apply Hincl. now right.
  + intros h Hh. apply Hres. now right.
  + intros h Hh. destruct (string_dec h x) as [->|Hne].
    * rewrite Hx1. eauto.
    * rewrite (Hother h Hne). now apply Hsl.
  + exists sl'. split; [exact E|].
    intros h. rewrite Hget. simpl in_dec.
    destruct (string_dec x h) as [->|Hne].
    * destruct (in_dec string_dec h names) as [Hin|_]; [contradiction|].
      rewrite Hx1, Ecur. now rewrite (entry_get _ _ _ Ees).
    * rewrite (Hother h) by congruence.
      destruct (in_dec string_dec h names); reflexivity.
Qed.

(** The loop over the results: the stitch list of a name is extended by
    the edges of every result, in order. *)
Lemma collect_stitch_loop (hdf5names : list string)
      (results : list (list (string * list (Z * Z))))
      (sl : list (string * list (Z * Z))) :
  NoDup hdf5names ->
  (forall res h, In res results -> In h hdf5names ->
                 exists es, Dict.get String.eqb res h = Ok es) ->
  (forall h, In h hdf5names -> exists es, Dict.get String.eqb sl h = Ok es) ->
  exists sl',
    for_each results (extend_stitch_list hdf5names) sl = Ok sl' /\
    forall h cur, In h hdf5names -> Dict.get String.eqb sl h = Ok cur ->
      Dict.get String.eqb sl' h = Ok (cur ++ flat_map (entry h) results).
Proof.
intros Hnd. revert sl.
induction results as [|res results IH]; intros sl Hres Hsl.
- exists sl. split; [reflexivity|]. intros h cur _ E. simpl.
  now rewrite app_nil_r.
- destruct (extend_stitch_list_spec hdf5names hdf5names res sl Hnd
              (incl_refl _)) as (sl1 & E1 & H1).
  + intros h Hh. apply (Hres res h); [now left | assumption].
  + assumption.
  + simpl for_each. unfold extend_stitch_list at 1. rewrite E1. simpl bind.
    destruct (IH sl1) as (sl' & E & Hget).
    * intros r h Hr Hh. apply Hres; [now right | assumption].
    * intros h Hh. rewrite H1.
      destruct (in_dec string_dec h hdf5names) as [_|Hn]; [|contradiction].
      destruct (Hsl h Hh) as [cur Ecur]. rewrite Ecur. eauto.
    * exists sl'. split; [exact E|].
      intros h cur Hh Ecur.
      rewrite (Hget h (cur ++ entry h res) Hh).
      { simpl. now rewrite app_assoc. }
      rewrite H1.
      destruct (in_dec string_dec h hdf5names) as [_|Hn]; [|contradiction].
      now rewrite Ecur.
Qed.

Lemma flat_map_Permutation {A B : Type} (f : A -> list B) (l l' : list A) :
  Permutation l l' -> Permutation (flat_map f l) (flat_map f l').
Proof.
induction 1 as [|x l1 l2 _ IH|x y l1|l1 l2 l3 _ IH1 _ IH2]; simpl.
- constructor.
- now apply Permutation_app_head.
- rewrite !app_assoc. apply Permutation_app_tail, Permutation_app_comm.
- now transitivity (flat_map f l2).
Qed.

Lemma stitch_list_concat_aux (hdf5names : list string)
      (results : list (list (string * list (Z * Z)))) :
  NoDup hdf5names ->
  (forall res h, In res results -> In h hdf5names ->
                 exists es, Dict.get String.eqb res h = Ok es) ->
  exists stitch_list,
    collect_stitch_list hdf5names results = Ok stitch_list /\
    forall h, In h hdf5names ->
      Dict.get String.eqb stitch_list h = Ok (flat_map (entry h) results).
Proof.
intros Hnd Hres. unfold collect_stitch_list.
destruct (collect_stitch_loop hdf5names results
            (fold_left (fun d h => Dict.set String.eqb d h []) hdf5names [])
            Hnd Hres) as (sl & E & Hsl).
- intros h Hh. rewrite empty_stitch_list.
  destruct (in_dec string_dec h hdf5names); [eauto | contradiction].
- exists sl. split; [exact E|].
  intros h Hh. apply (Hsl h [] Hh). rewrite empty_stitch_list.
  destruct (in_dec string_dec h hdf5names); [reflexivity | contradiction].
Qed.

Lemma ids_within_perm (lo m : Z) (es es' : list (Z * Z)) :
  Permutation es es' -> ObjectExtraction.ids_within lo m es ->
  ObjectExtraction.ids_within lo m es'.
Proof.
intros HP H a b Hab. apply H.
apply (Permutation_in _ (Permutation_sym HP) Hab).
Qed.

Lemma id_mapping_for_spec {C : Type}
      (results : list (C * list (string * list Z))) (h : string) :
  (forall res, In res results ->
     exists ids, Dict.get String.eqb (snd res) h = Ok ids) ->
  exists m,
    id_mapping_for results h = Ok m /\
    forall this_id,
      Dict.get Z.eqb m this_id
        = listed (flat_map (chunks_with_id h this_id) results).
Proof.
intros Hall. rewrite id_mapping_for_items.
destruct (collect_loop
            (fun res : C * list (string * list Z) =>
               ids <- Dict.get String.eqb (snd res) h ;;
               Ok (map (fun this_id => (this_id, fst res)) ids))
            (fun res => map (fun this_id => (this_id, fst res))
                            (entry h (snd res)))
            results []) as (m & E & Hm).
- intros res Hres. destruct (Hall res Hres) as [ids Eids].
  rewrite Eids. simpl. now rewrite (entry_get _ _ _ Eids).
- exists m. split; [exact E|].
  intros k. rewrite Hm. simpl. f_equal.
  apply flat_map_ext. intros res. apply values_of_ids.
Qed.

Lemma bind_get_cases {V W : Type} (d : list (string * V)) (h : string)
      (k : V -> W) :
  (exists w, (v <- Dict.get String.eqb d h ;; Ok (k v)) = Ok w) \/
  (v <- Dict.get String.eqb d h ;; Ok (k v)) = Raise KeyError.
Proof.
destruct (get_cases String.eqb d h) as [[v E]|E]; rewrite E; simpl;
  [left; eauto | now right].
Qed.

Lemma id_mapping_for_cases {C : Type}
      (results : list (C * list (string * list Z))) (h : string) :
  (exists m, id_mapping_for results h = Ok m) \/
  id_mapping_for results h = Raise KeyError.
Proof.
unfold id_mapping_for. apply for_each_cases.
intros res d _. apply bind_get_cases.
Qed.

Lemma id_mapping_for_raise {C : Type}
      (results : list (C * list (string * list Z))) (h : string)
      (bad : C * list (string * list Z)) :
  In bad results -> Dict.get String.eqb (snd bad) h = Raise KeyError ->
  id_mapping_for results h = Raise KeyError.
Proof.
intros Hin Hbad. unfold id_mapping_for.
apply (for_each_raise _ KeyError results bad); [|assumption|].
- intros res d _. apply bind_get_cases.
- intros d. now rewrite Hbad.
Qed.

End CollectFacts.

(** ** Counts, bases and the parameters of the relabelling *)

Module AllocMoreFacts.
Import Np ArrayFacts DictFacts LoopFacts ObjectExtraction TranslatorFacts.
Import CountTableFacts ChunkBox ChunkFacts CollectFacts.

Local Abbreviation sget := (Dict.get String.eqb).
Local Abbreviation sset := (Dict.set String.eqb).



(** A loop that fails only with [e] from states that satisfy [P], which
    the successful steps keep, fails with [e] when one element makes the
    body fail from every such state. *)
Lemma for_each_raise_inv {A S : Type} (P : S -> Prop)
      (body : A -> S -> result S) (e : exn) (xs : list A) (bad : A) (s : S) :
  (forall x s, In x xs -> P s ->
     (exists s', body x s = Ok s' /\ P s') \/ body x s = Raise e) ->
  In bad xs -> (forall s, P s -> body bad s = Raise e) -> P s ->
  for_each xs body s = Raise e.
Proof.
revert s. induction xs as [|x xs IH]; intros s H Hin Hbad Hs; [contradiction|].
simpl. destruct (H x s ltac:(now left) Hs) as [(s' & E & Hs')|E];
  rewrite E; simpl; [|reflexivity].
destruct Hin as [->|Hin]; [rewrite (Hbad s Hs) in E; discriminate|].
apply IH; [|assumption|assumption|assumption].
intros y t Hy. apply H. now right.
Qed.

(** A record is stored, or the store fails with [KeyError] because the
    name or the chunk is unknown. *)
Lemma store_count_cases (hdf5names : list string) (chunk_list : list Z)
      (info : cc_info) (d : list (string * list Z)) :
  wf_table hdf5names (length chunk_list) d ->
  (wf_info hdf5names chunk_list info /\
   exists d', store_count (make_translator chunk_list) info d = Ok d' /\
              wf_table hdf5names (length chunk_list) d') \/
  (~ wf_info hdf5names chunk_list info /\
   store_count (make_translator chunk_list) info d = Raise KeyError).
Proof.
destruct info as [[c name] nb]. intros Hwf. unfold wf_info.
destruct (Hwf name) as [H1 H2].
destruct (in_dec string_dec name hdf5names) as [Hn|Hn].
- destruct (H1 Hn) as (arr & Ea & Hlen).
  destruct (in_dec Z.eq_dec c chunk_list) as [Hc|Hc].
  + left. split; [auto|].
    destruct (translator_defined _ _ Hc) as (idx & Ei).
    destruct (translator_index _ _ _ Ei) as [Hlt _].
    rewrite (store_count_ok _ c name nb d arr idx Ea Ei) by lia.
    eexists. split; [reflexivity|].
    apply wf_table_set; [assumption | assumption |].
    now rewrite update_length.
  + right. split; [tauto|]. unfold store_count. rewrite Ea. simpl.
    now rewrite (translator_absent _ _ Hc).
- right. split; [tauto|]. unfold store_count. now rewrite (H2 Hn).
Qed.

(** A record that no later record overwrites is what the table holds. *)
Lemma later_records_keep (tr : translator) (h : string) (idx : nat) (v : Z)
      (post : list cc_info) (d d' : list (string * list Z)) :
  (forall c' v', In (c', h, v') post -> Dict.get Z.eqb tr c' <> Ok idx) ->
  for_each post (store_count tr) d = Ok d' ->
  (exists arr, sget d h = Ok arr /\ nth idx arr 0 = v) ->
  exists arr, sget d' h = Ok arr /\ nth idx arr 0 = v.
Proof.
revert d. induction post as [|[[c' name] nb'] post IH]; intros d Hpost E H.
- simpl in E. injection E as <-. exact H.
- simpl in E. apply bind_Ok in E. destruct E as (d1 & E1 & E).
  apply (IH d1); [|assumption|].
  + intros c2 v2 Hin. apply (Hpost c2 v2). now right.
  + apply store_count_inv in E1.
    destruct E1 as (arr1 & idx1 & Ea1 & Ei1 & Hlt1 & ->).
    destruct H as (arr & Ea & Hv).
    destruct (string_dec name h) as [->|Hne].
    * rewrite sget_set_same. eexists. split; [reflexivity|].
      assert (arr1 = arr) by congruence. subst arr1.
      rewrite nth_update by assumption.
      destruct (Nat.eqb_spec idx idx1) as [->|_]; [|assumption].
      exfalso. apply (Hpost c' nb'); [now left | assumption].
    * rewrite sget_set_other by assumption. eauto.
Qed.




End AllocMoreFacts.

(** ** Pair keys and windows *)

Module KeyFacts.
Import Np NpFacts BlockProcessing KernelFacts.

Lemma count_app (k : Z) (l l' : list Z) :
  count k (l ++ l') = count k l + count k l'.
Proof. unfold count. rewrite count_occ_app. lia. Qed.

Lemma count_absent (k : Z) (l : list Z) : ~ In k l -> count k l = 0.
Proof.
intros H. unfold count.
now rewrite (proj1 (count_occ_not_In Z.eq_dec l k) H).
Qed.

(** The two halves of a key of ids below [2^32]. *)
Lemma key_of_decode (a b : Z) :
  0 <= a < 2 ^ 32 -> 0 <= b < 2 ^ 32 ->
  Z.shiftr (key_of a b) 32 = Z.min a b /\
  Z.land (key_of a b) (Z.ones 32) = Z.max a b.
Proof.
intros Ha Hb. unfold key_of.
rewrite Z.shiftr_div_pow2, Z.shiftl_mul_pow2, Z.land_ones by lia.
assert (Hmin : 0 <= Z.min a b < 2 ^ 32) by lia.
assert (Hmax : 0 <= Z.max a b < 2 ^ 32) by lia.
split.
- rewrite Z.div_add_l by lia. rewrite Z.div_small by assumption. lia.
- rewrite Z.add_comm, Z.mod_add by lia. now apply Z.mod_small.
Qed.

(** The outcomes of [kernel] by dtype, on a window that is not empty. *)
Lemma kernel_no_partner (dt : id_dtype) (chunk : list Z) (center_id : Z) :
  chunk <> [] -> ~ BlockGrid.has_partner chunk center_id ->
  kernel dt chunk center_id = Ok 0.
Proof.
intros Hne Hno.
destruct (kernel_cases dt chunk center_id Hne)
  as [[Hk _]|(b & _ & Hb & Hb0 & Hbc & _)]; [exact Hk|].
exfalso. apply Hno. exists b. auto.
Qed.

Lemma kernel_total (chunk : list Z) (center_id : Z) :
  chunk <> [] -> exists k, kernel np_int64 chunk center_id = Ok k.
Proof.
intros Hne.
destruct (kernel_cases np_int64 chunk center_id Hne)
  as [[Hk _]|(b & Hk & _)]; [eauto|].
rewrite Hk, pair_key_min_max. unfold shift_add. eauto.
Qed.

Lemma kernel_uint64_partner (chunk : list Z) (center_id : Z) :
  BlockGrid.has_partner chunk center_id ->
  kernel np_uint64 chunk center_id = Raise TypeError.
Proof.
intros (v & Hv & Hv0 & Hvc).
assert (Hne : chunk <> []) by (destruct chunk; [destruct Hv | discriminate]).
destruct (kernel_cases np_uint64 chunk center_id Hne)
  as [[_ Hall]|(b & Hk & _)].
- destruct (Hall v Hv); contradiction.
- rewrite Hk. apply pair_key_uint64.
Qed.

Lemma has_partner_dec (chunk : list Z) (center_id : Z) :
  BlockGrid.has_partner chunk center_id \/
  ~ BlockGrid.has_partner chunk center_id.
Proof.
unfold BlockGrid.has_partner.
induction chunk as [|x chunk IH].
- right. intros (v & [] & _).
- destruct IH as [(v & Hv & H)|IH]; [left; exists v; simpl; tauto|].
  destruct (Z.eq_dec x 0) as [->|H0].
  + right. intros (v & [<-|Hv] & Hv0 & Hvc); [congruence|].
    apply IH. eauto.
  + destruct (Z.eq_dec x center_id) as [->|Hc].
    * right. intros (v & [<-|Hv] & Hv0 & Hvc); [congruence|].
      apply IH. eauto.
    * left. exists x. simpl. auto.
Qed.

End KeyFacts.

(** ** Arrays, windows and the loop over the flagged voxels *)

Module GridFacts.
Import Np ArrayFacts BlockProcessing BlockGrid KernelFacts KeyFacts LoopFacts.

Lemma slice_length {A : Type} (lo hi : nat) (l : list A) :
  length (slice lo hi l) = Nat.min (hi - lo) (length l - lo).
Proof. unfold slice. now rewrite length_firstn, length_skipn. Qed.

Lemma nth_slice {A : Type} (lo hi : nat) (l : list A) (i : nat) (d : A) :
  (i < hi - lo)%nat -> nth i (slice lo hi l) d = nth (lo + i) l d.
Proof.
intros H. unfold slice. rewrite nth_firstn.
destruct (Nat.ltb_spec i (hi - lo)); [|lia]. apply nth_skipn.
Qed.

Lemma In_slice {A : Type} (lo hi : nat) (l : list A) (i : nat) (d : A) :
  (lo <= i < hi)%nat -> (i < length l)%nat -> In (nth i l d) (slice lo hi l).
Proof.
intros H1 H2. replace i with (lo + (i - lo))%nat by lia.
rewrite <- (nth_slice lo hi l (i - lo) d) by lia.
apply nth_In. rewrite slice_length. lia.
Qed.

Lemma inner_slice_length {A : Type} (o : nat) (l : list A) :
  (1 <= o)%nat -> length (inner_slice o l) = (length l - o - o)%nat.
Proof.
destruct o; [lia|]. intros _. unfold inner_slice. rewrite slice_length. lia.
Qed.

Lemma nth_inner_slice {A : Type} (o : nat) (l : list A) (i : nat) (d : A) :
  (1 <= o)%nat -> (i + o + o < length l)%nat ->
  nth i (inner_slice o l) d = nth (o + i) l d.
Proof.
destruct o; [lia|]. intros _ H. unfold inner_slice. apply nth_slice. lia.
Qed.

Lemma nth_map_in {A B : Type} (f : A -> B) (l : list A) (i : nat) (d : A)
      (d' : B) :
  (i < length l)%nat -> nth i (map f l) d' = f (nth i l d).
Proof.
intros H. rewrite (nth_indep _ d' (f d)) by now rewrite length_map.
apply map_nth.
Qed.

(** The part of the edge mask that [np.nonzero] looks at. *)
Lemma inner_spec (edges : array3) (n0 n1 n2 o0 o1 o2 : nat) :
  has_shape edges n0 n1 n2 ->
  (1 <= o0)%nat -> (1 <= o1)%nat -> (1 <= o2)%nat ->
  let inner := map (fun plane => map (inner_slice o2) (inner_slice o1 plane))
                   (inner_slice o0 edges) in
  length inner = (n0 - o0 - o0)%nat /\
  forall x, (x + o0 + o0 < n0)%nat ->
    length (nth x inner []) = (n1 - o1 - o1)%nat /\
    forall y, (y + o1 + o1 < n1)%nat ->
      length (nth y (nth x inner []) []) = (n2 - o2 - o2)%nat /\
      forall z, (z + o2 + o2 < n2)%nat ->
        get3 inner x y z = get3 edges (o0 + x) (o1 + y) (o2 + z).
Proof.
intros [Hn0 Hsh] H0 H1 H2 inner.
split.
{ subst inner. rewrite length_map, inner_slice_length by assumption. lia. }
intros x Hx.
assert (Ex : nth x inner []
             = map (inner_slice o2) (inner_slice o1 (nth (o0 + x) edges []))).
{ subst inner. rewrite (nth_map_in _ _ x []).
  - now rewrite nth_inner_slice by lia.
  - rewrite inner_slice_length by assumption. lia. }
destruct (Hsh (o0 + x)%nat ltac:(lia)) as [Hn1 Hrows].
split.
{ rewrite Ex, length_map, inner_slice_length by assumption. lia. }
intros y Hy.
assert (Ey : nth y (nth x inner []) []
             = inner_slice o2 (nth (o1 + y) (nth (o0 + x) edges []) [])).
{ rewrite Ex. rewrite (nth_map_in _ _ y []).
  - now rewrite nth_inner_slice by lia.
  - rewrite inner_slice_length by assumption. lia. }
pose proof (Hrows (o1 + y)%nat ltac:(lia)) as Hn2.
split.
{ rewrite Ey, inner_slice_length by assumption. lia. }
intros z Hz. unfold get3 at 1. rewrite Ey.
rewrite nth_inner_slice by lia. reflexivity.
Qed.

(** The voxels [np.nonzero] lists. *)
Lemma nonzero3_In (a : array3) (x y z : nat) :
  In (x, y, z) (nonzero3 a) <->
  (x < length a)%nat /\ (y < length (nth x a []))%nat /\
  (z < length (nth y (nth x a []) []))%nat /\ get3 a x y z <> 0.
Proof.
unfold nonzero3. rewrite in_flat_map. split.
- intros (x' & Hx & H). apply in_flat_map in H. destruct H as (y' & Hy & H).
  apply in_flat_map in H. destruct H as (z' & Hz & H).
  apply in_seq in Hx, Hy, Hz.
  destruct (Z.eqb_spec (get3 a x' y' z') 0) as [|Hne]; [destruct H|].
  destruct H as [H|[]]. injection H as <- <- <-.
  repeat split; try lia; assumption.
- intros (Hx & Hy & Hz & Hne). exists x. split; [apply in_seq; lia|].
  apply in_flat_map. exists y. split; [apply in_seq; lia|].
  apply in_flat_map. exists z. split; [apply in_seq; lia|].
  destruct (Z.eqb_spec (get3 a x y z) 0); [contradiction | now left].
Qed.

Lemma get3_set3 (a : array3) (x y z : nat) (v : Z) (x' y' z' : nat) :
  (x < length a)%nat -> (y < length (nth x a []))%nat ->
  (z < length (nth y (nth x a []) []))%nat ->
  get3 (set3 a x y z v) x' y' z'
    = if Nat.eqb x' x && Nat.eqb y' y && Nat.eqb z' z then v
      else get3 a x' y' z'.
Proof.
intros Hx Hy Hz. unfold get3, set3.
rewrite nth_update by assumption.
destruct (Nat.eqb_spec x' x) as [->|_]; [|reflexivity].
rewrite nth_update by assumption.
destruct (Nat.eqb_spec y' y) as [->|_]; [|reflexivity].
rewrite nth_update by assumption.
destruct (Nat.eqb_spec z' z) as [->|_]; reflexivity.
Qed.

Lemma set3_shape (a : array3) (n0 n1 n2 x y z : nat) (v : Z) :
  has_shape a n0 n1 n2 -> (x < n0)%nat -> (y < n1)%nat -> (z < n2)%nat ->
  has_shape (set3 a x y z v) n0 n1 n2.
Proof.
intros [Hn0 Hsh] Hx Hy Hz. unfold set3.
destruct (Hsh x Hx) as [Hn1 Hrows]. pose proof (Hrows y Hy) as Hn2.
split; [now rewrite update_length|].
intros x' Hx'. rewrite nth_update by lia.
destruct (Nat.eqb_spec x' x) as [->|_]; [|now apply Hsh].
split; [now rewrite update_length|].
intros y' Hy'. rewrite nth_update by lia.
destruct (Nat.eqb_spec y' y) as [->|_]; [|now apply Hrows].
now rewrite update_length.
Qed.

Lemma zeros3_shape (m0 m1 m2 : nat) : has_shape (zeros3 m0 m1 m2) m0 m1 m2.
Proof.
unfold zeros3, zeros. split; [apply repeat_length|].
intros x Hx. rewrite (nth_repeat_lt _ _ Hx).
split; [apply repeat_length|].
intros y Hy. rewrite (nth_repeat_lt _ _ Hy). apply repeat_length.
Qed.

Lemma get3_zeros3 (m0 m1 m2 x y z : nat) :
  (x < m0)%nat -> (y < m1)%nat -> (z < m2)%nat ->
  get3 (zeros3 m0 m1 m2) x y z = 0.
Proof.
intros Hx Hy Hz. unfold get3, zeros3, zeros.
rewrite (nth_repeat_lt _ _ Hx), (nth_repeat_lt _ _ Hy).
now apply nth_repeat_lt.
Qed.

(** A voxel inside the bounds of a window is one of its entries. *)
Lemma window_In (a : array3) (n0 n1 n2 x0 x1 y0 y1 z0 z1 x y z : nat) :
  has_shape a n0 n1 n2 ->
  (x0 <= x < x1)%nat -> (x < n0)%nat ->
  (y0 <= y < y1)%nat -> (y < n1)%nat ->
  (z0 <= z < z1)%nat -> (z < n2)%nat ->
  In (get3 a x y z) (window a x0 x1 y0 y1 z0 z1).
Proof.
intros [Hn0 Hsh] Hx Hx' Hy Hy' Hz Hz'.
destruct (Hsh x Hx') as [Hn1 Hrows]. pose proof (Hrows y Hy') as Hn2.
unfold window, get3. apply in_concat.
exists (concat (map (slice z0 z1) (slice y0 y1 (nth x a [])))). split.
- apply in_map_iff. exists (nth x a []). split; [reflexivity|].
  apply In_slice; lia.
- apply in_concat. exists (slice z0 z1 (nth y (nth x a []) [])). split.
  + apply in_map_iff. exists (nth y (nth x a []) []). split; [reflexivity|].
    apply In_slice; lia.
  + apply In_slice; lia.
Qed.

Lemma triple_dec (p q : nat * nat * nat) : {p = q} + {p <> q}.
Proof. repeat decide equality. Qed.

Lemma in_bounds3_shape (a : array3) (n0 n1 n2 x y z : nat) :
  has_shape a n0 n1 n2 -> (x < n0)%nat -> (y < n1)%nat -> (z < n2)%nat ->
  in_bounds3 a x y z = true.
Proof.
intros [Hn0 Hsh] Hx Hy Hz. destruct (Hsh x Hx) as [Hn1 Hrows].
pose proof (Hrows y Hy) as Hn2. unfold in_bounds3. rewrite Hn0, Hn1, Hn2.
destruct (Nat.ltb_spec x n0); [|lia].
destruct (Nat.ltb_spec y n1); [|lia].
destruct (Nat.ltb_spec z n2); [reflexivity | lia].
Qed.

Lemma getitem3_shape (a : array3) (n0 n1 n2 x y z : nat) :
  has_shape a n0 n1 n2 -> (x < n0)%nat -> (y < n1)%nat -> (z < n2)%nat ->
  getitem3 a x y z = Ok (get3 a x y z).
Proof.
intros H Hx Hy Hz. unfold getitem3.
now rewrite (in_bounds3_shape a n0 n1 n2 x y z H Hx Hy Hz).
Qed.

Lemma setitem3_shape (a : array3) (n0 n1 n2 x y z : nat) (v : Z) :
  has_shape a n0 n1 n2 -> (x < n0)%nat -> (y < n1)%nat -> (z < n2)%nat ->
  setitem3 a x y z v = Ok (set3 a x y z (as_uint64 v)).
Proof.
intros H Hx Hy Hz. unfold setitem3.
now rewrite (in_bounds3_shape a n0 n1 n2 x y z H Hx Hy Hz).
Qed.

(** The loop over the flagged voxels: every voxel of the list gets the
    result of [K], as the [uint64] output stores it, and every other voxel
    keeps its value. *)
Lemma flagged_loop (K : nat -> nat -> nat -> result Z) (m0 m1 m2 : nat)
      (L : list (nat * nat * nat)) :
  (forall x y z, In (x, y, z) L ->
     (x < m0)%nat /\ (y < m1)%nat /\ (z < m2)%nat /\ exists k, K x y z = Ok k) ->
  forall out0, has_shape out0 m0 m1 m2 ->
  exists out,
    for_each L (fun p out =>
      let '(x, y, z) := p in
      k <- K x y z ;; setitem3 out x y z k) out0 = Ok out /\
    has_shape out m0 m1 m2 /\
    forall x y z, (x < m0)%nat -> (y < m1)%nat -> (z < m2)%nat ->
      (In (x, y, z) L ->
       exists k, K x y z = Ok k /\ get3 out x y z = as_uint64 k) /\
      (~ In (x, y, z) L -> get3 out x y z = get3 out0 x y z).
Proof.
induction L as [|[[px py] pz] L IH]; intros HL out0 Hsh.
- exists out0. split; [reflexivity|]. split; [assumption|].
  intros x y z _ _ _. split; [intros [] | reflexivity].
- destruct (HL px py pz ltac:(now left)) as (Hx & Hy & Hz & k & Ek).
  pose proof (set3_shape out0 m0 m1 m2 px py pz (as_uint64 k) Hsh Hx Hy Hz)
    as Hsh1.
  destruct (IH (fun x y z H => HL x y z (or_intror H))
               (set3 out0 px py pz (as_uint64 k)) Hsh1)
    as (out & E & Hsho & Hout).
  exists out. split.
  { simpl for_each. rewrite Ek. simpl bind.
    rewrite (setitem3_shape out0 m0 m1 m2) by assumption.
    simpl bind. exact E. }
  split; [assumption|].
  assert (Hget : forall x' y' z',
            get3 (set3 out0 px py pz (as_uint64 k)) x' y' z'
              = if Nat.eqb x' px && Nat.eqb y' py && Nat.eqb z' pz
                then as_uint64 k
                else get3 out0 x' y' z').
  { intros x' y' z'. destruct Hsh as [Hn0 Hs].
    destruct (Hs px Hx) as [Hn1 Hrows]. pose proof (Hrows py Hy) as Hn2.
    apply get3_set3; lia. }
  intros x y z Hx' Hy' Hz'.
  destruct (Hout x y z Hx' Hy' Hz') as [Hin Hnin].
  destruct (in_dec triple_dec (x, y, z) L) as [HinL|HninL].
  + split; [intros _; now apply Hin|].
    intros Hn. exfalso. apply Hn. now right.
  + rewrite (Hnin HninL), Hget. split.
    * intros [H|H]; [|contradiction]. injection H as -> -> ->.
      rewrite !Nat.eqb_refl. exists k. auto.
    * intros Hn.
      destruct (Nat.eqb_spec x px) as [->|]; [|reflexivity].
      destruct (Nat.eqb_spec y py) as [->|]; [|reflexivity].
      destruct (Nat.eqb_spec z pz) as [->|]; [|reflexivity].
      exfalso. apply Hn. now left.
Qed.

(** The same loop when [K] fails with [e] on one of the voxels, and with
    nothing else on the others: the loop fails with [e]. *)
Lemma flagged_loop_raise (K : nat -> nat -> nat -> result Z) (e : exn)
      (m0 m1 m2 : nat) (L : list (nat * nat * nat)) (x0 y0 z0 : nat) :
  (forall x y z, In (x, y, z) L ->
     (x < m0)%nat /\ (y < m1)%nat /\ (z < m2)%nat /\
     ((exists k, K x y z = Ok k) \/ K x y z = Raise e)) ->
  In (x0, y0, z0) L -> K x0 y0 z0 = Raise e ->
  forall out0, has_shape out0 m0 m1 m2 ->
  for_each L (fun p out =>
    let '(x, y, z) := p in
    k <- K x y z ;; setitem3 out x y z k) out0 = Raise e.
Proof.
intros HL Hbad Ebad out0 Hsh.
apply (AllocMoreFacts.for_each_raise_inv
         (fun out => has_shape out m0 m1 m2) _ e L (x0, y0, z0));
  [|assumption| |assumption].
- intros [[x y] z] out Hin Hout.
  destruct (HL x y z Hin) as (Hx & Hy & Hz & [[k Ek]|Ek]); rewrite Ek;
    simpl bind; [|now right].
  left. rewrite (setitem3_shape out m0 m1 m2) by assumption.
  eexists. split; [reflexivity|]. now apply set3_shape.
- intros out _. now rewrite Ebad.
Qed.

Lemma shape3_of_shape (a : array3) (n0 n1 n2 : nat) :
  has_shape a n0 n1 n2 -> (0 < n0)%nat -> (0 < n1)%nat ->
  shape3 a = (n0, n1, n2).
Proof.
intros [Hn0 Hsh] H0 H1. unfold shape3.
destruct (Hsh 0%nat H0) as [Hn1 Hrows].
now rewrite Hn0, Hn1, (Hrows 0%nat H1).
Qed.

Lemma odd_half (s : nat) : (s mod 2 = 1)%nat -> (s = 2 * (s / 2) + 1)%nat.
Proof. intros H. pose proof (Nat.div_mod_eq s 2). lia. Qed.

Lemma stencil_odd_inv (s0 s1 s2 : nat) :
  stencil_odd (s0, s1, s2) = true ->
  (s0 mod 2 = 1 /\ s1 mod 2 = 1 /\ s2 mod 2 = 1)%nat.
Proof.
unfold stencil_odd. intros H. apply Nat.eqb_eq in H.
pose proof (Nat.mod_upper_bound s0 2 ltac:(lia)).
pose proof (Nat.mod_upper_bound s1 2 ltac:(lia)).
pose proof (Nat.mod_upper_bound s2 2 ltac:(lia)).
lia.
Qed.

(** An array with an empty axis has no voxel that is not zero. *)
Lemma nonzero3_empty (a : array3) :
  (forall x y z, (x < length a)%nat -> (y < length (nth x a []))%nat ->
                 (z < length (nth y (nth x a []) []))%nat -> False) ->
  nonzero3 a = [].
Proof.
intros H. destruct (nonzero3 a) as [|[[x y] z] l] eqn:E; [reflexivity|].
assert (Hin : In (x, y, z) (nonzero3 a)) by (rewrite E; now left).
apply nonzero3_In in Hin. destruct Hin as (Hx & Hy & Hz & _).
destruct (H x y z Hx Hy Hz).
Qed.

Lemma nth_all_nil {A : Type} (l : list (list A)) (i : nat) :
  (forall r, In r l -> r = []) -> nth i l [] = [].
Proof.
intros H. destruct (Nat.lt_ge_cases i (length l)) as [Hlt|Hge].
- apply H. now apply nth_In.
- now apply nth_overflow.
Qed.

Lemma for_each_flat_map {A B S : Type} (f : A -> list B)
      (body : B -> S -> result S) (xs : list A) (s : S) :
  for_each (flat_map f xs) body s
    = for_each xs (fun x s => for_each (f x) body s) s.
Proof.
revert s. induction xs as [|x xs IH]; intros s; simpl; [reflexivity|].
rewrite for_each_app. destruct (for_each (f x) body s); simpl; auto.
Qed.

Lemma for_each_map {A B S : Type} (g : A -> B) (body : B -> S -> result S)
      (xs : list A) (s : S) :
  for_each (map g xs) body s = for_each xs (fun x s => body (g x) s) s.
Proof.
revert s. induction xs as [|x xs IH]; intros s; simpl; [reflexivity|].
destruct (body (g x) s); simpl; auto.
Qed.

Lemma for_each_ext_in {A S : Type} (f g : A -> S -> result S) (xs : list A)
      (s : S) :
  (forall x s, In x xs -> f x s = g x s) -> for_each xs f s = for_each xs g s.
Proof.
revert s. induction xs as [|x xs IH]; intros s H; simpl; [reflexivity|].
rewrite (H x s) by now left.
destruct (g x s) as [s'|e]; simpl; [|reflexivity].
apply IH. intros y t Hy. apply H. now right.
Qed.

Lemma for_each_filter {A S : Type} (keep : A -> bool)
      (body : A -> S -> result S) (xs : list A) (s : S) :
  for_each xs (fun x s => if keep x then body x s else Ok s) s
    = for_each (filter keep xs) body s.
Proof.
revert s. induction xs as [|x xs IH]; intros s; simpl; [reflexivity|].
destruct (keep x); simpl.
- destruct (body x s); simpl; auto.
- apply IH.
Qed.

(** The three nested loops of [process_block] visit the interior voxels
    one after the other. *)
Lemma nested_loops {S : Type} (B : nat -> nat -> nat -> S -> result S)
      (xs ys zs : list nat) (s : S) :
  for_each xs (fun x s =>
    for_each ys (fun y s =>
      for_each zs (fun z s => B x y z s) s) s) s
  = for_each (flat_map (fun x => flat_map (fun y =>
                map (fun z => (x, y, z)) zs) ys) xs)
             (fun p s => let '(x, y, z) := p in B x y z s) s.
Proof.
rewrite for_each_flat_map. apply for_each_ext_in. intros x s1 _.
rewrite for_each_flat_map. apply for_each_ext_in. intros y s2 _.
now rewrite for_each_map.
Qed.

Lemma interior_In (s0 s1 s2 n0 n1 n2 x y z : nat) :
  In (x, y, z) (interior (s0, s1, s2) n0 n1 n2) <->
  (s0 / 2 <= x /\ x + s0 / 2 < n0)%nat /\
  (s1 / 2 <= y /\ y + s1 / 2 < n1)%nat /\
  (s2 / 2 <= z /\ z + s2 / 2 < n2)%nat.
Proof.
unfold interior, range. rewrite in_flat_map. split.
- intros (x' & Hx & H). apply in_flat_map in H. destruct H as (y' & Hy & H).
  apply in_map_iff in H. destruct H as (z' & E & Hz). injection E as <- <- <-.
  apply in_seq in Hx, Hy, Hz. lia.
- intros (Hx & Hy & Hz). exists x. split; [apply in_seq; lia|].
  apply in_flat_map. exists y. split; [apply in_seq; lia|].
  apply in_map_iff. exists z. split; [reflexivity | apply in_seq; lia].
Qed.

Lemma concat_all_nil {A : Type} (l : list (list A)) :
  (forall r, In r l -> r = []) -> concat l = [].
Proof.
induction l as [|r l IH]; intros H; simpl; [reflexivity|].
rewrite (H r) by now left. apply IH. intros r' Hr. apply H. now right.
Qed.

(** A window with no extent on the second or third axis is empty. *)
Lemma window_empty (a : array3) (x0 x1 y0 y1 z0 z1 : nat) :
  y0 = y1 \/ z0 = z1 -> window a x0 x1 y0 y1 z0 z1 = [].
Proof.
intros H. unfold window. apply concat_all_nil.
intros r Hr. apply in_map_iff in Hr. destruct Hr as (plane & <- & _).
apply concat_all_nil. intros r Hr. apply in_map_iff in Hr.
destruct Hr as (row & <- & Hrow). unfold slice in *.
destruct H as [-> | ->].
- rewrite Nat.sub_diag in Hrow. destruct Hrow.
- now rewrite Nat.sub_diag.
Qed.

(** [process_block] under Python 2 as one loop over the interior
    voxels. *)
Lemma process_block_flat_loop (dt : id_dtype) (edges arr : array3)
      (s0 s1 s2 : nat) :
  stencil_odd (s0, s1, s2) = true ->
  process_block Python2 dt edges arr (s0, s1, s2)
    = let '(n0, n1, n2) := shape3 arr in
      for_each (interior (s0, s1, s2) n0 n1 n2)
        (fun p out =>
           let '(x, y, z) := p in
           e <- getitem3 edges x y z ;;
           if e =? 0 then Ok out
           else
             center_id <- getitem3 arr x y z ;;
             k <- kernel dt (block_window_at arr (s0, s1, s2) x y z)
                         center_id ;;
             setitem3 out x y z k)
        (zeros3 n0 n1 n2).
Proof.
intros Hodd. unfold process_block. rewrite Hodd. cbv [negb].
destruct (shape3 arr) as [[n0 n1] n2].
exact (nested_loops
         (fun x y z out =>
            e <- getitem3 edges x y z ;;
            if e =? 0 then Ok out
            else
              center_id <- getitem3 arr x y z ;;
              k <- kernel dt (block_window_at arr (s0, s1, s2) x y z)
                          center_id ;;
              setitem3 out x y z k)
         _ _ _ _).
Qed.

(** Under Python 3 the offsets are floats, and [range] refuses them. *)
Lemma process_block_python3 (dt : id_dtype) (edges arr : array3)
      (st : stencil_t) :
  stencil_odd st = true ->
  process_block Python3 dt edges arr st = Raise TypeError.
Proof.
intros Hodd. unfold process_block. destruct st as [[s0 s1] s2].
rewrite Hodd. cbv [negb]. now destruct (shape3 arr) as [[n0 n1] n2].
Qed.

Lemma fixture_shapes :
  has_shape Fixtures.arr_two_ids 7 7 3 /\ has_shape Fixtures.edges_center 7 7 3.
Proof.
split; (split; [reflexivity|]); intros x Hx;
  (split;
   [do 7 (destruct x as [|x]; [reflexivity|]); lia
   |intros y Hy;
    do 7 (destruct x as [|x];
          [do 7 (destruct y as [|y]; [reflexivity|]); lia|]); lia]).
Qed.

End GridFacts.

(** ** The merge dictionary *)

Module MergeDictFacts.
Import Np ArrayFacts DictFacts LoopFacts ObjectExtraction.
Import GraphFacts BfsFacts MergeFacts.

Lemma set_rep_loop_md (rep : Z) (l : list Z) (md md' : list (Z * Z))
      (ml ml' : list Z) :
  (forall id, In id l -> 0 <= id < Z.of_nat (length ml)) ->
  for_each l (set_rep rep) (md, ml) = Ok (md', ml') ->
  forall id, Dict.get Z.eqb md' id
             = if mem id l then Ok rep else Dict.get Z.eqb md id.
Proof.
revert md ml. induction l as [|x l IH]; intros md ml Hl E id.
- simpl in E. injection E as <- <-. reflexivity.
- assert (Hx : 0 <= x < Z.of_nat (length ml)) by (apply Hl; now left).
  cbn [for_each] in E. unfold set_rep at 1 in E. unfold setitem in E.
  rewrite norm_index_range in E by assumption. cbn [bind] in E.
  rewrite (IH _ _ (fun id' H => eq_ind_r (fun n => 0 <= id' < Z.of_nat n)
                                 (Hl id' (or_intror H))
                                 (update_length (Z.to_nat x) rep ml)) E id).
  unfold mem. simpl existsb. fold (mem id l).
  destruct (Z.eqb_spec id x) as [->|Hne]; simpl.
  + destruct (mem x l); [reflexivity|].
    apply (get_set_same Z.eqb Z_eqb_spec).
  + destruct (mem id l); [reflexivity|].
    apply (get_set_other Z.eqb Z_eqb_spec). congruence.
Qed.

Lemma for_each_cases_inv {A S : Type} (P : S -> Prop)
      (body : A -> S -> result S) (e : exn) (xs : list A) (s : S) :
  (forall x s, P s ->
     (exists s', body x s = Ok s' /\ P s') \/ body x s = Raise e) ->
  P s ->
  (exists s', for_each xs body s = Ok s' /\ P s') \/
  for_each xs body s = Raise e.
Proof.
intros H. revert s. induction xs as [|x xs IH]; intros s Hs; simpl.
- left. eauto.
- destruct (H x s Hs) as [(s' & E & Hs')|E]; rewrite E; simpl.
  + now apply IH.
  + now right.
Qed.

Lemma norm_index_cases (len : nat) (i : Z) :
  (exists n, norm_index len i = Ok n /\ (n < len)%nat) \/
  norm_index len i = Raise IndexError.
Proof.
unfold norm_index.
destruct (Z.leb_spec 0 i); destruct (Z.ltb_spec i (Z.of_nat len)); simpl.
- left. eexists. split; [reflexivity | lia].
- destruct (Z.leb_spec (- Z.of_nat len) i); destruct (Z.ltb_spec i 0);
    simpl; try (now right); lia.
- destruct (Z.leb_spec (- Z.of_nat len) i); destruct (Z.ltb_spec i 0);
    simpl; try (now right). left. eexists. split; [reflexivity | lia].
- destruct (Z.leb_spec (- Z.of_nat len) i); destruct (Z.ltb_spec i 0);
    simpl; try (now right). left. eexists. split; [reflexivity | lia].
Qed.

(** One assignment keeps the length of the merge list, or raises
    [IndexError]. *)
Lemma set_rep_cases (rep id : Z) (L : nat) (st : list (Z * Z) * list Z) :
  length (snd st) = L ->
  (exists st', set_rep rep id st = Ok st' /\ length (snd st') = L) \/
  set_rep rep id st = Raise IndexError.
Proof.
destruct st as [md ml]. cbn [snd]. intros Hl. unfold set_rep, setitem.
destruct (norm_index_cases (length ml) id) as [(n & E & Hn)|E]; rewrite E;
  simpl.
- left. eexists. split; [reflexivity|]. cbn [snd]. now rewrite update_length.
- now right.
Qed.

Section MergeDict.
Variable set_iter : list Z -> list Z.
Hypothesis set_iter_spec : set_iter_ok set_iter.

Lemma set_iter_In (c : list Z) (x : Z) : In x (set_iter c) <-> In x c.
Proof. apply set_iter_spec. Qed.

(** What the loop over the components does to the merge dictionary: it
    gains the ids of the components, and every entry is what the merge
    list holds for the id. *)
Lemma merge_components_md (cs : list (list Z)) (md md' : list (Z * Z))
      (ml ml' : list Z) :
  (forall c id, In c cs -> In id c -> 0 <= id < Z.of_nat (length ml)) ->
  for_each cs (merge_component set_iter) (md, ml) = Ok (md', ml') ->
  (forall id r, Dict.get Z.eqb md id = Ok r -> 0 <= id /\ remap ml id = r) ->
  (forall id r, Dict.get Z.eqb md' id = Ok r -> 0 <= id /\ remap ml' id = r) /\
  (forall id, (exists r, Dict.get Z.eqb md' id = Ok r) <->
              (exists r, Dict.get Z.eqb md id = Ok r) \/
              (exists c, In c cs /\ In id c)).
Proof.
revert md ml. induction cs as [|c cs IH]; intros md ml Hcs E HP.
- simpl in E. injection E as <- <-. split; [assumption|].
  intros id. split; [now left | intros [H|(c & [] & _)]; assumption].
- assert (Hc : forall id, In id c -> 0 <= id < Z.of_nat (length ml)).
  { intros id Hid. apply (Hcs c); [now left | assumption]. }
  destruct (merge_component_spec set_iter set_iter_spec c md ml Hc)
    as (md1 & ml1 & E1 & Hlen1 & Hmap1).
  cbn [for_each] in E. rewrite E1 in E. cbn [bind] in E.
  assert (Hmd1 : forall id, Dict.get Z.eqb md1 id
                   = if mem id (set_iter c) then Ok (hd 0 (set_iter c))
                     else Dict.get Z.eqb md id).
  { apply (set_rep_loop_md _ _ md md1 ml ml1); [|exact E1].
    intros id Hid. apply Hc. now apply (proj1 (set_iter_In c id)). }
  destruct (IH md1 ml1) as [HP' Hdom]; [| exact E | |].
  { intros c' id Hc' Hid. rewrite Hlen1. apply (Hcs c'); [now right | assumption]. }
  { intros id r Hget. rewrite Hmd1 in Hget.
    destruct (mem id (set_iter c)) eqn:Em.
    - injection Hget as <-. apply mem_In in Em. apply (proj1 (set_iter_In c id)) in Em.
      pose proof (Hc id Em). split; [lia|]. apply Hmap1; [lia | assumption].
    - apply mem_false in Em.
      destruct (HP id r Hget) as [H0 Hr]. split; [assumption|].
      rewrite <- Hr. apply Hmap1; [assumption|].
      intros Hin. apply Em. now apply (proj2 (set_iter_In c id)). }
  split; [assumption|].
  intros id. rewrite Hdom, Hmd1. split.
  + intros [[r Hr]|(c' & Hc' & Hid)].
    * destruct (mem id (set_iter c)) eqn:Em.
      -- right. exists c. split; [now left|].
         apply mem_In in Em. now apply (proj1 (set_iter_In c id)).
      -- left. eauto.
    * right. exists c'. split; [now right | assumption].
  + intros [[r Hr]|(c' & [<-|Hc'] & Hid)].
    * left. destruct (mem id (set_iter c)); eauto.
    * left. assert (Em : mem id (set_iter c) = true)
        by (apply mem_In; now apply (proj2 (set_iter_In c id))).
      rewrite Em. eauto.
    * right. eauto.
Qed.

Lemma merge_dict_spec (es : list (Z * Z)) (max_label : Z)
      (md : list (Z * Z)) (ml : list Z) :
  ids_within 0 max_label es ->
  merge_list_for set_iter es max_label = Ok (md, ml) ->
  (forall id, mentioned es id <-> exists r, Dict.get Z.eqb md id = Ok r) /\
  (forall id r, Dict.get Z.eqb md id = Ok r -> remap ml id = r).
Proof.
intros Hes E. unfold merge_list_for in E.
set (G := from_edgelist es) in E.
assert (HG : graph_of es G) by apply from_edgelist_graph.
assert (Hadj : forall v w, In w (adj G v) -> In w (nodes G))
  by (intros v w; apply (graph_adj_nodes es G v w HG)).
assert (Hsym : forall v w, In w (adj G v) -> In v (adj G w)).
{ intros v w H. apply HG. apply edge_rel_sym. now apply HG. }
destruct (connected_components_spec set_iter set_iter_spec G Hadj Hsym)
  as (Hclass & _ & _ & Hcover).
set (cs := connected_components set_iter G) in *.
rewrite Forall_forall in Hclass.
assert (Hmen : forall c id, In c cs -> In id c -> mentioned es id).
{ intros c id Hc Hid. apply HG. apply (class_nodes G Hadj c); auto. }
destruct (merge_components_md cs [] md (arange (max_label + 1)) ml)
  as [HP Hdom]; [| exact E | |].
{ intros c id Hc Hid. rewrite arange_length.
  pose proof (mentioned_within 0 max_label es id Hes (Hmen c id Hc Hid)).
  lia. }
{ intros id r H. discriminate. }
split.
- intros id. rewrite Hdom. split.
  + intros Hm. right. apply HG in Hm. now apply Hcover.
  + intros [[r Hr]|(c & Hc & Hid)]; [discriminate | now apply (Hmen c)].
- intros id r H. now apply HP.
Qed.

(** An id of an edge that lies above [max_label] stops the loop over the
    components with [IndexError]. *)
Lemma merge_list_for_raises (es : list (Z * Z)) (max_label id : Z) :
  mentioned es id -> 0 <= id -> max_label < id ->
  merge_list_for set_iter es max_label = Raise IndexError.
Proof.
intros Hm H0 Hid. unfold merge_list_for.
set (G := from_edgelist es).
assert (HG : graph_of es G) by apply from_edgelist_graph.
assert (Hadj : forall v w, In w (adj G v) -> In w (nodes G))
  by (intros v w; apply (graph_adj_nodes es G v w HG)).
assert (Hsym : forall v w, In w (adj G v) -> In v (adj G w)).
{ intros v w H. apply HG. apply edge_rel_sym. now apply HG. }
destruct (connected_components_spec set_iter set_iter_spec G Hadj Hsym)
  as (_ & _ & _ & Hcover).
destruct (Hcover id (proj2 (proj1 HG id) Hm)) as (c & Hc & Hin).
set (L := length (arange (max_label + 1))).
assert (HL : Z.of_nat L <= id).
{ subst L. rewrite arange_length. lia. }
apply (AllocMoreFacts.for_each_raise_inv
         (fun st : list (Z * Z) * list Z => length (snd st) = L)
         (merge_component set_iter) IndexError _ c); [|assumption| |reflexivity].
- intros c' st _ Hst. unfold merge_component.
  apply (for_each_cases_inv
           (fun st : list (Z * Z) * list Z => length (snd st) = L));
    [|assumption].
  intros x s Hs. now apply set_rep_cases.
- intros st Hst. unfold merge_component.
  apply (AllocMoreFacts.for_each_raise_inv
           (fun st : list (Z * Z) * list Z => length (snd st) = L)
           (set_rep (hd 0 (set_iter c))) IndexError _ id);
    [| now apply (proj2 (set_iter_In c id)) | | assumption].
  + intros x s _ Hs. now apply set_rep_cases.
  + intros [md ml] Hs. cbn [snd] in Hs. unfold set_rep, setitem.
    rewrite norm_index_above by lia. reflexivity.
Qed.

End MergeDict.

End MergeDictFacts.

(** * Properties of block_processing.py *)

Module BlockProcessingSpec.
Import Np NpFacts BlockProcessing KernelFacts WindowFacts.

(** C4, as the code has it: for every window that is not empty and every
    center id, [kernel] returns 0 when the window holds no id other than
    background and the center id.  Otherwise there is an id [b] of the
    window, other than background and the center id, that no other such
    id outnumbers, and [kernel] shifts the smaller of the center id [a]
    and [b] by 32 bits and adds the larger.  On the ids of a [uint64]
    array that raises [TypeError].  On the ids of every other integer
    array the two operations are those of [int64] and wrap around: the
    result is [(min(a,b) << 32) + max(a,b)] when the smaller id is below
    [2^31] and the larger below [2^32], and for ids below [2^32] it is
    that number as soon as it is stored in the [uint64] output. *)
Theorem kernel_key (dt : id_dtype) (chunk : list Z) (center_id : Z) :
  chunk <> [] ->
  ((forall y, In y chunk -> y = 0 \/ y = center_id) ->
   kernel dt chunk center_id = Ok 0)
  /\
  ((exists y, In y chunk /\ y <> 0 /\ y <> center_id) ->
   exists b,
     In b chunk /\ b <> 0 /\ b <> center_id /\
     (forall y, In y chunk -> y <> 0 -> y <> center_id ->
                count y chunk <= count b chunk) /\
     kernel dt chunk center_id =
       match dt with
       | np_uint64 => Raise TypeError
       | np_int64 =>
           Ok (wrap_int64 (wrap_int64 (Z.shiftl (Z.min center_id b) 32)
                           + Z.max center_id b))
       end /\
     (dt = np_int64 ->
      0 <= Z.min center_id b < 2 ^ 31 -> 0 <= Z.max center_id b < 2 ^ 32 ->
      kernel dt chunk center_id =
        Ok (Z.shiftl (Z.min center_id b) 32 + Z.max center_id b)) /\
     (dt = np_int64 ->
      0 <= center_id < 2 ^ 32 -> 0 <= b < 2 ^ 32 ->
      exists k,
        kernel dt chunk center_id = Ok k /\
        as_uint64 k = Z.shiftl (Z.min center_id b) 32 + Z.max center_id b)).
Proof.
intros Hne.
destruct (kernel_cases dt chunk center_id Hne)
  as [[Hk Hall]|(b & Hk & Hb & Hb0 & Hbc & Hmax)]; split.
- intros _. exact Hk.
- intros (y & Hy & Hy0 & Hyc). destruct (Hall y Hy); contradiction.
- intros Hall. destruct (Hall b Hb); contradiction.
- intros _. exists b. repeat split; auto.
  + intros y Hy Hy0 Hyc. now apply Hmax.
  + rewrite Hk, pair_key_min_max. now destruct dt.
  + intros -> Hlo Hhi. rewrite Hk. now apply pair_key_exact.
  + intros -> Hc Hb32. rewrite Hk. now apply pair_key_stored.
Qed.

Lemma kernel_key_witness :
  [1; 2; 2; 3; 0] <> [] /\
  (exists y, In y [1; 2; 2; 3; 0] /\ y <> 0 /\ y <> 1) /\
  exists b,
    In b [1; 2; 2; 3; 0] /\ b <> 0 /\ b <> 1 /\
    (forall y, In y [1; 2; 2; 3; 0] -> y <> 0 -> y <> 1 ->
               count y [1; 2; 2; 3; 0] <= count b [1; 2; 2; 3; 0]) /\
    kernel np_int64 [1; 2; 2; 3; 0] 1
      = Ok (wrap_int64 (wrap_int64 (Z.shiftl (Z.min 1 b) 32) + Z.max 1 b)).
Proof.
assert (H : exists y, In y [1; 2; 2; 3; 0] /\ y <> 0 /\ y <> 1).
{ exists 2. simpl. repeat split; [tauto | lia | lia]. }
split; [discriminate|]. split; [exact H|].
destruct (kernel_key np_int64 [1; 2; 2; 3; 0] 1) as [_ Hkey];
  [discriminate|].
destruct (Hkey H) as (b & Hb & Hb0 & Hb1 & Hmax & Hk & _).
exists b. auto.
Defined.

(** The outcomes on concrete windows. *)
Example kernel_key_examples :
  kernel np_int64 [1; 1; 0; 0] 1 = Ok 0 /\
  kernel np_int64 [1; 2; 2; 3; 0] 1 = Ok (Z.shiftl 1 32 + 2) /\
  kernel np_int64 [7; 7; 2; 0] 7 = Ok (Z.shiftl 2 32 + 7) /\
  kernel np_uint64 [1; 1; 0; 0] 1 = Ok 0.
Proof. repeat split. Qed.

(** C4 as stated fails in three ways.  The empty window holds no id other
    than background and the center id, and [kernel] raises instead of
    returning 0.  Two ids of an [int64] array of which the smaller is not
    below [2^31] get a key that has wrapped around.  Two ids of a
    [uint64] array get no key at all. *)
Lemma kernel_not_always_key :
  ((forall y, In y [] -> y = 0 \/ y = 7) /\
   kernel np_int64 [] 7 = Raise ValueError /\
   kernel np_uint64 [] 7 = Raise ValueError) /\
  (kernel np_int64 [4294967294; 4294967295] 4294967294
     = Ok (-4294967297) /\
   Z.shiftl (Z.min 4294967294 4294967295) 32 + Z.max 4294967294 4294967295
     = 18446744069414584319) /\
  kernel np_uint64 [1; 2] 1 = Raise TypeError.
Proof.
repeat split. intros y [].
Qed.



(** The key that wins the tie above is built from id 3, not from id 5;
    on a [uint64] window the same id is chosen, and shifting it fails. *)
Example kernel_tie_example :
  kernel np_int64 [9; 5; 3; 5; 3; 0] 9 = Ok (Z.shiftl 3 32 + 9) /\
  pair_key np_int64 9 3 = Ok (Z.shiftl 3 32 + 9) /\
  pair_key np_int64 9 5 = Ok (Z.shiftl 5 32 + 9) /\
  kernel np_uint64 [9; 5; 3; 5; 3; 0] 9 = Raise TypeError.
Proof. repeat split. Qed.

(** C6: on the default stencil (7, 7, 3), with the centre voxel flagged
    and the only other id in the last row of the stencil window,
    [process_block] finds no partner where [process_block_nonzero] finds
    id 2: its window stops one short on the second and third axis.  That
    is Python 2 on an [int64] label array; on a [uint64] label array
    [process_block] finds no partner either, and [process_block_nonzero]
    fails when it shifts the partner it found; under Python 3
    [process_block] fails before it looks at a voxel. *)
Theorem process_block_window_truncated :
  (exists out out_nz,
     process_block Python2 np_int64 Fixtures.edges_center
                   Fixtures.arr_two_ids (7, 7, 3)%nat = Ok out /\
     process_block_nonzero np_int64 Fixtures.edges_center
                           Fixtures.arr_two_ids (7, 7, 3)%nat = Ok out_nz /\
     get3 out 3 3 1 = 0 /\
     get3 out_nz (3 - 3) (3 - 3) (1 - 1) = Z.shiftl 1 32 + 2) /\
  (exists out,
     process_block Python2 np_uint64 Fixtures.edges_center
                   Fixtures.arr_two_ids (7, 7, 3)%nat = Ok out /\
     get3 out 3 3 1 = 0 /\
     process_block_nonzero np_uint64 Fixtures.edges_center
                           Fixtures.arr_two_ids (7, 7, 3)%nat
       = Raise TypeError) /\
  (forall dt,
     process_block Python3 dt Fixtures.edges_center Fixtures.arr_two_ids
                   (7, 7, 3)%nat = Raise TypeError).
Proof.
split; [|split].
- eexists. eexists. split; [vm_compute; reflexivity|].
  split; [vm_compute; reflexivity|].
  split; reflexivity.
- eexists. split; [vm_compute; reflexivity|].
  split; reflexivity.
- intros dt. reflexivity.
Qed.

(** The windows the two functions hand to [kernel] for the voxel
    (3, 3, 1): 7 x 6 x 2 cells against 7 x 7 x 3. *)
Example process_block_window_sizes :
  length (window Fixtures.arr_two_ids (3 - 3) (3 + 3 + 1) (3 - 3) (3 + 3)
                 (1 - 1) (1 + 1)) = 84%nat /\
  length (window Fixtures.arr_two_ids 0 (0 + 7) 0 (0 + 7) 0 (0 + 3))
    = 147%nat.
Proof. split; reflexivity. Qed.

End BlockProcessingSpec.

(** * Properties of objectextraction.py: overlap and thresholds *)

Module OverlapSpec.
Import ObjectExtraction OverlapFacts.



(** Lists of sigmas of different lengths are no array of numbers:
    [np.max] raises before an overlap is computed. *)
Example auto_overlap_ragged :
  gtcc_overlap ["sj"; "vc"] OverlapAuto (Some [[1]; [2; 3]]%Q)
               (Some [1 # 2; 1 # 2]%Q) = Raise ValueError.
Proof. reflexivity. Qed.

(** The same input evaluated: sigmas up to 2 give an overlap of 9. *)
Example auto_overlap_example :
  gtcc_overlap ["sj"; "vc"] OverlapAuto
               (Some [[1 # 2; 3 # 4; 1]; [2; 2; 11 # 10]]%Q)
               (Some [1 # 2; 1 # 2]%Q) = Ok ((9, 9, 9), (1, 1, 1)).
Proof. reflexivity. Qed.

(** Without sigmas the overlap is the stitch overlap alone. *)
Example auto_overlap_no_sigmas :
  gtcc_overlap ["sj"; "vc"] OverlapAuto None None
    = Ok ((1, 1, 1), (1, 1, 1)).
Proof. reflexivity. Qed.

(** C10: when the first threshold is at most 1, every threshold is
    multiplied by 255, also one that is itself above 1; when the first
    threshold is above 1, none is changed. *)
Theorem thresholds_rescaled_by_first (t0 : Q) (rest : list Q) :
  ((t0 <= 1)%Q ->
   rescale_thresholds (Some (t0 :: rest)) =
     Ok (Some (map (fun t => (t * 255)%Q) (t0 :: rest))))
  /\
  ((1 < t0)%Q ->
   rescale_thresholds (Some (t0 :: rest)) = Ok (Some (t0 :: rest))).
Proof.
unfold rescale_thresholds. split; intros H.
- apply Qle_bool_iff in H. now rewrite H.
- destruct (Qle_bool t0 1) eqn:E; [|reflexivity].
  apply Qle_bool_iff in E. exfalso. now apply (Qlt_not_le _ _ H).
Qed.

Lemma thresholds_rescaled_by_first_witness :
  ((1 # 2) <= 1)%Q /\
  rescale_thresholds (Some [1 # 2; 3]%Q) =
    Ok (Some (map (fun t => (t * 255)%Q) [1 # 2; 3]%Q)).
Proof.
split; [discriminate|].
apply (thresholds_rescaled_by_first (1 # 2) [3%Q]). discriminate.
Defined.

(** A first threshold above 1 leaves the list alone; one at most 1 scales
    also the entry that is above 1. *)
Example thresholds_examples :
  rescale_thresholds (Some [128; 1 # 2]%Q) = Ok (Some [128; 1 # 2]%Q) /\
  rescale_thresholds (Some [1 # 2; 3]%Q) = Ok (Some [(1 # 2) * 255; 3 * 255]%Q) /\
  rescale_thresholds None = Ok None.
Proof. repeat split. Qed.

End OverlapSpec.

(** * Properties of ssd_proc.py *)

Module SsdProcSpec.
Import SsdProc SsdProcJobs DecisionFacts.

(** C9, as the code has it: nothing in the loop checks [ratio_0] before
    the division, and for an object of type "sj" whose segmentation
    object is mapped to background with ratio 1 the divisor
    [1 - ratio_0] is 0.  The division is one of NumPy floats and raises
    nothing: the correction succeeds, and the ratio of such an object
    becomes [inf] when it was positive, [-inf] when it was negative and
    [nan] when it was 0. *)
Theorem background_correction_divides_by_zero
        (ids : list Z) (obj_ratios : list float) (load : Z -> so_attrs) :
  (length ids <= length obj_ratios)%nat ->
  (forall i, (i < length ids)%nat ->
             ObjectExtraction.mem 0 (mapping_ids (load (nth i ids 0))) = true ->
             exists r0, ratio_0 (load (nth i ids 0)) = Some r0) ->
  exists rs,
    correct_ratios "sj" ids obj_ratios load = Ok rs /\
    length rs = length obj_ratios /\
    (forall i r0 r,
       (i < length ids)%nat ->
       ratio_0 (load (nth i ids 0)) = Some r0 -> (r0 == 1)%Q ->
       nth_error obj_ratios i = Some (Fin r) ->
       ((0 < r)%Q -> nth_error rs i = Some PInf) /\
       ((r < 0)%Q -> nth_error rs i = Some NInf) /\
       ((r == 0)%Q -> nth_error rs i = Some NaN)).
Proof.
intros Hlen Hbg.
destruct (correct_ratios_sj ids obj_ratios load Hlen Hbg)
  as (rs & E & Hl & Hmid & _).
exists rs. split; [assumption|]. split; [assumption|].
intros i r0 r Hi H0 H1 Hr.
assert (Hi' : (i < length rs)%nat) by lia.
assert (Hn : nth i rs NaN = divide (Fin r) (1 - r0)).
{ rewrite (Hmid i Hi). unfold corrected_ratio. rewrite H0.
  now rewrite (nth_error_nth _ _ NaN Hr). }
rewrite (nth_error_nth' rs NaN Hi'), Hn.
assert (Hd : (1 - r0 == 0)%Q) by (rewrite H1; reflexivity).
destruct (divide_zero r (1 - r0) Hd) as (Hp & Hm & Hz).
repeat split; intros Hr'; f_equal; auto.
Qed.

Lemma background_correction_divides_by_zero_witness :
  (length [42] <= length [Fin (1 # 2)])%nat /\
  exists rs,
    correct_ratios "sj" [42] [Fin (1 # 2)] (fun _ => Fixtures.so_background)
      = Ok rs /\
    nth_error rs 0 = Some PInf.
Proof.
split; [simpl; lia|].
destruct (background_correction_divides_by_zero
            [42] [Fin (1 # 2)] (fun _ => Fixtures.so_background))
  as (rs & E & _ & Hzero).
- simpl; lia.
- intros i _ _. exists 1%Q. reflexivity.
- exists rs. split; [exact E|].
  destruct (Hzero 0%nat 1%Q (1 # 2)%Q) as [Hp _];
    [simpl; lia | reflexivity | reflexivity | reflexivity|].
  apply Hp. reflexivity.
Defined.

(** C9 as stated fails: on the object it names, with background ratio 1,
    the division by zero is no error.  The correction returns the ratio
    [inf], the decision that follows keeps the object, and no run of the
    correction ends in an arithmetic error. *)
Lemma background_correction_no_error :
  ratio_0 Fixtures.so_background = Some 1%Q /\
  correct_ratios "sj" [42] [Fin (1 # 2)] (fun _ => Fixtures.so_background)
    = Ok [PInf] /\
  apply_mapping_decision "sj" [42] [Fin (1 # 2)]
    (fun _ => Fixtures.so_background) (4 # 5) 1 10 (fun _ => 50) = Ok [42] /\
  (forall ids obj_ratios load,
     correct_ratios "sj" ids obj_ratios load <> Raise ZeroDivision).
Proof.
split; [reflexivity|]. split; [reflexivity|]. split; [reflexivity|].
intros ids obj_ratios load. rewrite correct_ratios_unfold.
simpl String.eqb. cbv iota.
destruct (CollectFacts.for_each_cases (correction_body ids load) IndexError
            (BlockProcessing.range 0 (length ids)) obj_ratios) as [[rs E]|E].
- intros i rs _. apply correction_body_cases.
- rewrite E. discriminate.
- rewrite E. discriminate.
Qed.

(** Other object types skip the correction. *)
Example no_correction_for_other_types :
  correct_ratios "vc" [42] [Fin (1 # 2)] (fun _ => Fixtures.so_background)
    = Ok [Fin (1 # 2)].
Proof. reflexivity. Qed.

End SsdProcSpec.

(** * Properties of objectextraction.py: global id allocation *)

Module AllocationSpec.
Import Np ArrayFacts DictFacts LoopFacts ObjectExtraction BasesFacts.
Import PrefixBasesFacts CountTableFacts TranslatorFacts AllocateFacts.

Local Abbreviation sget := (Dict.get String.eqb).

(** C2, as the code has it: when the counts of a name are not negative
    and their total fits the [int32] arrays, the bases of that name are
    the exclusive prefix sum of the counts in chunk-list order (the first
    base is 0 and consecutive bases differ by the count between them);
    they never decrease, and increase strictly across a chunk that has
    objects; [max_labels] is the total; and identical counts give
    identical bases. *)
Theorem bases_are_prefix_sums
        (hdf5names : list string) (chunk_list : list Z) (tr : translator)
        (cc_info_list : list cc_info) (a : allocation)
        (h : string) (counts : list Z) :
  allocate hdf5names chunk_list tr cc_info_list = Ok a ->
  In h hdf5names ->
  sget (nb_cc_dict a) h = Ok counts ->
  counts_fit counts ->
  exists bases,
    sget (max_nb_dict a) h = Ok bases /\
    length bases = length chunk_list /\
    length counts = length chunk_list /\
    nth 0 bases 0 = 0 /\
    (forall i, (S i < length chunk_list)%nat ->
               nth (S i) bases 0 - nth i bases 0 = nth i counts 0) /\
    (forall i j, (i <= j < length chunk_list)%nat ->
                 nth i bases 0 <= nth j bases 0) /\
    (forall i, (S i < length chunk_list)%nat -> 0 < nth i counts 0 ->
               nth i bases 0 < nth (S i) bases 0) /\
    sget (max_labels a) h = Ok (total counts) /\
    (forall tr' cc_info_list' a',
        allocate hdf5names chunk_list tr' cc_info_list' = Ok a' ->
        sget (nb_cc_dict a') h = Ok counts ->
        sget (max_nb_dict a') h = Ok bases).
Proof.
intros Ha Hh Ec Hfit.
destruct (allocate_inv _ _ _ _ _ Ha) as [Hct [Hwf Hb]].
destruct (Hb h counts Hh Ec Hfit) as [Eb Et]. cbn [fst snd] in *.
destruct (count_table_inv _ _ _ _ _ Hct) as [Hwfc _].
destruct (wf_table_name _ _ _ _ _ Hwfc Ec) as [_ Hlen].
exists (exclusive_prefix_sum 0 counts).
split; [assumption|].
split; [now rewrite eps_length|].
split; [assumption|].
split; [destruct counts; reflexivity|].
split; [intros i Hi; rewrite eps_step by lia; lia|].
split; [intros i j Hij; apply eps_mono; [apply Hfit | lia]|].
split; [intros i Hi Hpos; rewrite eps_step by lia; lia|].
split; [assumption|].
intros tr' l' a' Ha' Ec'.
destruct (allocate_inv _ _ _ _ _ Ha') as [_ [_ Hb']].
now destruct (Hb' h counts Hh Ec' Hfit) as [Eb' _].
Qed.

Lemma bases_are_prefix_sums_witness :
  allocate ["sj"] [10; 11; 12] (make_translator [10; 11; 12])
           [(10, "sj", 3); (12, "sj", 2); (11, "sj", 0)]
    = Ok {| nb_cc_dict := [("sj", [3; 0; 2])];
            max_nb_dict := [("sj", [0; 3; 3])];
            max_labels := [("sj", 5)] |} /\
  counts_fit [3; 0; 2] /\
  exists bases,
    sget [("sj", [0; 3; 3])] "sj" = Ok bases /\
    length bases = length [10; 11; 12] /\
    length [3; 0; 2] = length [10; 11; 12] /\
    nth 0 bases 0 = 0 /\
    (forall i, (S i < length [10; 11; 12])%nat ->
               nth (S i) bases 0 - nth i bases 0 = nth i [3; 0; 2] 0) /\
    (forall i j, (i <= j < length [10; 11; 12])%nat ->
                 nth i bases 0 <= nth j bases 0) /\
    (forall i, (S i < length [10; 11; 12])%nat -> 0 < nth i [3; 0; 2] 0 ->
               nth i bases 0 < nth (S i) bases 0) /\
    sget [("sj", 5)] "sj" = Ok (total [3; 0; 2]) /\
    (forall tr' cc_info_list' a',
        allocate ["sj"] [10; 11; 12] tr' cc_info_list' = Ok a' ->
        sget (nb_cc_dict a') "sj" = Ok [3; 0; 2] ->
        sget (max_nb_dict a') "sj" = Ok bases).
Proof.
split; [reflexivity|].
split; [split; [repeat constructor; lia | reflexivity]|].
apply (bases_are_prefix_sums
         ["sj"] [10; 11; 12] (make_translator [10; 11; 12])
         [(10, "sj", 3); (12, "sj", 2); (11, "sj", 0)]
         {| nb_cc_dict := [("sj", [3; 0; 2])];
            max_nb_dict := [("sj", [0; 3; 3])];
            max_labels := [("sj", 5)] |}
         "sj" [3; 0; 2]).
- reflexivity.
- simpl; tauto.
- reflexivity.
- split; [repeat constructor; lia | reflexivity].
Defined.

(** C2 as stated fails twice: a chunk without objects repeats the base of
    its successor, and counts whose total passes [2^31 - 1] wrap around in
    the [int32] arrays. *)
Lemma bases_not_strict_and_wrap :
  (exists a,
      allocate ["sj"] [0; 1] (make_translator [0; 1])
               [(0, "sj", 0); (1, "sj", 5)] = Ok a /\
      sget (nb_cc_dict a) "sj" = Ok [0; 5] /\
      sget (max_nb_dict a) "sj" = Ok [0; 0] /\
      ~ (nth 0 [0; 0] 0 < nth 1 [0; 0] 0))
  /\
  (exists a,
      allocate ["sj"] [0; 1; 2] (make_translator [0; 1; 2])
               [(0, "sj", 2147483647); (1, "sj", 1);
                (2, "sj", 2)] = Ok a /\
      sget (nb_cc_dict a) "sj" = Ok [2147483647; 1; 2] /\
      sget (max_nb_dict a) "sj" = Ok [0; 2147483647; -2147483648] /\
      nth 2 [0; 2147483647; -2147483648] 0
        - nth 1 [0; 2147483647; -2147483648] 0
        <> nth 1 [2147483647; 1; 2] 0).
Proof.
split; eexists; (split; [vm_compute; reflexivity|]);
  (split; [reflexivity|]); (split; [reflexivity|]); simpl; lia.
Qed.

(** C3, as the code has it: when the records that were collected are well
    formed and one chunk of the chunk list has no record for a name, the
    allocation still returns; it leaves the count of that chunk at 0 and
    gives exactly the result it gives when the chunk reports zero
    objects.  No missing chunk is reported. *)
Theorem missing_chunk_counts_as_zero
        (hdf5names : list string) (chunk_list : list Z)
        (results : list (list cc_info)) (c : Z) (h : string) :
  chunk_list <> [] ->
  Forall (wf_info hdf5names chunk_list) (results_as_list results) ->
  In c chunk_list -> In h hdf5names ->
  (forall v, ~ In (c, h, v) (results_as_list results)) ->
  exists a counts idx,
    allocate hdf5names chunk_list (make_translator chunk_list)
             (results_as_list results) = Ok a /\
    sget (nb_cc_dict a) h = Ok counts /\
    Dict.get Z.eqb (make_translator chunk_list) c = Ok idx /\
    nth idx counts 0 = 0 /\
    allocate hdf5names chunk_list (make_translator chunk_list)
             (results_as_list (results ++ [[(c, h, 0)]])) = Ok a.
Proof.
intros Hne Hwf Hc Hh Habs.
destruct (allocate_ok hdf5names chunk_list _ Hne Hwf) as (a & Ha).
destruct (allocate_inv _ _ _ _ _ Ha) as [Hct _].
destruct (count_table_absent _ _ _ _ _ _ Hct Hc Hh Habs)
  as [(counts & idx & Ec & Ei & Hz) Hct'].
exists a, counts, idx. repeat split; auto.
unfold results_as_list. rewrite concat_app.
change (concat [[(c, h, 0)]]) with [(c, h, 0)].
unfold allocate in *. unfold results_as_list in *.
rewrite Hct'. now rewrite Hct in Ha.
Qed.

Lemma missing_chunk_counts_as_zero_witness :
  Forall (wf_info ["sj"] [0; 1]) (results_as_list [[(0, "sj", 3)]]) /\
  (forall v, ~ In (1, "sj", v) (results_as_list [[(0, "sj", 3)]])) /\
  exists a counts idx,
    allocate ["sj"] [0; 1] (make_translator [0; 1])
             (results_as_list [[(0, "sj", 3)]]) = Ok a /\
    sget (nb_cc_dict a) "sj" = Ok counts /\
    Dict.get Z.eqb (make_translator [0; 1]) 1 = Ok idx /\
    nth idx counts 0 = 0 /\
    allocate ["sj"] [0; 1] (make_translator [0; 1])
             (results_as_list ([[(0, "sj", 3)]]
                                 ++ [[(1, "sj", 0)]])) = Ok a.
Proof.
assert (Hwf : Forall (wf_info ["sj"] [0; 1])
                     (results_as_list [[(0, "sj", 3)]])).
{ constructor; [|constructor]. split; simpl; tauto. }
assert (Habs : forall v, ~ In (1, "sj", v) (results_as_list [[(0, "sj", 3)]])).
{ intros v [H|[]]. discriminate. }
split; [exact Hwf|]. split; [exact Habs|].
apply (missing_chunk_counts_as_zero
         ["sj"] [0; 1] [[(0, "sj", 3)]] 1 "sj").
- discriminate.
- exact Hwf.
- simpl; tauto.
- simpl; tauto.
- exact Habs.
Defined.

(** C3 as stated fails: with the result of chunk 1 absent, the allocation
    goes ahead and chunk 1 gets the count 0 and a base of its own. *)
Lemma missing_chunk_not_reported :
  (forall v, ~ In (1, "sj", v)
                  (results_as_list [[(0, "sj", 3)]])) /\
  allocate ["sj"] [0; 1] (make_translator [0; 1])
           (results_as_list [[(0, "sj", 3)]]) =
    Ok {| nb_cc_dict := [("sj", [3; 0])];
          max_nb_dict := [("sj", [0; 3])];
          max_labels := [("sj", 3)] |}.
Proof.
split; [intros v [H|[]]; discriminate | reflexivity].
Qed.

End AllocationSpec.

(** * Properties of objectextraction.py: the merge list *)

Module MergeListSpec.
Import Np ObjectExtraction GraphFacts MergeFacts MergeNamesFacts.

Local Abbreviation sget := (Dict.get String.eqb).

Lemma ids_within_weaken (lo lo' m : Z) (es : list (Z * Z)) :
  lo' <= lo -> ids_within lo m es -> ids_within lo' m es.
Proof.
intros Hlo Hes a b Hab. destruct (Hes a b Hab). lia.
Qed.

Lemma merge_input_ok_weaken (sl : list (string * list (Z * Z)))
      (mls : list (string * Z)) (h : string) :
  merge_input_ok 1 sl mls h -> merge_input_ok 0 sl mls h.
Proof.
intros (es & m & E1 & E2 & Hids). exists es, m.
split; [assumption|]. split; [assumption|].
apply (ids_within_weaken 1); [lia | assumption].
Qed.

Lemma ids_within_Permutation (lo m : Z) (es es' : list (Z * Z)) :
  Permutation es es' -> ids_within lo m es -> ids_within lo m es'.
Proof.
intros HP Hes a b Hab. apply Hes.
apply (Permutation_in _ (Permutation_sym HP) Hab).
Qed.

(** C1, as the code has it: for every iteration order of the hash
    containers, every stitch list over ids between 1 and [max_label] gets a
    remap that sends all members of a connected component of the edge graph
    to one common id, which is itself a member of that component (the first
    id of the component's set in iteration order); every id that appears in
    no edge, background 0 included, is sent to itself; and under any
    permutation of the stitch list the same ids share a target. *)
Theorem merge_list_maps_components
        (set_iter : list Z -> list Z) (hdf5names : list string)
        (stitch_list : list (string * list (Z * Z)))
        (max_labels : list (string * Z)) :
  set_iter_ok set_iter ->
  Forall (merge_input_ok 1 stitch_list max_labels) hdf5names ->
  exists merge_dict merge_list_dict,
    make_merge_list set_iter hdf5names stitch_list max_labels
      = Ok (merge_dict, merge_list_dict) /\
    forall h es m,
      In h hdf5names -> sget stitch_list h = Ok es -> sget max_labels h = Ok m ->
      exists ml,
        sget merge_list_dict h = Ok ml /\
        (forall x y, 0 <= x <= m -> 0 <= y <= m -> connected es x y ->
                     remap ml x = remap ml y) /\
        (forall x, 0 <= x <= m -> connected es x (remap ml x)) /\
        (forall x, 0 <= x <= m -> ~ mentioned es x -> remap ml x = x) /\
        (0 <= m -> remap ml 0 = 0) /\
        (forall stitch_list' es',
            sget stitch_list' h = Ok es' -> Permutation es es' ->
            Forall (merge_input_ok 1 stitch_list' max_labels) hdf5names ->
            exists merge_dict' merge_list_dict' ml',
              make_merge_list set_iter hdf5names stitch_list' max_labels
                = Ok (merge_dict', merge_list_dict') /\
              sget merge_list_dict' h = Ok ml' /\
              forall x y, 0 <= x <= m -> 0 <= y <= m ->
                          (remap ml x = remap ml y <->
                           remap ml' x = remap ml' y)).
Proof.
intros Hiter Hall.
assert (Hall0 : Forall (merge_input_ok 0 stitch_list max_labels) hdf5names).
{ rewrite Forall_forall in *. intros h Hh. apply merge_input_ok_weaken; auto. }
destruct (make_merge_list_spec set_iter hdf5names stitch_list max_labels
                               Hiter Hall0) as (mdd & mld & E & Hentry).
exists mdd, mld. split; [assumption|].
intros h es m Hh Es Em.
destruct (Hentry h es m Hh Es Em) as (md & ml & Eml & _ & Eget).
assert (Hids : ids_within 1 m es).
{ rewrite Forall_forall in Hall.
  destruct (Hall h Hh) as (es0 & m0 & E1 & E2 & Hids).
  assert (es0 = es) by congruence. assert (m0 = m) by congruence.
  now subst. }
destruct (merge_list_spec set_iter Hiter es m
            (ids_within_weaken 1 0 m es ltac:(lia) Hids))
  as (md1 & ml1 & Eml1 & _ & Hconn & Hiff & Hself).
assert (ml1 = ml) by congruence. subst ml1.
exists ml. split; [assumption|].
split; [intros x y Hx Hy Hxy; now apply Hiff|].
split; [intros x Hx; now apply Hconn|].
split; [assumption|].
split.
{ intros Hm. apply Hself; [lia|].
  intros Hmen. pose proof (mentioned_within 1 m es 0 Hids Hmen). lia. }
intros sl' es' Es' HP Hall'.
assert (Hall0' : Forall (merge_input_ok 0 sl' max_labels) hdf5names).
{ rewrite Forall_forall in *. intros h' Hh'. apply merge_input_ok_weaken; auto. }
destruct (make_merge_list_spec set_iter hdf5names sl' max_labels Hiter Hall0')
  as (mdd' & mld' & E' & Hentry').
destruct (Hentry' h es' m Hh Es' Em) as (md' & ml' & Eml' & _ & Eget').
exists mdd', mld', ml'. split; [assumption|]. split; [assumption|].
assert (Hids' : ids_within 0 m es').
{ apply (ids_within_Permutation 0 m es es' HP).
  apply (ids_within_weaken 1); [lia | assumption]. }
destruct (merge_list_spec set_iter Hiter es' m Hids')
  as (md2 & ml2 & Eml2 & _ & _ & Hiff' & _).
assert (ml2 = ml') by congruence. subst ml2.
intros x y Hx Hy. rewrite <- (Hiff x y Hx Hy), <- (Hiff' x y Hx Hy).
split; intros H.
- now apply (connected_Permutation es es').
- apply (connected_Permutation es' es); [now apply Permutation_sym | assumption].
Qed.

Lemma merge_list_maps_components_witness :
  set_iter_ok hash_order /\
  Forall (merge_input_ok 1 [("sj", [(1, 8); (2, 3); (3, 4)])] [("sj", 9)])
         ["sj"] /\
  exists merge_dict merge_list_dict ml,
    make_merge_list hash_order ["sj"] [("sj", [(1, 8); (2, 3); (3, 4)])]
                    [("sj", 9)]
      = Ok (merge_dict, merge_list_dict) /\
    sget merge_list_dict "sj" = Ok ml /\
    (forall x y, 0 <= x <= 9 -> 0 <= y <= 9 ->
                 connected [(1, 8); (2, 3); (3, 4)] x y ->
                 remap ml x = remap ml y) /\
    (forall x, 0 <= x <= 9 ->
               connected [(1, 8); (2, 3); (3, 4)] x (remap ml x)) /\
    (forall x, 0 <= x <= 9 -> ~ mentioned [(1, 8); (2, 3); (3, 4)] x ->
               remap ml x = x).
Proof.
assert (Hin : Forall (merge_input_ok 1 [("sj", [(1, 8); (2, 3); (3, 4)])]
                                     [("sj", 9)]) ["sj"]).
{ constructor; [|constructor].
  exists [(1, 8); (2, 3); (3, 4)], 9.
  split; [reflexivity|]. split; [reflexivity|].
  intros a b [H|[H|[H|[]]]]; injection H as <- <-; lia. }
split; [exact hash_order_ok|]. split; [exact Hin|].
destruct (merge_list_maps_components
            hash_order ["sj"] [("sj", [(1, 8); (2, 3); (3, 4)])] [("sj", 9)]
            hash_order_ok Hin)
  as (md & mld & E & Hentry).
destruct (Hentry "sj" [(1, 8); (2, 3); (3, 4)] 9)
  as (ml & Eml & H1 & H2 & H3 & _); [simpl; tauto | reflexivity | reflexivity|].
exists md, mld, ml. repeat split; assumption.
Defined.

(** The merge list of that input: 1 and 8 share the target 8; 2, 3 and 4
    share the target 2; the other ids keep themselves. *)
Example merge_list_example :
  make_merge_list hash_order ["sj"] [("sj", [(1, 8); (2, 3); (3, 4)])]
                  [("sj", 9)]
    = Ok ([("sj", [(8, 8); (1, 8); (2, 2); (3, 2); (4, 2)])],
          [("sj", [0; 8; 2; 2; 2; 5; 6; 7; 8; 9])]).
Proof. reflexivity. Qed.

(** C1 as stated fails twice.  The common id is the first id of the
    component's set in iteration order, not the minimum: CPython lists the
    set {1, 8} as [8, 1], and ids 1 and 8 are both sent to 8.  And the
    remap is not the same under every permutation of the stitch list: the
    component {8, 16, 24} is sent to 8 or to 16, as the edge (8, 16) comes
    first or last. *)
Lemma merge_list_not_minimum :
  set_iter_ok hash_order /\
  (ids_within 1 8 [(1, 8)] /\
   merge_list_for hash_order [(1, 8)] 8
     = Ok ([(8, 8); (1, 8)], [0; 8; 2; 3; 4; 5; 6; 7; 8]) /\
   connected [(1, 8)] 8 1 /\
   remap [0; 8; 2; 3; 4; 5; 6; 7; 8] 8 = 8 /\
   remap [0; 8; 2; 3; 4; 5; 6; 7; 8] 1 = 8 /\
   ~ 8 <= 1)
  /\
  (Permutation [(8, 16); (16, 24)] [(16, 24); (8, 16)] /\
   (exists md ml md' ml',
       merge_list_for hash_order [(8, 16); (16, 24)] 24 = Ok (md, ml) /\
       merge_list_for hash_order [(16, 24); (8, 16)] 24 = Ok (md', ml') /\
       remap ml 8 = 8 /\ remap ml' 8 = 16)).
Proof.
split; [exact hash_order_ok|]. split.
- split.
  { intros a b [H|[]]. injection H as <- <-. lia. }
  split; [reflexivity|].
  split; [apply rt_step; right; now left|].
  split; [reflexivity|]. split; [reflexivity | lia].
- split; [apply perm_swap|].
  do 4 eexists. split; [vm_compute; reflexivity|].
  split; [vm_compute; reflexivity|]. split; reflexivity.
Qed.

(** C5: the remap of every name is idempotent on the ids from 0 to
    [max_label], so remapping labels that were remapped already changes
    nothing. *)
Theorem merge_list_idempotent
        (set_iter : list Z -> list Z) (hdf5names : list string)
        (stitch_list : list (string * list (Z * Z)))
        (max_labels : list (string * Z)) :
  set_iter_ok set_iter ->
  Forall (merge_input_ok 0 stitch_list max_labels) hdf5names ->
  exists merge_dict merge_list_dict,
    make_merge_list set_iter hdf5names stitch_list max_labels
      = Ok (merge_dict, merge_list_dict) /\
    forall h es m,
      In h hdf5names -> sget stitch_list h = Ok es -> sget max_labels h = Ok m ->
      exists ml,
        sget merge_list_dict h = Ok ml /\
        (forall x, 0 <= x <= m -> remap ml (remap ml x) = remap ml x) /\
        (forall labels,
            Forall (fun l => 0 <= l <= m) labels ->
            map (remap ml) (map (remap ml) labels) = map (remap ml) labels).
Proof.
intros Hiter Hall.
destruct (make_merge_list_spec set_iter hdf5names stitch_list max_labels
                               Hiter Hall) as (mdd & mld & E & Hentry).
exists mdd, mld. split; [assumption|].
intros h es m Hh Es Em.
destruct (Hentry h es m Hh Es Em) as (md & ml & Eml & _ & Eget).
assert (Hids : ids_within 0 m es).
{ rewrite Forall_forall in Hall.
  destruct (Hall h Hh) as (es0 & m0 & E1 & E2 & Hids).
  assert (es0 = es) by congruence. assert (m0 = m) by congruence.
  now subst. }
destruct (merge_list_spec set_iter Hiter es m Hids)
  as (md1 & ml1 & Eml1 & _ & Hconn & Hiff & _).
assert (ml1 = ml) by congruence. subst ml1.
assert (Hidem : forall x, 0 <= x <= m -> remap ml (remap ml x) = remap ml x).
{ intros x Hx. destruct (Hconn x Hx) as [Hc Hr].
  symmetry. now apply Hiff. }
exists ml. split; [assumption|]. split; [assumption|].
intros labels Hl. rewrite map_map. apply map_ext_in.
intros l Hin. rewrite Forall_forall in Hl. apply Hidem. now apply Hl.
Qed.

Lemma merge_list_idempotent_witness :
  set_iter_ok insertion_order /\
  Forall (merge_input_ok 0 [("sj", [(1, 8); (2, 3); (3, 4)]); ("vc", [(0, 2)])]
                         [("sj", 9); ("vc", 2)]) ["sj"; "vc"] /\
  exists merge_dict merge_list_dict ml,
    make_merge_list insertion_order ["sj"; "vc"]
                    [("sj", [(1, 8); (2, 3); (3, 4)]); ("vc", [(0, 2)])]
                    [("sj", 9); ("vc", 2)]
      = Ok (merge_dict, merge_list_dict) /\
    sget merge_list_dict "sj" = Ok ml /\
    (forall x, 0 <= x <= 9 -> remap ml (remap ml x) = remap ml x).
Proof.
assert (Hin : Forall (merge_input_ok 0
                        [("sj", [(1, 8); (2, 3); (3, 4)]); ("vc", [(0, 2)])]
                        [("sj", 9); ("vc", 2)]) ["sj"; "vc"]).
{ constructor; [|constructor; [|constructor]].
  - exists [(1, 8); (2, 3); (3, 4)], 9.
    split; [reflexivity|]. split; [reflexivity|].
    intros a b [H|[H|[H|[]]]]; injection H as <- <-; lia.
  - exists [(0, 2)], 2.
    split; [reflexivity|]. split; [reflexivity|].
    intros a b [H|[]]; injection H as <- <-; lia. }
split; [exact insertion_order_ok|]. split; [exact Hin|].
destruct (merge_list_idempotent
            insertion_order ["sj"; "vc"]
            [("sj", [(1, 8); (2, 3); (3, 4)]); ("vc", [(0, 2)])]
            [("sj", 9); ("vc", 2)] insertion_order_ok Hin)
  as (md & mld & E & Hentry).
destruct (Hentry "sj" [(1, 8); (2, 3); (3, 4)] 9)
  as (ml & Eml & H1 & _); [simpl; tauto | reflexivity | reflexivity|].
exists md, mld, ml. repeat split; assumption.
Defined.

(** The same input evaluated; with insertion order the first id met is the
    target. *)
Example merge_list_idempotent_example :
  make_merge_list insertion_order ["sj"; "vc"]
                  [("sj", [(1, 8); (2, 3); (3, 4)]); ("vc", [(0, 2)])]
                  [("sj", 9); ("vc", 2)]
    = Ok ([("sj", [(1, 1); (8, 1); (2, 2); (3, 2); (4, 2)]);
           ("vc", [(0, 0); (2, 0)])],
          [("sj", [0; 1; 2; 2; 2; 5; 6; 7; 1; 9]); ("vc", [0; 1; 0])]).
Proof. reflexivity. Qed.

End MergeListSpec.

(** * Further properties of ssd_proc.py *)

Module SsdProcJobsSpec.
Import Py PyFacts SelectFacts BatchFacts DecisionFacts SsdProc SsdProcJobs.

(** X1: For a positive stride the blocks of cell ids, read one after the
    other, are the list of cell ids: every cell lands in exactly one block,
    in order. No block is empty, all blocks but the last hold [stride] ids,
    and there are [ceil(len / stride)] of them. *)
Theorem ssv_id_blocks_partition {A : Type} (ssv_ids : list A) (stride : Z) :
  0 < stride ->
  exists blocks,
    ssv_id_blocks ssv_ids stride = Ok blocks /\
    concat blocks = ssv_ids /\
    (forall b, In b blocks -> (0 < length b <= Z.to_nat stride)%nat) /\
    (forall k, (S k < length blocks)%nat ->
               length (nth k blocks []) = Z.to_nat stride) /\
    Z.of_nat (length blocks)
      = (Z.of_nat (length ssv_ids) + stride - 1) / stride.
Proof.
intros Hs. rewrite ssv_id_blocks_pos by assumption.
set (s := Z.to_nat stride).
set (n := length ssv_ids).
set (m := Z.to_nat ((Z.of_nat n + stride - 1) / stride)).
assert (Hq : 0 <= (Z.of_nat n + stride - 1) / stride)
  by (apply Z.div_pos; lia).
assert (Hup : Z.of_nat n <= Z.of_nat m * stride).
{ pose proof (Z.mod_pos_bound (Z.of_nat n + stride - 1) stride Hs).
  pose proof (Z.div_mod (Z.of_nat n + stride - 1) stride ltac:(lia)).
  subst m. rewrite Z2Nat.id by assumption. nia. }
assert (Hlow : forall k, (k < m)%nat -> (k * s < n)%nat).
{ intros k Hk.
  assert (Z.of_nat k * stride + stride <= Z.of_nat n + stride - 1).
  { pose proof (Z.mul_div_le (Z.of_nat n + stride - 1) stride Hs).
    assert (Z.of_nat k + 1 <= (Z.of_nat n + stride - 1) / stride) by lia.
    nia. }
  subst s. nia. }
assert (Hlen : forall k, (k < m)%nat ->
          length (firstn s (skipn (k * s) ssv_ids)) = Nat.min s (n - k * s)).
{ intros k Hk. now rewrite length_firstn, length_skipn. }
eexists. split; [reflexivity|].
split.
{ rewrite blocks_concat. apply firstn_all2. fold n. subst s. nia. }
split.
{ intros b Hb. apply in_map_iff in Hb. destruct Hb as (k & <- & Hk).
  apply in_seq in Hk. rewrite Hlen by lia.
  pose proof (Hlow k ltac:(lia)). subst s. lia. }
split.
{ intros k Hk. rewrite length_map, length_seq in Hk.
  rewrite (nth_indep _ [] (firstn s (skipn (0 * s) ssv_ids)))
    by (rewrite length_map, length_seq; lia).
  rewrite (map_nth (fun k => firstn s (skipn (k * s) ssv_ids))).
  rewrite seq_nth by lia. simpl (0 + k)%nat.
  rewrite Hlen by lia. pose proof (Hlow (S k) Hk). lia. }
rewrite length_map, length_seq. subst m. lia.
Qed.

Lemma ssv_id_blocks_partition_witness :
  0 < 3 /\
  exists blocks,
    ssv_id_blocks [10; 11; 12; 13; 14; 15; 16] 3 = Ok blocks /\
    concat blocks = [10; 11; 12; 13; 14; 15; 16] /\
    length blocks = 3%nat.
Proof.
split; [lia|].
destruct (ssv_id_blocks_partition [10; 11; 12; 13; 14; 15; 16] 3)
  as (blocks & E & Hc & _ & _ & Hn); [lia|].
exists blocks. split; [exact E|]. split; [exact Hc|].
apply Nat2Z.inj. rewrite Hn. reflexivity.
Defined.

(** The blocks of seven ids with stride 3. *)
Example ssv_id_blocks_example :
  ssv_id_blocks [10; 11; 12; 13; 14; 15; 16] 3
    = Ok [[10; 11; 12]; [13; 14; 15]; [16]].
Proof. reflexivity. Qed.

(** X2: A stride of 0 makes [range] raise; with a negative stride the range
    is empty and no block at all is built, whatever the cell ids are. *)
Theorem ssv_id_blocks_without_stride {A : Type} (ssv_ids : list A)
        (stride : Z) :
  (stride = 0 -> ssv_id_blocks ssv_ids stride = Raise ValueError) /\
  (stride < 0 -> ssv_id_blocks ssv_ids stride = Ok []).
Proof.
unfold ssv_id_blocks, range3. split; intros H.
- subst. reflexivity.
- destruct (Z.eqb_spec stride 0); [lia|].
  destruct (Z.ltb_spec 0 stride); [lia|].
  assert (E : (0 - Z.of_nat (length ssv_ids) - stride - 1) / - stride <= 0).
  { assert ((0 - Z.of_nat (length ssv_ids) - stride - 1) / - stride < 1);
      [|lia].
    apply Z.div_lt_upper_bound; lia. }
  replace (Z.to_nat ((0 - Z.of_nat (length ssv_ids) - stride - 1) / - stride))
    with 0%nat by lia.
  reflexivity.
Qed.

Lemma ssv_id_blocks_without_stride_witness :
  -2 < 0 /\ ssv_id_blocks [10; 11; 12] (-2) = Ok [].
Proof.
split; [lia|].
apply (ssv_id_blocks_without_stride [10; 11; 12] (-2)). lia.
Defined.

(** X3: When no background ratio equals 1, the correction for type "sj"
    succeeds and leaves numbers: the ratio of every object with a
    background mapping is divided by [1 - ratio_0], every other ratio is
    left alone, and a ratio that is not negative is never lowered when
    [0 <= ratio_0 < 1]. *)
Theorem background_correction_result (ids : list Z) (obj_ratios : list Q)
        (load : Z -> so_attrs) :
  (length ids <= length obj_ratios)%nat ->
  (forall i, (i < length ids)%nat ->
             ObjectExtraction.mem 0 (mapping_ids (load (nth i ids 0))) = true ->
             exists r0, ratio_0 (load (nth i ids 0)) = Some r0 /\
                        ~ (r0 == 1)%Q) ->
  exists rs,
    correct_ratios "sj" ids (map Fin obj_ratios) load = Ok (map Fin rs) /\
    length rs = length obj_ratios /\
    (forall i, (i < length ids)%nat ->
               nth i rs 0%Q
                 = corrected (load (nth i ids 0)) (nth i obj_ratios 0%Q)) /\
    (forall i, (length ids <= i)%nat ->
               nth i rs 0%Q = nth i obj_ratios 0%Q) /\
    (forall i, (i < length ids)%nat ->
               (0 <= nth i obj_ratios 0)%Q ->
               (forall r0, ratio_0 (load (nth i ids 0)) = Some r0 ->
                           (0 <= r0)%Q /\ (r0 < 1)%Q) ->
               (nth i obj_ratios 0 <= nth i rs 0)%Q).
Proof.
intros Hlen Hbg.
destruct (correct_ratios_sj ids (map Fin obj_ratios) load)
  as (fs & E & Hl & Hmid & Hhigh).
{ now rewrite length_map. }
{ intros i Hi Hm. destruct (Hbg i Hi Hm) as (r0 & H0 & _). eauto. }
rewrite length_map in Hl.
set (f := fun i => if (i <? length ids)%nat
                   then corrected (load (nth i ids 0)) (nth i obj_ratios 0%Q)
                   else nth i obj_ratios 0%Q).
set (rs := map f (seq 0 (length obj_ratios))).
assert (Hrs : forall i, (i < length obj_ratios)%nat -> nth i rs 0%Q = f i).
{ intros i Hi. subst rs.
  rewrite (nth_indep _ 0%Q (f 0%nat)) by now rewrite length_map, length_seq.
  rewrite (map_nth f), seq_nth by assumption. reflexivity. }
assert (Hlrs : length rs = length obj_ratios)
  by (subst rs; now rewrite length_map, length_seq).
assert (Hmid' : forall i, (i < length ids)%nat ->
          nth i rs 0%Q = corrected (load (nth i ids 0)) (nth i obj_ratios 0%Q)).
{ intros i Hi. rewrite Hrs by lia. unfold f.
  destruct (Nat.ltb_spec i (length ids)); [reflexivity | lia]. }
assert (Hhigh' : forall i, (length ids <= i)%nat ->
          nth i rs 0%Q = nth i obj_ratios 0%Q).
{ intros i Hi. destruct (Nat.lt_ge_cases i (length obj_ratios)) as [Hlt|Hge].
  - rewrite Hrs by assumption. unfold f.
    destruct (Nat.ltb_spec i (length ids)); [lia | reflexivity].
  - rewrite !nth_overflow by lia. reflexivity. }
exists rs. split.
{ rewrite E. f_equal. apply all_fin; [lia|].
  intros i Hi. rewrite Hl in Hi.
  destruct (Nat.lt_ge_cases i (length ids)) as [Hlt|Hge].
  - rewrite (Hmid i Hlt), nth_map_Fin by assumption.
    rewrite corrected_ratio_fin; [now rewrite Hmid'|].
    intros r0 H0.
    destruct (ObjectExtraction.mem 0 (mapping_ids (load (nth i ids 0))))
      eqn:Em.
    + destruct (Hbg i Hlt Em) as (r0' & H0' & Hne). congruence.
    + unfold ratio_0 in H0. rewrite Em in H0. discriminate.
  - rewrite (Hhigh i Hge), nth_map_Fin by assumption.
    now rewrite Hhigh'. }
split; [assumption|]. split; [assumption|]. split; [assumption|].
intros i Hi Hr H0. rewrite Hmid' by assumption. now apply corrected_ge.
Qed.

Lemma background_correction_result_witness :
  exists rs,
    correct_ratios "sj" [7; 8] (map Fin [1 # 4; 1 # 2]%Q)
      (fun so_id => if so_id =? 7
                    then {| mapping_ids := [3; 0];
                            mapping_ratios := [1 # 2; 1 # 2]%Q |}
                    else {| mapping_ids := [3];
                            mapping_ratios := [1%Q] |}) = Ok (map Fin rs) /\
    length rs = 2%nat.
Proof.
destruct (background_correction_result
            [7; 8] [1 # 4; 1 # 2]%Q
            (fun so_id => if so_id =? 7
                          then {| mapping_ids := [3; 0];
                                  mapping_ratios := [1 # 2; 1 # 2]%Q |}
                          else {| mapping_ids := [3];
                                  mapping_ratios := [1%Q] |}))
  as (rs & E & Hl & _).
- simpl; lia.
- intros [|[|i]] Hi Hm; simpl in *; try lia.
  exists (1 # 2)%Q. split; [reflexivity | discriminate].
- exists rs. auto.
Defined.

(** The ratio 1/4 of the object with half of it on background becomes
    1/2; the other object keeps its ratio. *)
Example background_correction_example :
  correct_ratios "sj" [7; 8] (map Fin [1 # 4; 1 # 2]%Q)
    (fun so_id => if so_id =? 7
                  then {| mapping_ids := [3; 0];
                          mapping_ratios := [1 # 2; 1 # 2]%Q |}
                  else {| mapping_ids := [3]; mapping_ratios := [1%Q] |})
    = Ok (map Fin [(1 # 4) / (1 - (1 # 2)); 1 # 2]%Q).
Proof. reflexivity. Qed.

(** X4: The mapping decision keeps exactly the ids whose ratio is above the
    lower ratio, not above the upper ratio when that is below 1, and whose
    object is larger than the size threshold. With an upper ratio of 1 or
    more no ratio is too large, not even [inf]; [nan] is above nothing. *)
Theorem mapping_decision_selects (ids : list Z) (obj_ratios : list float)
        (lower_ratio upper_ratio sizethreshold : Q) (size_of : Z -> Z) :
  length ids = length obj_ratios ->
  exists selected,
    mapping_decision ids obj_ratios lower_ratio upper_ratio sizethreshold
                     size_of = Ok selected /\
    (forall c,
       In c selected <->
       exists i r,
         nth_error ids i = Some c /\ nth_error obj_ratios i = Some r /\
         above r lower_ratio /\
         ((upper_ratio < 1)%Q -> ~ above r upper_ratio) /\
         (sizethreshold < inject_Z (size_of c))%Q) /\
    (forall c,
       In c selected <->
       exists i r,
         nth_error ids i = Some c /\ nth_error obj_ratios i = Some r /\
         match r with
         | Fin q => (lower_ratio < q)%Q /\
                    ((upper_ratio < 1)%Q -> (q <= upper_ratio)%Q)
         | PInf => (1 <= upper_ratio)%Q
         | NInf => False
         | NaN => False
         end /\
         (sizethreshold < inject_Z (size_of c))%Q).
Proof.
intros Hlen. unfold mapping_decision. rewrite Hlen, Nat.eqb_refl. simpl negb.
cbv iota. eexists. split; [reflexivity|].
assert (Hsel : forall c,
  In c (filter (fun c => negb (Qle_bool (inject_Z (size_of c)) sizethreshold))
               (select (id_mask lower_ratio upper_ratio obj_ratios) ids)) <->
  exists i r,
    nth_error ids i = Some c /\ nth_error obj_ratios i = Some r /\
    above r lower_ratio /\
    ((upper_ratio < 1)%Q -> ~ above r upper_ratio) /\
    (sizethreshold < inject_Z (size_of c))%Q).
{ intros c. rewrite filter_In, select_In. split.
  - intros [(i & Hm & Hi) Hs]. apply id_mask_nth in Hm.
    destruct Hm as (r & Hr & H1 & H2).
    exists i, r. repeat split; auto. now apply Qgt_bool.
  - intros (i & r & Hi & Hr & H1 & H2 & Hs). split.
    + exists i. split; [|assumption]. apply id_mask_nth. exists r. auto.
    + now apply Qgt_bool. }
split; [exact Hsel|].
intros c. rewrite Hsel. split.
- intros (i & r & Hi & Hr & H1 & H2 & Hs). exists i, r.
  split; [assumption|]. split; [assumption|]. split; [|assumption].
  destruct r as [q| | |]; simpl in *; try contradiction.
  + split; [assumption|]. intros Hu. apply Qnot_lt_le. now apply H2.
  + apply Qnot_lt_le. intros Hu. now apply (H2 Hu).
- intros (i & r & Hi & Hr & H1 & Hs). exists i, r.
  split; [assumption|]. split; [assumption|].
  destruct r as [q| | |]; simpl in *; try contradiction.
  + destruct H1 as [H1 H2]. repeat split; auto.
    intros Hu Hq. apply (Qlt_not_le _ _ Hq). now apply H2.
  + repeat split; auto. intros Hu _. now apply (Qlt_not_le _ _ Hu).
Qed.

Lemma mapping_decision_selects_witness :
  length [5; 6; 7; 8] = length [Fin (1 # 2); Fin (3 # 2); Fin (1 # 10); PInf] /\
  exists selected,
    mapping_decision [5; 6; 7; 8]
                     [Fin (1 # 2); Fin (3 # 2); Fin (1 # 10); PInf]
                     (1 # 5) 1 10
                     (fun c => if c =? 5 then 3 else 50) = Ok selected.
Proof.
split; [reflexivity|].
destruct (mapping_decision_selects
            [5; 6; 7; 8] [Fin (1 # 2); Fin (3 # 2); Fin (1 # 10); PInf]
            (1 # 5) 1 10
            (fun c => if c =? 5 then 3 else 50)) as (sel & E & _);
  [reflexivity|].
exists sel. exact E.
Defined.

(** Id 5 is too small, id 7 has too low a ratio; id 6 is kept although its
    corrected ratio 3/2 is above 1, because the upper ratio is not below
    1, and so is id 8 with the ratio [inf].  An upper ratio below 1 drops
    both, and a ratio [nan] is never kept. *)
Example mapping_decision_example :
  mapping_decision [5; 6; 7; 8]
                   [Fin (1 # 2); Fin (3 # 2); Fin (1 # 10); PInf]
                   (1 # 5) 1 10
                   (fun c => if c =? 5 then 3 else 50) = Ok [6; 8] /\
  mapping_decision [5; 6; 7; 8]
                   [Fin (1 # 2); Fin (3 # 2); Fin (1 # 10); PInf]
                   (1 # 5) (9 # 10) 2
                   (fun c => if c =? 5 then 3 else 50) = Ok [5] /\
  mapping_decision [5] [NaN] (1 # 5) 1 2 (fun _ => 3) = Ok [].
Proof. repeat split. Qed.

(** X5: The conn objects attached to a cell are those with a synapse
    probability above 0.5 that have the cell as their first partner, in
    the order of the cached arrays, followed by those that have it as
    their second partner: a conn object whose two partners are the cell
    is listed twice. *)
Theorem ssv_conn_ids_members (conn_ids : list Z) (syn_prob : list Q)
        (ssv_partners : list (Z * Z)) (ssv_id : Z) :
  length syn_prob = length conn_ids ->
  length ssv_partners = length conn_ids ->
  ssv_conn_ids conn_ids syn_prob ssv_partners ssv_id
    = conn_ids_where (fun p ab => negb (Qle_bool p (1 # 2))
                                  && (fst ab =? ssv_id))
                     conn_ids syn_prob ssv_partners
      ++ conn_ids_where (fun p ab => negb (Qle_bool p (1 # 2))
                                     && (snd ab =? ssv_id))
                        conn_ids syn_prob ssv_partners /\
  (forall c,
     In c (ssv_conn_ids conn_ids syn_prob ssv_partners ssv_id) <->
     exists i p a b,
       nth_error conn_ids i = Some c /\ nth_error syn_prob i = Some p /\
       nth_error ssv_partners i = Some (a, b) /\
       (1 # 2 < p)%Q /\ (a = ssv_id \/ b = ssv_id)) /\
  (forall i c p,
     nth_error conn_ids i = Some c -> nth_error syn_prob i = Some p ->
     nth_error ssv_partners i = Some (ssv_id, ssv_id) -> (1 # 2 < p)%Q ->
     (2 <= count_occ Z.eq_dec
             (ssv_conn_ids conn_ids syn_prob ssv_partners ssv_id) c)%nat).
Proof.
intros H1 H2.
assert (Hmask : forall (f : Z * Z -> bool) i,
  nth_error (map (fun kp => fst kp && f (snd kp))
                 (combine (map (fun p => negb (Qle_bool p (1 # 2))) syn_prob)
                          ssv_partners)) i = Some true <->
  exists p ab, nth_error syn_prob i = Some p /\
               nth_error ssv_partners i = Some ab /\
               (1 # 2 < p)%Q /\ f ab = true).
{ intros f i. rewrite nth_error_map.
  revert i ssv_partners H2. clear H1.
  revert conn_ids. induction syn_prob as [|p ps IH];
    intros cs i [|ab abs] Hl.
  - simpl. destruct i; simpl; split;
      [discriminate | intros (p & q & E & _); discriminate
       | discriminate | intros (p & q & E & _); discriminate].
  - simpl. destruct i; simpl; split;
      [discriminate | intros (p & q & E & _); discriminate
       | discriminate | intros (p & q & E & _); discriminate].
  - simpl. destruct i; simpl; split;
      [discriminate | intros (p' & q & _ & E & _); discriminate
       | discriminate | intros (p' & q & _ & E & _); discriminate].
  - destruct i as [|i]; simpl.
    + split.
      * intros H. injection H as H. apply andb_true_iff in H.
        destruct H as [Ha Hb]. exists p, ab. repeat split; auto.
        now apply Qgt_bool.
      * intros (p' & ab' & E1 & E2 & Hp & Hf).
        injection E1 as <-. injection E2 as <-. f_equal.
        apply andb_true_iff. split; [now apply Qgt_bool | assumption].
    + apply (IH (tl cs)). destruct cs; simpl in *; lia. }
assert (Hparts :
  ssv_conn_ids conn_ids syn_prob ssv_partners ssv_id
    = select (map (fun kp => fst kp && (fst (snd kp) =? ssv_id))
                  (combine (map (fun p => negb (Qle_bool p (1 # 2))) syn_prob)
                           ssv_partners)) conn_ids
      ++ select (map (fun kp => fst kp && (snd (snd kp) =? ssv_id))
                     (combine (map (fun p => negb (Qle_bool p (1 # 2)))
                                   syn_prob)
                              ssv_partners)) conn_ids).
{ unfold ssv_conn_ids.
  now rewrite !select_select by (rewrite length_map; congruence). }
assert (Hfirst : forall i c p b,
  nth_error conn_ids i = Some c -> nth_error syn_prob i = Some p ->
  nth_error ssv_partners i = Some (ssv_id, b) -> (1 # 2 < p)%Q ->
  In c (select (map (fun kp => fst kp && (fst (snd kp) =? ssv_id))
                    (combine (map (fun p => negb (Qle_bool p (1 # 2)))
                                  syn_prob)
                             ssv_partners)) conn_ids)).
{ intros i c p b Hc Hp Hab Hgt. apply select_In. exists i.
  split; [|assumption]. apply (Hmask (fun ab => fst ab =? ssv_id)).
  exists p, (ssv_id, b). repeat split; auto. simpl. apply Z.eqb_refl. }
assert (Hsecond : forall i c p a,
  nth_error conn_ids i = Some c -> nth_error syn_prob i = Some p ->
  nth_error ssv_partners i = Some (a, ssv_id) -> (1 # 2 < p)%Q ->
  In c (select (map (fun kp => fst kp && (snd (snd kp) =? ssv_id))
                    (combine (map (fun p => negb (Qle_bool p (1 # 2)))
                                  syn_prob)
                             ssv_partners)) conn_ids)).
{ intros i c p a Hc Hp Hab Hgt. apply select_In. exists i.
  split; [|assumption]. apply (Hmask (fun ab => snd ab =? ssv_id)).
  exists p, (a, ssv_id). repeat split; auto. simpl. apply Z.eqb_refl. }
split; [|split].
- rewrite Hparts. unfold conn_ids_where.
  rewrite (select_rows (fun p => negb (Qle_bool p (1 # 2)))
                       (fun ab => fst ab =? ssv_id)) by assumption.
  rewrite (select_rows (fun p => negb (Qle_bool p (1 # 2)))
                       (fun ab => snd ab =? ssv_id)) by assumption.
  reflexivity.
- intros c. rewrite Hparts, in_app_iff, !select_In. split.
  + intros [(i & Hm & Hc)|(i & Hm & Hc)].
    * apply (Hmask (fun p => fst p =? ssv_id)) in Hm.
      destruct Hm as (p & [a b] & Hp & Hab & Hgt & Hf). simpl in Hf.
      apply Z.eqb_eq in Hf. exists i, p, a, b. repeat split; auto.
    * apply (Hmask (fun p => snd p =? ssv_id)) in Hm.
      destruct Hm as (p & [a b] & Hp & Hab & Hgt & Hf). simpl in Hf.
      apply Z.eqb_eq in Hf. exists i, p, a, b. repeat split; auto.
  + intros (i & p & a & b & Hc & Hp & Hab & Hgt & [Ha|Hb]).
    * left. exists i. split; [|assumption].
      apply (Hmask (fun p => fst p =? ssv_id)).
      exists p, (a, b). repeat split; auto. simpl. now apply Z.eqb_eq.
    * right. exists i. split; [|assumption].
      apply (Hmask (fun p => snd p =? ssv_id)).
      exists p, (a, b). repeat split; auto. simpl. now apply Z.eqb_eq.
- intros i c p Hc Hp Hab Hgt. rewrite Hparts, count_occ_app.
  pose proof (Hfirst i c p ssv_id Hc Hp Hab Hgt) as Hin1.
  pose proof (Hsecond i c p ssv_id Hc Hp Hab Hgt) as Hin2.
  apply (count_occ_In Z.eq_dec) in Hin1, Hin2. lia.
Qed.

Lemma ssv_conn_ids_members_witness :
  length [9 # 10; 1 # 10; 4 # 5; 1]%Q = length [100; 101; 102; 103] /\
  length [(1, 2); (1, 3); (4, 1); (1, 1)] = length [100; 101; 102; 103] /\
  ssv_conn_ids [100; 101; 102; 103] [9 # 10; 1 # 10; 4 # 5; 1]%Q
               [(1, 2); (1, 3); (4, 1); (1, 1)] 1
    = conn_ids_where (fun p ab => negb (Qle_bool p (1 # 2)) && (fst ab =? 1))
                     [100; 101; 102; 103] [9 # 10; 1 # 10; 4 # 5; 1]%Q
                     [(1, 2); (1, 3); (4, 1); (1, 1)]
      ++ conn_ids_where (fun p ab => negb (Qle_bool p (1 # 2))
                                     && (snd ab =? 1))
                        [100; 101; 102; 103] [9 # 10; 1 # 10; 4 # 5; 1]%Q
                        [(1, 2); (1, 3); (4, 1); (1, 1)].
Proof.
split; [reflexivity|]. split; [reflexivity|].
apply (ssv_conn_ids_members [100; 101; 102; 103]
                            [9 # 10; 1 # 10; 4 # 5; 1]%Q
                            [(1, 2); (1, 3); (4, 1); (1, 1)] 1);
  reflexivity.
Defined.

(** A conn object whose two partners are the same cell is listed twice. *)
Example ssv_conn_ids_example :
  ssv_conn_ids [100; 101; 102; 103] [9 # 10; 1 # 10; 4 # 5; 1]%Q
               [(1, 2); (1, 3); (4, 1); (1, 1)] 1 = [100; 103; 102; 103] /\
  conn_ids_where (fun p ab => negb (Qle_bool p (1 # 2)) && (fst ab =? 1))
                 [100; 101; 102; 103] [9 # 10; 1 # 10; 4 # 5; 1]%Q
                 [(1, 2); (1, 3); (4, 1); (1, 1)] = [100; 103] /\
  conn_ids_where (fun p ab => negb (Qle_bool p (1 # 2)) && (snd ab =? 1))
                 [100; 101; 102; 103] [9 # 10; 1 # 10; 4 # 5; 1]%Q
                 [(1, 2); (1, 3); (4, 1); (1, 1)] = [102; 103].
Proof. repeat split. Qed.

End SsdProcJobsSpec.

(** * Further properties of objectextraction.py: the choice of chunks *)

Module ChunkBoxSpec.
Import Py PyFacts ChunkBox ChunkFacts ObjectExtraction DictFacts LoopFacts
       TranslatorFacts.

(** The lookups of [chunk_list]. *)
Local Abbreviation tget := (Dict.get Z.eqb).

(** X6: For positive chunk sizes and a box that is not empty, the chunk list
    [calculate_chunk_numbers_for_box] returns holds exactly the chunks of
    the voxels of the box: a chunk is listed if and only if [coord_dict]
    gives it for the chunk origin of some voxel of the box. *)
Theorem chunk_box_lists_chunks_of_voxels (coord_dict : list (triple * Z))
        (chunk_size offset size : triple) (chunk_list : list Z)
        (tr : translator) :
  positive3 chunk_size -> positive3 size ->
  calculate_chunk_numbers_for_box coord_dict chunk_size offset size
    = Ok (chunk_list, tr) ->
  forall c,
    In c chunk_list <->
    exists p, in_box offset size p /\
              Dict.get triple_eqb coord_dict (chunk_coord chunk_size p) = Ok c.
Proof.
destruct chunk_size as [[c0 c1] c2], offset as [[o0 o1] o2],
         size as [[s0 s1] s2].
intros (Hc0 & Hc1 & Hc2) (Hs0 & Hs1 & Hs2) E c.
unfold calculate_chunk_numbers_for_box, align_box in E.
destruct (align_dim o0 s0 c0) as [a0 b0] eqn:E0.
destruct (align_dim o1 s1 c1) as [a1 b1] eqn:E1.
destruct (align_dim o2 s2 c2) as [a2 b2] eqn:E2.
apply bind_Ok in E. destruct E as (coords & Ecoords & E).
apply add_chunk_loop in E. destruct E as [HF _].
split.
- intros Hin.
  destruct (Forall2_In_r _ _ _ _ HF Hin) as ([[X Y] Z] & Hp & Hget).
  apply (box_coords_In _ _ _ _ _ _ _ _ _ _ X Y Z Hc0 Hc1 Hc2 Ecoords) in Hp.
  destruct Hp as ([HX HXm] & [HY HYm] & [HZ HZm]).
  destruct (grid_has_voxel _ _ _ _ _ X Hc0 Hs0 E0 HX HXm) as (x & Hx & Ex).
  destruct (grid_has_voxel _ _ _ _ _ Y Hc1 Hs1 E1 HY HYm) as (y & Hy & Ey).
  destruct (grid_has_voxel _ _ _ _ _ Z Hc2 Hs2 E2 HZ HZm) as (z & Hz & Ez).
  exists (x, y, z). split; [easy|]. simpl. now rewrite Ex, Ey, Ez.
- intros ([[x y] z] & (Hx & Hy & Hz) & Hget). simpl in Hget.
  destruct (origin_in_grid _ _ _ _ _ x Hc0 E0 Hx) as [Gx Mx].
  destruct (origin_in_grid _ _ _ _ _ y Hc1 E1 Hy) as [Gy My].
  destruct (origin_in_grid _ _ _ _ _ z Hc2 E2 Hz) as [Gz Mz].
  assert (Hin : In (chunk_origin x c0, chunk_origin y c1, chunk_origin z c2)
                   coords).
  { apply (box_coords_In _ _ _ _ _ _ _ _ _ _ _ _ _ Hc0 Hc1 Hc2 Ecoords).
    easy. }
  destruct (Forall2_In_l _ _ _ _ HF Hin) as (c' & Hc' & Hget').
  congruence.
Qed.

Lemma chunk_box_lists_chunks_of_voxels_witness :
  In 4 [2; 3; 4; 5] <->
  exists p, in_box (5, 0, 0) (6, 4, 6) p /\
            Dict.get triple_eqb ChunkFixtures.coord_dict_grid
                     (chunk_coord (4, 4, 3) p) = Ok 4.
Proof.
apply (chunk_box_lists_chunks_of_voxels ChunkFixtures.coord_dict_grid
         (4, 4, 3) (5, 0, 0) (6, 4, 6) [2; 3; 4; 5]
         [(2, 0%nat); (3, 1%nat); (4, 2%nat); (5, 3%nat)]).
- simpl. lia.
- simpl. lia.
- reflexivity.
Defined.

(** X7: For positive chunk sizes and a box that is not empty,
    [calculate_chunk_numbers_for_box] returns when [coord_dict] has a chunk
    for every voxel of the box, and raises [KeyError] as soon as one voxel
    of the box lies in no chunk. *)
Theorem chunk_box_needs_every_chunk (coord_dict : list (triple * Z))
        (chunk_size offset size : triple) :
  positive3 chunk_size -> positive3 size ->
  ((forall p, in_box offset size p ->
      exists c, Dict.get triple_eqb coord_dict (chunk_coord chunk_size p)
                = Ok c) ->
   exists chunk_list tr,
     calculate_chunk_numbers_for_box coord_dict chunk_size offset size
       = Ok (chunk_list, tr)) /\
  ((exists p, in_box offset size p /\
      Dict.get triple_eqb coord_dict (chunk_coord chunk_size p)
        = Raise KeyError) ->
   calculate_chunk_numbers_for_box coord_dict chunk_size offset size
     = Raise KeyError).
Proof.
destruct chunk_size as [[c0 c1] c2], offset as [[o0 o1] o2],
         size as [[s0 s1] s2].
intros (Hc0 & Hc1 & Hc2) (Hs0 & Hs1 & Hs2).
unfold calculate_chunk_numbers_for_box, align_box.
destruct (align_dim o0 s0 c0) as [a0 b0] eqn:E0.
destruct (align_dim o1 s1 c1) as [a1 b1] eqn:E1.
destruct (align_dim o2 s2 c2) as [a2 b2] eqn:E2.
destruct (box_coords_ok (a0, a1, a2) (b0, b1, b2) c0 c1 c2 Hc0 Hc1 Hc2)
  as [coords Ecoords].
rewrite Ecoords. simpl. split.
- intros Hall.
  destruct (add_chunk_loop_ok coord_dict coords ([], [])) as [[cl t] E].
  + intros [[X Y] Z] Hp.
    apply (box_coords_In _ _ _ _ _ _ _ _ _ _ X Y Z Hc0 Hc1 Hc2 Ecoords) in Hp.
    destruct Hp as ([HX HXm] & [HY HYm] & [HZ HZm]).
    destruct (grid_has_voxel _ _ _ _ _ X Hc0 Hs0 E0 HX HXm) as (x & Hx & Ex).
    destruct (grid_has_voxel _ _ _ _ _ Y Hc1 Hs1 E1 HY HYm) as (y & Hy & Ey).
    destruct (grid_has_voxel _ _ _ _ _ Z Hc2 Hs2 E2 HZ HZm) as (z & Hz & Ez).
    destruct (Hall (x, y, z)) as [c Hc]; [easy|].
    simpl in Hc. rewrite Ex, Ey, Ez in Hc. eauto.
  + eauto.
- intros ([[x y] z] & (Hx & Hy & Hz) & Hget). simpl in Hget.
  destruct (origin_in_grid _ _ _ _ _ x Hc0 E0 Hx) as [Gx Mx].
  destruct (origin_in_grid _ _ _ _ _ y Hc1 E1 Hy) as [Gy My].
  destruct (origin_in_grid _ _ _ _ _ z Hc2 E2 Hz) as [Gz Mz].
  apply (add_chunk_loop_raise coord_dict coords
           (chunk_origin x c0, chunk_origin y c1, chunk_origin z c2));
    [|assumption].
  apply (box_coords_In _ _ _ _ _ _ _ _ _ _ _ _ _ Hc0 Hc1 Hc2 Ecoords). easy.
Qed.

Lemma chunk_box_needs_every_chunk_witness :
  calculate_chunk_numbers_for_box ChunkFixtures.coord_dict_grid
                                  (4, 4, 3) (5, 0, 0) (8, 4, 6)
    = Raise KeyError.
Proof.
apply (chunk_box_needs_every_chunk ChunkFixtures.coord_dict_grid
         (4, 4, 3) (5, 0, 0) (8, 4, 6)).
- simpl. lia.
- simpl. lia.
- exists (12, 0, 0). split; [simpl; lia | reflexivity].
Defined.

(** X8: The arrays [offset] and [size] are aligned in place, and aligning an
    aligned box changes nothing: a second call on the same arrays, as the
    sweep over thresholds makes, returns what the first call returned and
    leaves the arrays as the first call left them. *)
Theorem chunk_box_call_repeatable (coord_dict : list (triple * Z))
        (chunk_size : triple) (box : triple * triple) :
  let first := call_on_arrays coord_dict chunk_size box in
  call_on_arrays coord_dict chunk_size (snd first) = first.
Proof.
destruct box as [offset size]. unfold call_on_arrays. cbn [fst snd].
pose proof (align_box_idempotent offset size chunk_size) as H.
unfold calculate_chunk_numbers_for_box.
destruct (align_box offset size chunk_size) as [o' s'].
cbn [fst snd] in *. now rewrite H.
Qed.

(** X9: Whichever way [from_probabilities_to_objects] chooses its chunks (a
    box, a given list, or all chunks), the translator sends every chunk of
    the list to the last position that holds it, and knows no other chunk;
    without duplicates it is the inverse of the list. *)
Theorem select_chunks_translator_inverts (coord_dict : list (triple * Z))
        (chunk_size : triple) (n_chunks : nat) (given : option (list Z))
        (offset size : option triple) (chunk_list : list Z) (tr : translator) :
  select_chunks coord_dict chunk_size n_chunks given offset size
    = Ok (chunk_list, tr) ->
  (forall c, In c chunk_list ->
     exists i, tget tr c = Ok i /\ (i < length chunk_list)%nat /\
               nth i chunk_list 0 = c /\
               forall j, (j < length chunk_list)%nat ->
                         nth j chunk_list 0 = c -> (j <= i)%nat) /\
  (forall c, ~ In c chunk_list -> tget tr c = Raise KeyError) /\
  (NoDup chunk_list ->
   forall i, (i < length chunk_list)%nat -> tget tr (nth i chunk_list 0) = Ok i).
Proof.
intros E. apply select_chunks_translator in E. subst tr.
split; [|split].
- intros c Hc. destruct (translator_defined chunk_list c Hc) as [i Ei].
  destruct (translator_index _ _ _ Ei) as [Hi Hn].
  exists i. repeat split; try assumption.
  intros j Hj Hjc. now apply (translator_last chunk_list c i j).
- apply translator_absent.
- intros Hnd i Hi. now apply translator_NoDup.
Qed.

Lemma select_chunks_translator_inverts_witness :
  (exists i, tget [(3, 2%nat); (1, 1%nat)] 3 = Ok i /\ nth i [3; 1; 3] 0 = 3 /\
             (0 <= i)%nat) /\
  tget [(3, 2%nat); (1, 1%nat)] 2 = Raise KeyError.
Proof.
destruct (select_chunks_translator_inverts ChunkFixtures.coord_dict_grid (4, 4, 3)
            6 (Some [3; 1; 3]) None (Some (1, 1, 1)) [3; 1; 3]
            [(3, 2%nat); (1, 1%nat)] eq_refl) as (H1 & H2 & _).
split.
- destruct (H1 3) as (i & Ei & _ & Hn & Hl); [simpl; auto|].
  exists i. split; [exact Ei|]. split; [exact Hn|].
  apply (Hl 0%nat); [simpl; lia | reflexivity].
- apply H2. simpl. intros [H|[H|[H|H]]]; try discriminate H. exact H.
Defined.

(** X10: Without a box and without a list, all chunks [0 .. n - 1] are
    chosen and the translator is the identity on them. *)
Theorem select_chunks_default (coord_dict : list (triple * Z))
        (chunk_size : triple) (n_chunks : nat) (offset size : option triple) :
  offset = None \/ size = None ->
  exists chunk_list tr,
    select_chunks coord_dict chunk_size n_chunks None offset size
      = Ok (chunk_list, tr) /\
    length chunk_list = n_chunks /\
    forall i, (i < n_chunks)%nat ->
      nth i chunk_list 0 = Z.of_nat i /\ tget tr (Z.of_nat i) = Ok i.
Proof.
intros Hnone.
assert (E : select_chunks coord_dict chunk_size n_chunks None offset size
            = Ok (map Z.of_nat (seq 0 n_chunks),
                  make_translator (map Z.of_nat (seq 0 n_chunks)))).
{ unfold select_chunks. rewrite default_translator.
  destruct Hnone as [-> | ->]; [destruct size | ]; reflexivity. }
eexists. eexists. split; [exact E|].
split; [now rewrite length_map, length_seq|].
intros i Hi.
assert (Hn : nth i (map Z.of_nat (seq 0 n_chunks)) 0 = Z.of_nat i).
{ change 0 with (Z.of_nat 0). now rewrite map_nth, seq_nth. }
split; [exact Hn|].
rewrite <- Hn at 1. apply translator_NoDup.
- apply Finite.Injective_map_NoDup; [intros a b; apply Nat2Z.inj|].
  apply seq_NoDup.
- now rewrite length_map, length_seq.
Qed.

Lemma select_chunks_default_witness :
  exists chunk_list tr,
    select_chunks ChunkFixtures.coord_dict_grid (4, 4, 3) 6 None None
                  (Some (1, 1, 1)) = Ok (chunk_list, tr) /\
    length chunk_list = 6%nat /\
    forall i, (i < 6)%nat ->
      nth i chunk_list 0 = Z.of_nat i /\ tget tr (Z.of_nat i) = Ok i.
Proof.
apply (select_chunks_default ChunkFixtures.coord_dict_grid (4, 4, 3) 6 None
         (Some (1, 1, 1))).
now left.
Defined.

End ChunkBoxSpec.

(** * Further properties of objectextraction.py: collecting the results *)

Module CollectSpec.
Import Collect CollectFacts DictFacts LoopFacts ChunkFacts CountTableFacts.
Import ObjectExtraction GraphFacts MergeFacts MergeNamesFacts.

Local Abbreviation sget := (Dict.get String.eqb).

(** X11: When every result lists its ids under every name, [extract_ids]
    builds for every name a dictionary that knows exactly the ids some
    result lists, and gives for an id the chunks of the results that list
    it, in the order of the results, once for every time the id is listed. A
    result that lacks one of the names makes the collection raise
    [KeyError]. *)
Theorem id_mapping_lists_chunks {C : Type}
        (results : list (C * list (string * list Z)))
        (hdf5names : list string) :
  ((forall res h, In res results -> In h hdf5names ->
      exists ids, sget (snd res) h = Ok ids) ->
   exists id_mapping,
     extract_ids_mapping results hdf5names = Ok id_mapping /\
     forall h, In h hdf5names ->
       exists m, sget id_mapping h = Ok m /\
                 forall this_id,
                   Dict.get Z.eqb m this_id
                     = listed (flat_map (chunks_with_id h this_id) results)) /\
  (forall h bad,
     In h hdf5names -> In bad results ->
     sget (snd bad) h = Raise KeyError ->
     extract_ids_mapping results hdf5names = Raise KeyError).
Proof.
split.
- intros Hall.
  assert (Hok : exists id_mapping,
             extract_ids_mapping results hdf5names = Ok id_mapping).
  { unfold extract_ids_mapping.
    destruct (for_each_ok (fun _ => True) (fun h => In h hdf5names)
                (fun hdf5_name id_mapping =>
                   m <- id_mapping_for results hdf5_name ;;
                   Ok (Dict.set String.eqb id_mapping hdf5_name m))
                hdf5names) with (s := @nil (string * list (Z * list C)))
      as (d & E & _).
    - intros h d Hh _.
      destruct (id_mapping_for_spec results h) as (m & Em & _).
      { intros res Hres. now apply Hall. }
      rewrite Em. simpl. eauto.
    - now apply Forall_forall.
    - exact I.
    - eauto. }
  destruct Hok as [id_mapping E]. exists id_mapping. split; [exact E|].
  assert (Hinv : forall h m, In h hdf5names ->
                             id_mapping_for results h = Ok m ->
                             sget id_mapping h = Ok m).
  { revert E. unfold extract_ids_mapping.
    apply (for_each_inv
             (fun pre d =>
                forall h m, In h pre -> id_mapping_for results h = Ok m ->
                            sget d h = Ok m)).
    - intros h m [].
    - intros pre x d d' Hpre Eb h m' Hh Em'.
      apply bind_Ok in Eb. destruct Eb as (m & Em & Eb). injection Eb as <-.
      destruct (string_dec x h) as [->|Hne].
      + rewrite sget_set_same. congruence.
      + rewrite sget_set_other by assumption. apply Hpre; [|assumption].
        apply in_app_or in Hh. destruct Hh as [Hh|[Hh|[]]];
          [assumption | congruence]. }
  intros h Hh.
  destruct (id_mapping_for_spec results h) as (m & Em & Hm).
  { intros res Hres. now apply Hall. }
  exists m. split; [now apply Hinv | exact Hm].
- intros h bad Hh Hbad Eget. unfold extract_ids_mapping.
  apply (for_each_raise _ KeyError hdf5names h); [|assumption|].
  + intros x d _.
    destruct (id_mapping_for_cases results x) as [[m E]|E]; rewrite E; simpl;
      [left; eauto | now right].
  + intros d. now rewrite (id_mapping_for_raise results h bad Hbad Eget).
Qed.

Lemma id_mapping_lists_chunks_witness :
  exists id_mapping,
    extract_ids_mapping [(10, [("sj", [1; 2; 2])]); (11, [("sj", [2; 5])])]
                        ["sj"] = Ok id_mapping /\
    exists m, sget id_mapping "sj" = Ok m /\
              Dict.get Z.eqb m 2 = Ok [10; 10; 11] /\
              Dict.get Z.eqb m 3 = Raise KeyError.
Proof.
destruct (id_mapping_lists_chunks
            [(10, [("sj", [1; 2; 2])]); (11, [("sj", [2; 5])])] ["sj"])
  as [H _].
destruct H as (id_mapping & E & H).
- intros res h [<-|[<-|[]]] [<-|[]]; simpl; eauto.
- exists id_mapping. split; [exact E|].
  destruct (H "sj") as (m & Em & Hm); [now left|].
  exists m. split; [exact Em|]. split; [apply (Hm 2) | apply (Hm 3)].
Defined.

(** X12: When every result has a dictionary for the name, the remapping
    dictionary [extract_voxels] collects for the name knows exactly the keys
    some result has, and gives for a key the values of the results that have
    it, in the order of the results. A result that lacks the name makes the
    collection raise [KeyError]. *)
Theorem remap_dict_collects {V : Type}
        (results : list (list (string * list (Z * V)))) (hdf5_name : string) :
  ((forall res, In res results -> exists items, sget res hdf5_name = Ok items) ->
   exists remap_dict,
     remap_dict_for results hdf5_name = Ok remap_dict /\
     forall key,
       Dict.get Z.eqb remap_dict key
         = listed (flat_map (fun res => values_of key (entry hdf5_name res))
                            results)) /\
  (forall bad, In bad results -> sget bad hdf5_name = Raise KeyError ->
               remap_dict_for results hdf5_name = Raise KeyError).
Proof.
split.
- intros Hall. unfold remap_dict_for.
  destruct (collect_loop (fun res => sget res hdf5_name) (entry hdf5_name)
                         results []) as (d & E & Hd).
  + intros res Hres. destruct (Hall res Hres) as [items Ei].
    now rewrite (entry_get _ _ _ Ei).
  + exists d. split; [exact E|]. intros key. now rewrite Hd.
- intros bad Hbad Eget. unfold remap_dict_for.
  apply (for_each_raise _ KeyError results bad); [|assumption|].
  + intros res d _. apply collect_body_cases. apply get_cases.
  + intros d. now rewrite Eget.
Qed.

Lemma remap_dict_collects_witness :
  exists remap_dict,
    remap_dict_for [[("sj", [(1, 100); (2, 200)])]; [("sj", [(2, 201)])]] "sj"
      = Ok remap_dict /\
    Dict.get Z.eqb remap_dict 2 = Ok [200; 201] /\
    Dict.get Z.eqb remap_dict 7 = Raise KeyError.
Proof.
destruct (remap_dict_collects
            [[("sj", [(1, 100); (2, 200)])]; [("sj", [(2, 201)])]] "sj")
  as [H _].
destruct H as (d & E & H).
- intros res [<-|[<-|[]]]; simpl; eauto.
- exists d. split; [exact E|]. split; [apply (H 2) | apply (H 7)].
Defined.

(** X13: With names that are all different and results that hold edges for
    every name, the stitch list [make_stitch_list] collects for a name is
    the edges of the results for that name, one result after the other. *)
Theorem stitch_list_concatenates (hdf5names : list string)
        (results : list (list (string * list (Z * Z)))) :
  NoDup hdf5names ->
  (forall res h, In res results -> In h hdf5names ->
                 exists es, sget res h = Ok es) ->
  exists stitch_list,
    collect_stitch_list hdf5names results = Ok stitch_list /\
    forall h, In h hdf5names ->
              sget stitch_list h = Ok (flat_map (entry h) results).
Proof.
exact (stitch_list_concat_aux hdf5names results).
Qed.

Lemma stitch_list_concatenates_witness :
  exists stitch_list,
    collect_stitch_list ["sj"; "vc"]
      [[("sj", [(1, 2)]); ("vc", [])]; [("sj", [(3, 4)]); ("vc", [(7, 8)])]]
      = Ok stitch_list /\
    sget stitch_list "sj" = Ok [(1, 2); (3, 4)].
Proof.
destruct (stitch_list_concatenates ["sj"; "vc"]
            [[("sj", [(1, 2)]); ("vc", [])];
             [("sj", [(3, 4)]); ("vc", [(7, 8)])]]) as (sl & E & H).
- repeat constructor; simpl; intros H; repeat destruct H as [H|H];
    try discriminate H; exact H.
- intros res h [<-|[<-|[]]] [<-|[<-|[]]]; simpl; eauto.
- exists sl. split; [exact E|]. apply (H "sj"). now left.
Defined.

(** X14: The order in which the results of the workers are collected does
    not matter for the merge: when the results are permuted, the stitch
    lists hold the same edges, and the merge lists [make_merge_list] builds
    from them send the same ids to a common id. *)
Theorem merge_ignores_order_of_results
        (set_iter : list Z -> list Z) (hdf5names : list string)
        (results results' : list (list (string * list (Z * Z))))
        (max_labels : list (string * Z)) :
  set_iter_ok set_iter -> NoDup hdf5names ->
  Permutation results results' ->
  (forall res h, In res results -> In h hdf5names ->
                 exists es, sget res h = Ok es) ->
  (forall h, In h hdf5names ->
     exists m, sget max_labels h = Ok m /\
               ids_within 0 m (flat_map (entry h) results)) ->
  exists sl sl' md mld md' mld',
    collect_stitch_list hdf5names results = Ok sl /\
    collect_stitch_list hdf5names results' = Ok sl' /\
    make_merge_list set_iter hdf5names sl max_labels = Ok (md, mld) /\
    make_merge_list set_iter hdf5names sl' max_labels = Ok (md', mld') /\
    forall h m, In h hdf5names -> sget max_labels h = Ok m ->
      exists ml ml',
        sget mld h = Ok ml /\ sget mld' h = Ok ml' /\
        forall x y, 0 <= x <= m -> 0 <= y <= m ->
                    (remap ml x = remap ml y <-> remap ml' x = remap ml' y).
Proof.
intros Hiter Hnd HP Hres Hids.
assert (Hres' : forall res h, In res results' -> In h hdf5names ->
                              exists es, sget res h = Ok es).
{ intros res h Hr Hh. apply Hres; [|assumption].
  apply (Permutation_in _ (Permutation_sym HP) Hr). }
destruct (stitch_list_concat_aux hdf5names results Hnd Hres) as (sl & E & Hsl).
destruct (stitch_list_concat_aux hdf5names results' Hnd Hres')
  as (sl' & E' & Hsl').
assert (Hin : Forall (merge_input_ok 0 sl max_labels) hdf5names).
{ apply Forall_forall. intros h Hh. destruct (Hids h Hh) as (m & Em & Hw).
  exists (flat_map (entry h) results), m. auto. }
assert (Hin' : Forall (merge_input_ok 0 sl' max_labels) hdf5names).
{ apply Forall_forall. intros h Hh. destruct (Hids h Hh) as (m & Em & Hw).
  exists (flat_map (entry h) results'), m.
  split; [now apply Hsl'|]. split; [assumption|].
  apply (ids_within_perm 0 m (flat_map (entry h) results)); [|assumption].
  now apply flat_map_Permutation. }
destruct (make_merge_list_spec set_iter hdf5names sl max_labels Hiter Hin)
  as (md & mld & Em & Hentry).
destruct (make_merge_list_spec set_iter hdf5names sl' max_labels Hiter Hin')
  as (md' & mld' & Em' & Hentry').
exists sl, sl', md, mld, md', mld'. repeat (split; [assumption|]).
intros h m Hh Hm.
destruct (Hentry h _ m Hh (Hsl h Hh) Hm) as (d1 & ml & Eml & _ & Eget).
destruct (Hentry' h _ m Hh (Hsl' h Hh) Hm) as (d1' & ml' & Eml' & _ & Eget').
exists ml, ml'. repeat (split; [assumption|]).
destruct (Hids h Hh) as (m0 & Em0 & Hw).
assert (m0 = m) by congruence. subst m0.
assert (HPe : Permutation (flat_map (entry h) results)
                          (flat_map (entry h) results'))
  by now apply flat_map_Permutation.
destruct (merge_list_spec set_iter Hiter _ m Hw)
  as (d2 & ml2 & Eml2 & _ & _ & Hiff & _).
destruct (merge_list_spec set_iter Hiter _ m (ids_within_perm 0 m _ _ HPe Hw))
  as (d3 & ml3 & Eml3 & _ & _ & Hiff' & _).
assert (ml2 = ml) by congruence. assert (ml3 = ml') by congruence. subst.
intros x y Hx Hy. rewrite <- (Hiff x y Hx Hy), <- (Hiff' x y Hx Hy).
split; intros H.
- now apply (connected_Permutation _ _ x y HPe).
- now apply (connected_Permutation _ _ x y (Permutation_sym HPe)).
Qed.

Lemma merge_ignores_order_of_results_witness :
  exists sl sl' md mld md' mld',
    collect_stitch_list ["sj"] [[("sj", [(1, 2)])]; [("sj", [(2, 3)])]]
      = Ok sl /\
    collect_stitch_list ["sj"] [[("sj", [(2, 3)])]; [("sj", [(1, 2)])]]
      = Ok sl' /\
    make_merge_list insertion_order ["sj"] sl [("sj", 3)] = Ok (md, mld) /\
    make_merge_list insertion_order ["sj"] sl' [("sj", 3)] = Ok (md', mld') /\
    forall h m, In h ["sj"] -> sget [("sj", 3)] h = Ok m ->
      exists ml ml',
        sget mld h = Ok ml /\ sget mld' h = Ok ml' /\
        forall x y, 0 <= x <= m -> 0 <= y <= m ->
                    (remap ml x = remap ml y <-> remap ml' x = remap ml' y).
Proof.
apply (merge_ignores_order_of_results insertion_order ["sj"]
         [[("sj", [(1, 2)])]; [("sj", [(2, 3)])]]
         [[("sj", [(2, 3)])]; [("sj", [(1, 2)])]] [("sj", 3)]).
- apply insertion_order_ok.
- repeat constructor. simpl. tauto.
- apply perm_swap.
- intros res h [<-|[<-|[]]] [<-|[]]; simpl; eauto.
- intros h [<-|[]]. exists 3. split; [reflexivity|].
  intros a b H. simpl in H.
  destruct H as [H|[H|[]]]; injection H as <- <-; lia.
Defined.

(** The two orders of two results: the ids 1, 2 and 3 are merged either
    way, into the first id of the component in the order of the set. *)
Example merge_ignores_order_example :
  (sl <- collect_stitch_list ["sj"] [[("sj", [(1, 2)])]; [("sj", [(2, 3)])]] ;;
   r <- make_merge_list insertion_order ["sj"] sl [("sj", 3)] ;;
   sget (snd r) "sj") = Ok [0; 1; 1; 1] /\
  (sl <- collect_stitch_list ["sj"] [[("sj", [(2, 3)])]; [("sj", [(1, 2)])]] ;;
   r <- make_merge_list insertion_order ["sj"] sl [("sj", 3)] ;;
   sget (snd r) "sj") = Ok [0; 2; 2; 2].
Proof. split; reflexivity. Qed.

End CollectSpec.

(** * Further properties of objectextraction.py: counts and relabelling *)

Module AllocationMoreSpec.
Import Np ArrayFacts DictFacts LoopFacts ObjectExtraction TranslatorFacts.
Import CountTableFacts ChunkBox ChunkFacts AllocMoreFacts.

Local Abbreviation sget := (Dict.get String.eqb).

(** X15: A record of [cc_info_list] whose name is not one of [hdf5names] or
    whose chunk is not in the chunk list makes the allocation raise
    [KeyError]; an empty chunk list, with no record and at least one name,
    makes it raise [IndexError] when the first base is written. *)
Theorem allocate_errors (hdf5names : list string) (chunk_list : list Z)
        (cc_info_list : list cc_info) :
  ((exists info, In info cc_info_list /\
                 ~ wf_info hdf5names chunk_list info) ->
   allocate hdf5names chunk_list (make_translator chunk_list) cc_info_list
     = Raise KeyError) /\
  (chunk_list = [] -> cc_info_list = [] -> hdf5names <> [] ->
   allocate hdf5names chunk_list (make_translator chunk_list) cc_info_list
     = Raise IndexError).
Proof.
split.
- intros (bad & Hin & Hbad). unfold allocate, count_table.
  rewrite (for_each_raise_inv (wf_table hdf5names (length chunk_list))
             (store_count (make_translator chunk_list)) KeyError
             cc_info_list bad).
  + reflexivity.
  + intros info d _ Hwf.
    destruct (store_count_cases hdf5names chunk_list info d Hwf)
      as [[_ H]|[_ H]]; [now left | now right].
  + assumption.
  + intros d Hwf.
    destruct (store_count_cases hdf5names chunk_list bad d Hwf)
      as [[H _]|[_ H]]; [contradiction | assumption].
  + apply init_tables_wf.
- intros -> -> Hne. destruct hdf5names as [|h rest]; [congruence|].
  unfold allocate, count_table. cbn [for_each bind length].
  unfold bases_for_name at 1. rewrite !init_tables_get.
  destruct (in_dec string_dec h (h :: rest)) as [_|Hn];
    [reflexivity | exfalso; apply Hn; now left].
Qed.

Lemma allocate_errors_witness :
  allocate ["sj"] [0; 1] (make_translator [0; 1]) [(0, "sj", 3); (7, "sj", 2)]
    = Raise KeyError.
Proof.
apply (allocate_errors ["sj"] [0; 1] [(0, "sj", 3); (7, "sj", 2)]).
exists (7, "sj", 2). split; [simpl; tauto|].
intros [_ [H|[H|[]]]]; discriminate H.
Defined.

(** X16: The table of counts holds, for a chunk and a name, the count of the
    last record for them: a record that no later record of the same name
    overwrites at its position is what the table holds there, whatever was
    recorded before it, so that the counts of records for the same chunk and
    name are not added up. *)
Theorem count_table_last_record_wins (hdf5names : list string) (n : nat)
        (tr : translator) (pre post : list cc_info) (c : Z) (h : string)
        (nb : Z) (idx : nat) (d : list (string * list Z)) :
  count_table hdf5names n tr (pre ++ (c, h, nb) :: post) = Ok d ->
  Dict.get Z.eqb tr c = Ok idx ->
  (forall c' v', In (c', h, v') post -> Dict.get Z.eqb tr c' <> Ok idx) ->
  exists arr, sget d h = Ok arr /\ nth idx arr 0 = int32 nb.
Proof.
unfold count_table. intros E Ei Hpost.
rewrite for_each_app in E. apply bind_Ok in E. destruct E as (d0 & _ & E).
simpl for_each in E. apply bind_Ok in E. destruct E as (d1 & E1 & E).
apply (later_records_keep tr h idx (int32 nb) post d1 d Hpost E).
apply store_count_inv in E1.
destruct E1 as (arr & idx' & Ea & Ei' & Hlt & ->).
assert (idx' = idx) by congruence. subst idx'.
rewrite sget_set_same. eexists. split; [reflexivity|].
rewrite nth_update by assumption. now rewrite Nat.eqb_refl.
Qed.

Lemma count_table_last_record_wins_witness :
  exists arr,
    sget [("sj", [2; 4])] "sj" = Ok arr /\ nth 0 arr 0 = int32 2.
Proof.
apply (count_table_last_record_wins ["sj"] 2 (make_translator [0; 1])
         [(0, "sj", 3)] [(1, "sj", 4)] 0 "sj" 2 0 [("sj", [2; 4])]).
- reflexivity.
- reflexivity.
- intros c' v' [H|[]]. injection H as <- _. discriminate.
Defined.



(** A chunk listed twice gets the base of its last position for both of
    its entries. *)
Example unique_labels_params_duplicate :
  make_unique_labels_params [(3, 30); (1, 10)] ["sj"] [3; 1; 3]
                            [("sj", [0; 5; 7])] (make_translator [3; 1; 3])
    = Ok [(30, [("sj", 7)]); (10, [("sj", 5)]); (30, [("sj", 7)])].
Proof. reflexivity. Qed.

End AllocationMoreSpec.

(** * Further properties of block_processing.py *)

Module KernelMoreSpec.
Import Np NpFacts BlockProcessing KernelFacts WindowFacts KeyFacts.

(** X18: For two ids below [2^32] of an integer array that is not
    [uint64], the key of [kernel] holds the pair once it is stored in the
    [uint64] output: the high 32 bits are the smaller id and the low 32
    bits the larger one.  The key that [kernel] returns is an [int64]: it
    is that number when the smaller id is below [2^31], and negative
    otherwise.  The key does not depend on which of the two ids is the
    center, and two pairs with the same key are the same pair.  For two
    ids of a [uint64] array there is no key: the shift raises
    [TypeError]. *)
Theorem pair_key_encodes_pair (a b a' b' : Z) :
  0 <= a < 2 ^ 32 -> 0 <= b < 2 ^ 32 ->
  0 <= a' < 2 ^ 32 -> 0 <= b' < 2 ^ 32 ->
  (exists k,
     pair_key np_int64 a b = Ok k /\
     Z.shiftr (as_uint64 k) 32 = Z.min a b /\
     Z.land (as_uint64 k) (Z.ones 32) = Z.max a b /\
     (Z.min a b < 2 ^ 31 -> k = Z.shiftl (Z.min a b) 32 + Z.max a b) /\
     (2 ^ 31 <= Z.min a b -> k < 0) /\
     pair_key np_int64 b a = Ok k /\
     (pair_key np_int64 a' b' = Ok k ->
      (a = a' /\ b = b') \/ (a = b' /\ b = a'))) /\
  pair_key np_uint64 a b = Raise TypeError.
Proof.
intros Ha Hb Ha' Hb'. split; [|apply pair_key_uint64].
destruct (pair_key_stored a b Ha Hb) as (k & Ek & Hk).
destruct (key_of_decode a b Ha Hb) as [Hhi Hlo].
exists k. split; [assumption|]. rewrite Hk.
split; [assumption|]. split; [assumption|].
split.
{ intros Hmin. rewrite pair_key_exact in Ek by lia. now injection Ek as <-. }
split.
{ intros Hmin.
  assert (Ek2 : k = wrap_int64 (wrap_int64 (Z.shiftl (Z.min a b) 32)
                                + Z.max a b)).
  { rewrite pair_key_min_max in Ek. unfold shift_add in Ek. congruence. }
  rewrite Ek2, Z.shiftl_mul_pow2 by lia.
  assert (Hmax : 0 <= Z.max a b < 2 ^ 32) by lia.
  assert (Hmin' : Z.min a b < 2 ^ 32) by lia.
  assert (E1 : wrap_int64 (Z.min a b * 2 ^ 32)
               = Z.min a b * 2 ^ 32 - 2 ^ 64).
  { unfold wrap_int64.
    replace (Z.min a b * 2 ^ 32 + 2 ^ 63)
      with (Z.min a b * 2 ^ 32 - 2 ^ 63 + 1 * 2 ^ 64) by lia.
    rewrite Z.mod_add by lia. rewrite Z.mod_small by lia. lia. }
  rewrite E1. rewrite wrap_int64_small by lia. lia. }
split.
{ rewrite pair_key_min_max in *. now rewrite Z.min_comm, Z.max_comm. }
intros E'. destruct (pair_key_stored a' b' Ha' Hb') as (k' & Ek' & Hk').
rewrite Ek' in E'. injection E' as ->.
destruct (key_of_decode a' b' Ha' Hb') as [Hhi' Hlo'].
rewrite <- Hk', Hk in Hhi', Hlo'.
assert (Z.min a b = Z.min a' b') by congruence.
assert (Z.max a b = Z.max a' b') by congruence.
lia.
Qed.

Lemma pair_key_encodes_pair_witness :
  exists k,
    pair_key np_int64 7 2 = Ok k /\
    Z.shiftr (as_uint64 k) 32 = Z.min 7 2 /\
    Z.land (as_uint64 k) (Z.ones 32) = Z.max 7 2.
Proof.
destruct (pair_key_encodes_pair 7 2 2 7) as [(k & Ek & Hhi & Hlo & _) _];
  try lia.
exists k. auto.
Defined.

(** Ids of 32 bits whose key is negative as [kernel] returns it, and the
    pair again once it is stored. *)
Example pair_key_negative :
  pair_key np_int64 4294967295 4294967294 = Ok (-4294967297) /\
  as_uint64 (-4294967297) = Z.shiftl 4294967294 32 + 4294967295.
Proof. split; reflexivity. Qed.

(** X19: On a window of ids that are not negative and below [2^32],
    [kernel] returns 0 exactly when the window holds no id other than
    background and the center id, whatever the integer dtype; and a key
    that it returns is stored as 0 only then: 0 in the output always means
    that no partner was found. *)
Theorem kernel_zero_iff_no_partner (dt : id_dtype) (chunk : list Z)
        (center_id : Z) :
  chunk <> [] -> 0 <= center_id < 2 ^ 32 ->
  (forall y, In y chunk -> 0 <= y < 2 ^ 32) ->
  (kernel dt chunk center_id = Ok 0 <->
   forall y, In y chunk -> y = 0 \/ y = center_id) /\
  (forall k, kernel dt chunk center_id = Ok k ->
             (as_uint64 k = 0 <->
              forall y, In y chunk -> y = 0 \/ y = center_id)).
Proof.
intros Hne Hc Hpos.
destruct (kernel_cases dt chunk center_id Hne)
  as [[Hk Hall]|(b & Hk & Hb & Hb0 & Hbc & _)].
- split; [split; [intros _; exact Hall | intros _; exact Hk]|].
  intros k Ek. rewrite Hk in Ek. injection Ek as <-.
  split; [intros _; exact Hall | reflexivity].
- assert (Hstored : forall k, kernel dt chunk center_id = Ok k ->
                              as_uint64 k <> 0).
  { intros k Ek. rewrite Hk in Ek. destruct dt.
    - destruct (pair_key_stored center_id b Hc (Hpos b Hb))
        as (k' & Ek' & Hk').
      rewrite Ek' in Ek. injection Ek as <-. rewrite Hk'.
      unfold key_of. rewrite Z.shiftl_mul_pow2 by lia.
      pose proof (Hpos b Hb). lia.
    - rewrite pair_key_uint64 in Ek. discriminate. }
  split; split.
  + intros E. exfalso. apply (Hstored 0 E). reflexivity.
  + intros Hall. destruct (Hall b Hb); contradiction.
  + intros E. exfalso. now apply (Hstored k).
  + intros Hall. destruct (Hall b Hb); contradiction.
Qed.

Lemma kernel_zero_iff_no_partner_witness :
  kernel np_int64 [1; 1; 0; 0] 1 = Ok 0 <->
  forall y, In y [1; 1; 0; 0] -> y = 0 \/ y = 1.
Proof.
apply (kernel_zero_iff_no_partner np_int64 [1; 1; 0; 0] 1).
- discriminate.
- lia.
- intros y H. simpl in H. lia.
Defined.

(** Without the bound a key can wrap around to 0 although the window
    holds a partner. *)
Example kernel_zero_with_partner :
  kernel np_int64 [2147483649; 9223372032559808512] 2147483649 = Ok 0.
Proof. reflexivity. Qed.

(** X20: Voxels of the background and voxels of the center's own object do
    not influence the result: a window that is extended by such voxels gets
    the key of the window itself. *)
Theorem kernel_ignores_background_and_center (dt : id_dtype)
        (chunk pad : list Z) (center_id : Z) :
  chunk <> [] ->
  (forall y, In y pad -> y = 0 \/ y = center_id) ->
  kernel dt (chunk ++ pad) center_id = kernel dt chunk center_id.
Proof.
intros Hne Hpad.
assert (Hne' : chunk ++ pad <> []).
{ destruct chunk; [congruence | discriminate]. }
assert (Hcand : forall y, In y (chunk ++ pad) -> y <> 0 -> y <> center_id ->
                          In y chunk).
{ intros y Hy H0 Hc. apply in_app_or in Hy. destruct Hy as [Hy|Hy];
    [assumption|]. destruct (Hpad y Hy); contradiction. }
assert (Hcount : forall y, y <> 0 -> y <> center_id ->
                           count y (chunk ++ pad) = count y chunk).
{ intros y H0 Hc. rewrite count_app, (count_absent y pad); [lia|].
  intros Hy. destruct (Hpad y Hy); contradiction. }
destruct (kernel_cases dt chunk center_id Hne)
  as [[Hk Hall]|(b & Hk & Hb & Hb0 & Hbc & Hmax)];
destruct (kernel_cases dt (chunk ++ pad) center_id Hne')
  as [[Hk' Hall']|(b' & Hk' & Hb' & Hb0' & Hbc' & Hmax')].
- congruence.
- destruct (Hall b' (Hcand b' Hb' Hb0' Hbc')); contradiction.
- destruct (Hall' b (in_or_app _ _ _ (or_introl Hb))); contradiction.
- rewrite Hk, Hk'. f_equal.
  pose proof (Hcand b' Hb' Hb0' Hbc') as Hb'c.
  destruct (Hmax b' Hb'c Hb0' Hbc') as [H1 H2].
  destruct (Hmax' b (in_or_app _ _ _ (or_introl Hb)) Hb0 Hbc) as [H3 H4].
  rewrite !Hcount in H3, H4 by assumption.
  assert (count b chunk = count b' chunk) by lia.
  assert (b <= b') by (apply H2; lia).
  assert (b' <= b) by (apply H4; lia).
  lia.
Qed.

Lemma kernel_ignores_background_and_center_witness :
  kernel np_int64 ([1; 2; 2; 3] ++ [0; 1; 0]) 1
    = kernel np_int64 [1; 2; 2; 3] 1.
Proof.
apply (kernel_ignores_background_and_center np_int64 [1; 2; 2; 3]
                                            [0; 1; 0] 1).
- discriminate.
- intros y H. simpl in H. lia.
Defined.

End KernelMoreSpec.

Module ProcessBlockSpec.
Import Np ArrayFacts BlockProcessing BlockGrid KernelFacts KeyFacts GridFacts.

(** X21: For a stencil of odd sizes of at least 3 that fits the array, and
    an edge mask of the shape of the array, [process_block_nonzero] on a
    label array that is not [uint64] returns an array with one voxel for
    every position of the stencil in the array.  A voxel whose stencil is
    centered on a flagged voxel holds the result of [kernel] on the full
    stencil window around that center, as [uint64] stores it; every other
    voxel holds 0.  On a [uint64] label array the same holds as long as
    no flagged voxel has a partner in its window; as soon as one has, the
    function raises [TypeError]. *)
Theorem process_block_nonzero_output (dt : id_dtype) (edges arr : array3)
        (s0 s1 s2 n0 n1 n2 : nat) :
  stencil_odd (s0, s1, s2) = true ->
  (3 <= s0 <= n0 + 1)%nat -> (3 <= s1 <= n1 + 1)%nat ->
  (3 <= s2 <= n2 + 1)%nat ->
  has_shape arr n0 n1 n2 -> has_shape edges n0 n1 n2 ->
  (dt = np_int64 \/
   (forall x y z,
      (x < n0 + 1 - s0)%nat -> (y < n1 + 1 - s1)%nat ->
      (z < n2 + 1 - s2)%nat ->
      get3 edges (x + s0 / 2) (y + s1 / 2) (z + s2 / 2) <> 0 ->
      ~ has_partner (window_at arr (s0, s1, s2) x y z)
                    (center_at arr (s0, s1, s2) x y z)) ->
   exists out,
     process_block_nonzero dt edges arr (s0, s1, s2) = Ok out /\
     has_shape out (n0 + 1 - s0) (n1 + 1 - s1) (n2 + 1 - s2) /\
     forall x y z,
       (x < n0 + 1 - s0)%nat -> (y < n1 + 1 - s1)%nat ->
       (z < n2 + 1 - s2)%nat ->
       (get3 edges (x + s0 / 2) (y + s1 / 2) (z + s2 / 2) = 0 ->
        get3 out x y z = 0) /\
       (get3 edges (x + s0 / 2) (y + s1 / 2) (z + s2 / 2) <> 0 ->
        exists k,
          kernel_at dt arr (s0, s1, s2) x y z = Ok k /\
          get3 out x y z = as_uint64 k))
  /\
  (dt = np_uint64 ->
   (exists x y z,
      (x < n0 + 1 - s0)%nat /\ (y < n1 + 1 - s1)%nat /\
      (z < n2 + 1 - s2)%nat /\
      get3 edges (x + s0 / 2) (y + s1 / 2) (z + s2 / 2) <> 0 /\
      has_partner (window_at arr (s0, s1, s2) x y z)
                  (center_at arr (s0, s1, s2) x y z)) ->
   process_block_nonzero dt edges arr (s0, s1, s2) = Raise TypeError).
Proof.
intros Hodd H0 H1 H2 Harr Hedges.
destruct (stencil_odd_inv _ _ _ Hodd) as (M0 & M1 & M2).
pose proof (odd_half s0 M0) as E0. pose proof (odd_half s1 M1) as E1.
pose proof (odd_half s2 M2) as E2.
set (o0 := (s0 / 2)%nat) in *. set (o1 := (s1 / 2)%nat) in *.
set (o2 := (s2 / 2)%nat) in *.
set (inner := map (fun plane => map (inner_slice o2) (inner_slice o1 plane))
                  (inner_slice o0 edges)).
destruct (inner_spec edges n0 n1 n2 o0 o1 o2 Hedges ltac:(lia) ltac:(lia)
            ltac:(lia)) as [Hl0 Hinner]. fold inner in Hl0, Hinner.
assert (HL : forall x y z, In (x, y, z) (nonzero3 inner) <->
          (x < n0 + 1 - s0)%nat /\ (y < n1 + 1 - s1)%nat /\
          (z < n2 + 1 - s2)%nat /\
          get3 edges (x + o0) (y + o1) (z + o2) <> 0).
{ intros x y z. rewrite nonzero3_In. split.
  - intros (Hx & Hy & Hz & Hne).
    rewrite Hl0 in Hx. destruct (Hinner x ltac:(lia)) as [Hl1 Hrows].
    rewrite Hl1 in Hy. destruct (Hrows y ltac:(lia)) as [Hl2 Hget].
    rewrite Hl2 in Hz. rewrite (Hget z ltac:(lia)) in Hne.
    rewrite (Nat.add_comm x), (Nat.add_comm y), (Nat.add_comm z).
    repeat split; try lia; assumption.
  - intros (Hx & Hy & Hz & Hne).
    rewrite Hl0. destruct (Hinner x ltac:(lia)) as [Hl1 Hrows].
    rewrite Hl1. destruct (Hrows y ltac:(lia)) as [Hl2 Hget].
    rewrite Hl2, (Hget z ltac:(lia)).
    rewrite (Nat.add_comm o0), (Nat.add_comm o1), (Nat.add_comm o2).
    repeat split; try lia; assumption. }
assert (Hwin : forall x y z,
          (x < n0 + 1 - s0)%nat -> (y < n1 + 1 - s1)%nat ->
          (z < n2 + 1 - s2)%nat ->
          window_at arr (s0, s1, s2) x y z <> []).
{ intros x y z Hx Hy Hz Hnil. unfold window_at in Hnil.
  pose proof (window_In arr n0 n1 n2 x (x + s0) y (y + s1) z (z + s2)
                (x + o0) (y + o1) (z + o2) Harr ltac:(lia) ltac:(lia)
                ltac:(lia) ltac:(lia) ltac:(lia) ltac:(lia)) as Hin.
  rewrite Hnil in Hin. destruct Hin. }
assert (Hrun : process_block_nonzero dt edges arr (s0, s1, s2)
          = for_each (nonzero3 inner)
              (fun p out => let '(x, y, z) := p in
                 k <- kernel_at dt arr (s0, s1, s2) x y z ;;
                 setitem3 out x y z k)
              (zeros3 (n0 + 1 - s0) (n1 + 1 - s1) (n2 + 1 - s2))).
{ unfold process_block_nonzero. rewrite Hodd. cbv [negb].
  rewrite (shape3_of_shape arr n0 n1 n2 Harr) by lia.
  destruct (Nat.ltb_spec (n0 + 1) s0); [lia|].
  destruct (Nat.ltb_spec (n1 + 1) s1); [lia|].
  destruct (Nat.ltb_spec (n2 + 1) s2); [lia|].
  cbv [orb]. fold o0 o1 o2. fold inner.
  apply for_each_ext_in. intros [[x y] z] out Hin.
  apply HL in Hin. destruct Hin as (Hx & Hy & Hz & _).
  rewrite (getitem3_shape arr n0 n1 n2) by (assumption || lia).
  reflexivity. }
split.
- intros Hcase.
  destruct (flagged_loop (kernel_at dt arr (s0, s1, s2))
              (n0 + 1 - s0) (n1 + 1 - s1) (n2 + 1 - s2) (nonzero3 inner))
    with (out0 := zeros3 (n0 + 1 - s0) (n1 + 1 - s1) (n2 + 1 - s2))
    as (out & E & Hsh & Hout).
  { intros x y z Hin. apply HL in Hin.
    destruct Hin as (Hx & Hy & Hz & Hne).
    repeat split; try assumption. unfold kernel_at.
    destruct Hcase as [-> | Hno].
    - apply kernel_total. now apply Hwin.
    - exists 0. apply kernel_no_partner; [now apply Hwin|].
      now apply Hno. }
  { apply zeros3_shape. }
  exists out. split; [now rewrite Hrun|]. split; [assumption|].
  intros x y z Hx Hy Hz. destruct (Hout x y z Hx Hy Hz) as [Hin Hnin].
  split.
  + intros Hz0. rewrite Hnin.
    * now apply get3_zeros3.
    * intros H. apply HL in H. destruct H as (_ & _ & _ & Hne).
      contradiction.
  + intros Hne. apply Hin. apply HL. auto.
- intros -> (x & y & z & Hx & Hy & Hz & Hne & Hp).
  rewrite Hrun.
  apply (flagged_loop_raise (kernel_at np_uint64 arr (s0, s1, s2)) TypeError
           (n0 + 1 - s0) (n1 + 1 - s1) (n2 + 1 - s2) _ x y z).
  + intros x' y' z' Hin. apply HL in Hin.
    destruct Hin as (Hx' & Hy' & Hz' & _).
    repeat split; try assumption. unfold kernel_at.
    destruct (has_partner_dec (window_at arr (s0, s1, s2) x' y' z')
                              (center_at arr (s0, s1, s2) x' y' z'))
      as [Hyes|Hno].
    * right. now apply kernel_uint64_partner.
    * left. exists 0. apply kernel_no_partner; [now apply Hwin | assumption].
  + apply HL. auto.
  + unfold kernel_at. now apply kernel_uint64_partner.
  + apply zeros3_shape.
Qed.

Lemma process_block_nonzero_output_witness :
  exists out,
    process_block_nonzero np_int64 Fixtures.edges_center Fixtures.arr_two_ids
                          (7, 7, 3)%nat = Ok out /\
    exists k,
      kernel_at np_int64 Fixtures.arr_two_ids (7, 7, 3)%nat 0 0 0 = Ok k /\
      get3 out 0 0 0 = as_uint64 k.
Proof.
destruct (process_block_nonzero_output np_int64 Fixtures.edges_center
            Fixtures.arr_two_ids 7 7 3 7 7 3) as [Hok _].
- reflexivity.
- lia.
- lia.
- lia.
- apply fixture_shapes.
- apply fixture_shapes.
- destruct (Hok (or_introl eq_refl)) as (out & E & _ & H).
  exists out. split; [exact E|].
  destruct (H 0%nat 0%nat 0%nat) as [_ Hk]; [lia | lia | lia |].
  apply Hk. discriminate.
Defined.

(** The same arrays as [uint64]: the flagged voxel has the partner 2. *)
Example process_block_nonzero_uint64 :
  process_block_nonzero np_uint64 Fixtures.edges_center Fixtures.arr_two_ids
                        (7, 7, 3)%nat = Raise TypeError.
Proof. reflexivity. Qed.

(** X22: A stencil with an axis of size 1 has the offset 0 on that axis, and
    the slice [0:-0] of the edge mask is empty: whatever the edge mask
    flags, [process_block_nonzero] returns an array of zeros. *)
Theorem process_block_nonzero_flat_stencil (dt : id_dtype)
        (edges arr : array3) (s0 s1 s2 : nat) :
  stencil_odd (s0, s1, s2) = true ->
  s0 = 1%nat \/ s1 = 1%nat \/ s2 = 1%nat ->
  (s0 <= length arr + 1)%nat ->
  (s1 <= length (nth 0 arr []) + 1)%nat ->
  (s2 <= length (nth 0 (nth 0 arr []) []) + 1)%nat ->
  process_block_nonzero dt edges arr (s0, s1, s2)
    = Ok (zeros3 (length arr + 1 - s0)
                 (length (nth 0 arr []) + 1 - s1)
                 (length (nth 0 (nth 0 arr []) []) + 1 - s2)).
Proof.
intros Hodd Hflat H0 H1 H2.
unfold process_block_nonzero. rewrite Hodd. cbv [negb shape3].
destruct (Nat.ltb_spec (length arr + 1) s0); [lia|].
destruct (Nat.ltb_spec (length (nth 0 arr []) + 1) s1); [lia|].
destruct (Nat.ltb_spec (length (nth 0 (nth 0 arr []) []) + 1) s2); [lia|].
cbv [orb].
rewrite nonzero3_empty; [reflexivity|].
intros x y z Hx Hy Hz.
destruct Hflat as [-> | [-> | ->]].
- simpl in Hx. lia.
- change (1 / 2)%nat with 0%nat in Hy. simpl inner_slice in Hy.
  rewrite nth_all_nil in Hy; [simpl in Hy; lia|].
  intros r Hr. apply in_map_iff in Hr. now destruct Hr as (p & <- & _).
- change (1 / 2)%nat with 0%nat in Hz.
  rewrite (nth_all_nil (nth x _ [])) in Hz; [simpl in Hz; lia|].
  intros r Hr.
  destruct (Nat.lt_ge_cases x
              (length (map (fun plane =>
                              map (inner_slice 0) (inner_slice (s1 / 2) plane))
                           (inner_slice (s0 / 2) edges)))) as [Hlt|Hge].
  + rewrite length_map in Hlt.
    rewrite (nth_map_in _ _ x []) in Hr by assumption.
    apply in_map_iff in Hr. now destruct Hr as (p & <- & _).
  + rewrite nth_overflow in Hr by assumption. destruct Hr.
Qed.

Lemma process_block_nonzero_flat_stencil_witness :
  process_block_nonzero np_int64 Fixtures.edges_center Fixtures.arr_two_ids
                        (1, 7, 3)%nat
    = Ok (zeros3 (7 + 1 - 1) (7 + 1 - 7) (3 + 1 - 3)).
Proof.
apply (process_block_nonzero_flat_stencil np_int64 Fixtures.edges_center
         Fixtures.arr_two_ids 1 7 3).
- reflexivity.
- now left.
- simpl. lia.
- simpl. lia.
- simpl. lia.
Defined.

(** X23: Under Python 2, for a stencil of odd sizes of at least 3 and an
    edge mask of the shape of the label array, [process_block] on a label
    array that is not [uint64] returns an array of the shape of the label
    array.  A flagged voxel that is at least half a stencil away from
    every border holds the result of [kernel] on the window the source
    cuts around it, which stops one voxel short of the stencil on the
    second and on the third axis, as [uint64] stores it; every other
    voxel holds 0.  On a [uint64] label array the same holds as long as
    no such voxel has a partner in its window; as soon as one has, the
    function raises [TypeError].  Under Python 3 the function raises
    [TypeError] on every input: the offsets are floats. *)
Theorem process_block_output (dt : id_dtype) (edges arr : array3)
        (s0 s1 s2 n0 n1 n2 : nat) :
  stencil_odd (s0, s1, s2) = true ->
  (3 <= s0)%nat -> (3 <= s1)%nat -> (3 <= s2)%nat ->
  (0 < n0)%nat -> (0 < n1)%nat ->
  has_shape arr n0 n1 n2 -> has_shape edges n0 n1 n2 ->
  (dt = np_int64 \/
   (forall x y z,
      In (x, y, z) (interior (s0, s1, s2) n0 n1 n2) ->
      get3 edges x y z <> 0 ->
      ~ has_partner (block_window_at arr (s0, s1, s2) x y z)
                    (get3 arr x y z)) ->
   exists out,
     process_block Python2 dt edges arr (s0, s1, s2) = Ok out /\
     has_shape out n0 n1 n2 /\
     forall x y z, (x < n0)%nat -> (y < n1)%nat -> (z < n2)%nat ->
       (In (x, y, z) (interior (s0, s1, s2) n0 n1 n2) ->
        get3 edges x y z <> 0 ->
        exists k,
          block_kernel_at dt arr (s0, s1, s2) x y z = Ok k /\
          get3 out x y z = as_uint64 k) /\
       (~ In (x, y, z) (interior (s0, s1, s2) n0 n1 n2) \/
        get3 edges x y z = 0 ->
        get3 out x y z = 0))
  /\
  (dt = np_uint64 ->
   (exists x y z,
      In (x, y, z) (interior (s0, s1, s2) n0 n1 n2) /\
      get3 edges x y z <> 0 /\
      has_partner (block_window_at arr (s0, s1, s2) x y z)
                  (get3 arr x y z)) ->
   process_block Python2 dt edges arr (s0, s1, s2) = Raise TypeError)
  /\
  process_block Python3 dt edges arr (s0, s1, s2) = Raise TypeError.
Proof.
intros Hodd H0 H1 H2 Hn0 Hn1 Harr Hedges.
destruct (stencil_odd_inv _ _ _ Hodd) as (M0 & M1 & M2).
pose proof (odd_half s0 M0) as E0. pose proof (odd_half s1 M1) as E1.
pose proof (odd_half s2 M2) as E2.
set (L := interior (s0, s1, s2) n0 n1 n2).
set (keep := fun p : nat * nat * nat =>
               let '(x, y, z) := p in negb (get3 edges x y z =? 0)).
assert (HL : forall x y z, In (x, y, z) (filter keep L) <->
               In (x, y, z) L /\ get3 edges x y z <> 0).
{ intros x y z. rewrite filter_In. unfold keep.
  destruct (Z.eqb_spec (get3 edges x y z) 0); simpl; intuition congruence. }
assert (Hin : forall x y z, In (x, y, z) L ->
                (x < n0)%nat /\ (y < n1)%nat /\ (z < n2)%nat).
{ intros x y z H. apply interior_In in H. lia. }
assert (Hwin : forall x y z, In (x, y, z) L ->
                block_window_at arr (s0, s1, s2) x y z <> []).
{ intros x y z H Hnil. unfold block_window_at in Hnil.
  apply interior_In in H.
  pose proof (window_In arr n0 n1 n2
                (x - s0 / 2) (x + s0 / 2 + 1) (y - s1 / 2) (y + s1 / 2)
                (z - s2 / 2) (z + s2 / 2) x y z Harr
                ltac:(lia) ltac:(lia) ltac:(lia) ltac:(lia) ltac:(lia)
                ltac:(lia)) as Hw.
  rewrite Hnil in Hw. destruct Hw. }
assert (Hrun : process_block Python2 dt edges arr (s0, s1, s2)
          = for_each (filter keep L)
              (fun p out => let '(x, y, z) := p in
                 k <- block_kernel_at dt arr (s0, s1, s2) x y z ;;
                 setitem3 out x y z k)
              (zeros3 n0 n1 n2)).
{ rewrite process_block_flat_loop by assumption.
  rewrite (shape3_of_shape arr n0 n1 n2 Harr) by assumption.
  fold L. rewrite <- for_each_filter.
  apply for_each_ext_in. intros [[x y] z] s H.
  destruct (Hin x y z H) as (Hx & Hy & Hz). unfold keep.
  rewrite (getitem3_shape edges n0 n1 n2) by assumption. simpl bind.
  destruct (Z.eqb_spec (get3 edges x y z) 0); simpl; [reflexivity|].
  rewrite (getitem3_shape arr n0 n1 n2) by assumption. reflexivity. }
split; [|split].
- intros Hcase.
  destruct (flagged_loop (block_kernel_at dt arr (s0, s1, s2)) n0 n1 n2
              (filter keep L)) with (out0 := zeros3 n0 n1 n2)
    as (out & E & Hsh & Hout).
  { intros x y z H. apply HL in H. destruct H as [H Hne].
    destruct (Hin x y z H) as (Hx & Hy & Hz). repeat split; try assumption.
    unfold block_kernel_at. destruct Hcase as [-> | Hno].
    - apply kernel_total. now apply Hwin.
    - exists 0. apply kernel_no_partner; [now apply Hwin|].
      now apply Hno. }
  { apply zeros3_shape. }
  exists out. split; [now rewrite Hrun|]. split; [assumption|].
  intros x y z Hx Hy Hz. destruct (Hout x y z Hx Hy Hz) as [Hyes Hno].
  split.
  + intros HinL Hne. apply Hyes. now apply HL.
  + intros H. rewrite Hno; [now apply get3_zeros3|].
    intros Hf. apply HL in Hf. destruct Hf as [Hf1 Hf2].
    destruct H as [H|H]; contradiction.
- intros -> (x & y & z & HinL & Hne & Hp).
  rewrite Hrun.
  apply (flagged_loop_raise (block_kernel_at np_uint64 arr (s0, s1, s2))
           TypeError n0 n1 n2 _ x y z).
  + intros x' y' z' H. apply HL in H. destruct H as [H _].
    destruct (Hin x' y' z' H) as (Hx & Hy & Hz).
    repeat split; try assumption. unfold block_kernel_at.
    destruct (has_partner_dec (block_window_at arr (s0, s1, s2) x' y' z')
                              (get3 arr x' y' z')) as [Hyes|Hno].
    * right. now apply kernel_uint64_partner.
    * left. exists 0. apply kernel_no_partner; [now apply Hwin | assumption].
  + apply HL. auto.
  + unfold block_kernel_at. now apply kernel_uint64_partner.
  + apply zeros3_shape.
- now apply process_block_python3.
Qed.

Lemma process_block_output_witness :
  exists out,
    process_block Python2 np_int64 Fixtures.edges_center Fixtures.arr_two_ids
                  (7, 7, 3)%nat = Ok out /\
    exists k,
      block_kernel_at np_int64 Fixtures.arr_two_ids (7, 7, 3)%nat 3 3 1
        = Ok k /\
      get3 out 3 3 1 = as_uint64 k.
Proof.
destruct (process_block_output np_int64 Fixtures.edges_center
            Fixtures.arr_two_ids 7 7 3 7 7 3) as [Hok _].
- reflexivity.
- lia.
- lia.
- lia.
- lia.
- lia.
- apply fixture_shapes.
- apply fixture_shapes.
- destruct (Hok (or_introl eq_refl)) as (out & E & _ & H).
  exists out. split; [exact E|].
  destruct (H 3%nat 3%nat 1%nat) as [Hk _]; [lia | lia | lia |].
  apply Hk; [simpl; tauto | discriminate].
Defined.

(** X24: Under Python 2, with a stencil of size 1 on the second or on the
    third axis the window of [process_block] is empty, and [kernel]
    raises [ValueError] on it: for an edge mask of the shape of the label
    array the function fails as soon as the edge mask flags one interior
    voxel, whatever the integer dtype.  Under Python 3 it raises
    [TypeError] before that. *)
Theorem process_block_flat_stencil_raises (dt : id_dtype)
        (edges arr : array3) (s0 s1 s2 n0 n1 n2 x y z : nat) :
  stencil_odd (s0, s1, s2) = true ->
  s1 = 1%nat \/ s2 = 1%nat ->
  (0 < n0)%nat -> (0 < n1)%nat ->
  has_shape arr n0 n1 n2 -> has_shape edges n0 n1 n2 ->
  In (x, y, z) (interior (s0, s1, s2) n0 n1 n2) ->
  get3 edges x y z <> 0 ->
  process_block Python2 dt edges arr (s0, s1, s2) = Raise ValueError /\
  process_block Python3 dt edges arr (s0, s1, s2) = Raise TypeError.
Proof.
intros Hodd Hflat Hn0 Hn1 Harr Hedges Hin Hne.
split; [|now apply process_block_python3].
rewrite process_block_flat_loop by assumption.
rewrite (shape3_of_shape arr n0 n1 n2 Harr) by assumption.
assert (Hk : forall c x y z,
          kernel dt (block_window_at arr (s0, s1, s2) x y z) c
            = Raise ValueError).
{ intros c x' y' z'. unfold block_window_at.
  rewrite window_empty; [reflexivity|].
  destruct Hflat as [-> | ->]; [left | right];
    change (1 / 2)%nat with 0%nat; lia. }
assert (Hb : forall x y z, In (x, y, z) (interior (s0, s1, s2) n0 n1 n2) ->
               (x < n0)%nat /\ (y < n1)%nat /\ (z < n2)%nat).
{ intros x' y' z' H. apply interior_In in H. lia. }
apply (CollectFacts.for_each_raise _ ValueError _ (x, y, z));
  [|assumption|].
- intros [[x' y'] z'] out H. destruct (Hb x' y' z' H) as (Hx & Hy & Hz).
  rewrite (getitem3_shape edges n0 n1 n2) by assumption. cbn [bind].
  destruct (get3 edges x' y' z' =? 0); [left; eauto|].
  right. rewrite (getitem3_shape arr n0 n1 n2) by assumption. cbn [bind].
  now rewrite Hk.
- intros out. destruct (Hb x y z Hin) as (Hx & Hy & Hz).
  rewrite (getitem3_shape edges n0 n1 n2) by assumption. cbn [bind].
  destruct (Z.eqb_spec (get3 edges x y z) 0); [contradiction|].
  rewrite (getitem3_shape arr n0 n1 n2) by assumption. cbn [bind].
  now rewrite Hk.
Qed.

Lemma process_block_flat_stencil_raises_witness :
  process_block Python2 np_int64 Fixtures.edges_center Fixtures.arr_two_ids
                (7, 7, 1)%nat = Raise ValueError /\
  process_block Python3 np_int64 Fixtures.edges_center Fixtures.arr_two_ids
                (7, 7, 1)%nat = Raise TypeError.
Proof.
apply (process_block_flat_stencil_raises np_int64 Fixtures.edges_center
         Fixtures.arr_two_ids 7 7 1 7 7 3 3 3 1).
- reflexivity.
- now right.
- lia.
- lia.
- apply fixture_shapes.
- apply fixture_shapes.
- simpl. tauto.
- discriminate.
Defined.

(** An edge mask that is smaller than the label array: the first voxel
    of the loop that lies outside of it raises [IndexError]. *)
Example process_block_small_edges :
  process_block Python2 np_int64 [[[0]]] Fixtures.arr_two_ids (7, 7, 3)%nat
    = Raise IndexError.
Proof. reflexivity. Qed.

End ProcessBlockSpec.

(** * Further properties of objectextraction.py: the overlap *)

Module OverlapMoreSpec.
Import ObjectExtraction OverlapFacts.

(** X25: For sigmas that form an array (the lists of the channels have
    one length), the automatic overlap is wide enough for every channel
    and axis: it is at least [4 * sigma + 1] for every sigma, and less
    than one voxel wider than that for the largest sigma. *)
Theorem auto_overlap_covers_every_sigma (hdf5names : list string)
        (sigmas : list (list Q)) (thresholds : option (list Q)) :
  length sigmas = length hdf5names ->
  (forall t, thresholds = Some t -> length t = length hdf5names) ->
  rectangular sigmas = true ->
  concat sigmas <> [] ->
  exists c,
    gtcc_overlap hdf5names OverlapAuto (Some sigmas) thresholds
      = Ok ((c, c, c), (1, 1, 1)) /\
    (forall s, In s (concat sigmas) -> (4 * s + 1 <= inject_Z c)%Q) /\
    (exists s, In s (concat sigmas) /\ (inject_Z c < 4 * s + 2)%Q).
Proof.
intros Hs Ht Hrect Hne.
destruct (np_max_Q_spec (concat sigmas) Hne) as (m & Hm & Hin & Hmax).
exists (Qceiling (m * 4) + 1). split; [|split].
- unfold gtcc_overlap, np_max_rows.
  assert (El : length (match thresholds with
                       | Some t => t
                       | None => repeat 0%Q (length hdf5names)
                       end) = length hdf5names).
  { destruct thresholds as [t|]; [now apply Ht | apply repeat_length]. }
  rewrite El, Hs, Nat.eqb_refl, Hrect. simpl. now rewrite Hm.
- intros s Hsin. rewrite inject_Z_plus.
  pose proof (Qle_ceiling (m * 4)) as Hc.
  pose proof (Hmax s Hsin) as Hle.
  change (inject_Z 1) with 1%Q.
  generalize dependent (inject_Z (Qceiling (m * 4))). intros k Hc.
  clear - Hle Hc. lra.
- exists m. split; [assumption|]. rewrite inject_Z_plus.
  pose proof (Qceiling_lt (m * 4)) as Hc.
  unfold Z.sub in Hc. rewrite inject_Z_plus in Hc.
  change (inject_Z (- (1))) with (- (1))%Q in Hc.
  change (inject_Z 1) with 1%Q.
  generalize dependent (inject_Z (Qceiling (m * 4))). intros k Hc.
  clear - Hc. lra.
Qed.

Lemma auto_overlap_covers_every_sigma_witness :
  exists c,
    gtcc_overlap ["sj"; "vc"] OverlapAuto
                 (Some [[1 # 2; 3 # 4; 1]; [2; 2; 11 # 10]]%Q)
                 (Some [1 # 2; 1 # 2]%Q) = Ok ((c, c, c), (1, 1, 1)) /\
    (forall s, In s (concat [[1 # 2; 3 # 4; 1]; [2; 2; 11 # 10]]%Q) ->
               (4 * s + 1 <= inject_Z c)%Q) /\
    (exists s, In s (concat [[1 # 2; 3 # 4; 1]; [2; 2; 11 # 10]]%Q) /\
               (inject_Z c < 4 * s + 2)%Q).
Proof.
apply (auto_overlap_covers_every_sigma ["sj"; "vc"]
         [[1 # 2; 3 # 4; 1]; [2; 2; 11 # 10]]%Q (Some [1 # 2; 1 # 2]%Q)).
- reflexivity.
- intros t H; injection H as <-; reflexivity.
- reflexivity.
- discriminate.
Defined.



End OverlapMoreSpec.

(** * Further properties of objectextraction.py: the merge dictionary *)

Module MergeDictSpec.
Import Np DictFacts ObjectExtraction GraphFacts MergeFacts MergeNamesFacts.
Import MergeDictFacts.

Local Abbreviation sget := (Dict.get String.eqb).

(** X27: The two results of [make_merge_list] agree: for every name the
    merge dictionary holds exactly the ids that appear in an edge of the
    stitch list, and it gives for each of them the id the merge list holds
    at that position. An id of no edge is not a key of the dictionary. *)
Theorem merge_dict_matches_merge_list
        (set_iter : list Z -> list Z) (hdf5names : list string)
        (stitch_list : list (string * list (Z * Z)))
        (max_labels : list (string * Z)) :
  set_iter_ok set_iter ->
  Forall (merge_input_ok 0 stitch_list max_labels) hdf5names ->
  exists merge_dict merge_list_dict,
    make_merge_list set_iter hdf5names stitch_list max_labels
      = Ok (merge_dict, merge_list_dict) /\
    forall h es, In h hdf5names -> sget stitch_list h = Ok es ->
      exists md ml,
        sget merge_dict h = Ok md /\ sget merge_list_dict h = Ok ml /\
        (forall id, mentioned es id <-> exists r, Dict.get Z.eqb md id = Ok r) /\
        (forall id r, Dict.get Z.eqb md id = Ok r -> remap ml id = r).
Proof.
intros Hiter Hall.
destruct (make_merge_list_spec set_iter hdf5names stitch_list max_labels
                               Hiter Hall) as (mdd & mld & E & Hentry).
exists mdd, mld. split; [exact E|].
intros h es Hh Es.
rewrite Forall_forall in Hall.
destruct (Hall h Hh) as (es0 & m & Es0 & Em & Hids).
assert (es0 = es) by congruence. subst es0.
destruct (Hentry h es m Hh Es Em) as (md & ml & Eml & Emd & Emlg).
exists md, ml. split; [assumption|]. split; [assumption|].
now apply (merge_dict_spec set_iter Hiter es m).
Qed.

Lemma merge_dict_matches_merge_list_witness :
  exists merge_dict merge_list_dict,
    make_merge_list insertion_order ["sj"] [("sj", [(1, 2); (2, 3)])]
                    [("sj", 4)] = Ok (merge_dict, merge_list_dict) /\
    forall h es, In h ["sj"] -> sget [("sj", [(1, 2); (2, 3)])] h = Ok es ->
      exists md ml,
        sget merge_dict h = Ok md /\ sget merge_list_dict h = Ok ml /\
        (forall id, mentioned es id <-> exists r, Dict.get Z.eqb md id = Ok r) /\
        (forall id r, Dict.get Z.eqb md id = Ok r -> remap ml id = r).
Proof.
apply (merge_dict_matches_merge_list insertion_order ["sj"]
         [("sj", [(1, 2); (2, 3)])] [("sj", 4)]).
- apply insertion_order_ok.
- constructor; [|constructor].
  exists [(1, 2); (2, 3)], 4. split; [reflexivity|]. split; [reflexivity|].
  intros a b H. simpl in H.
  destruct H as [H|[H|[]]]; injection H as <- <-; lia.
Defined.

(** The two results for the edges (1, 2) and (2, 3) with ids up to 4. *)
Example merge_dict_example :
  make_merge_list insertion_order ["sj"] [("sj", [(1, 2); (2, 3)])]
                  [("sj", 4)]
    = Ok ([("sj", [(1, 1); (2, 1); (3, 1)])], [("sj", [0; 1; 1; 1; 4])]).
Proof. reflexivity. Qed.

(** X28: An edge with an id above [max_labels] of the first name is not
    ignored: [make_merge_list] raises [IndexError] when it writes the
    merge list at that id, whatever the other edges and names are. *)
Theorem merge_list_id_above_max_label
        (set_iter : list Z -> list Z) (h : string) (rest : list string)
        (stitch_list : list (string * list (Z * Z)))
        (max_labels : list (string * Z)) (es : list (Z * Z))
        (max_label id : Z) :
  set_iter_ok set_iter ->
  sget stitch_list h = Ok es -> sget max_labels h = Ok max_label ->
  mentioned es id -> 0 <= id -> max_label < id ->
  make_merge_list set_iter (h :: rest) stitch_list max_labels
    = Raise IndexError.
Proof.
intros Hiter Es Em Hmen H0 Hid.
unfold make_merge_list. cbn [for_each]. unfold merge_for_name at 1.
rewrite Es, Em. cbn [bind].
now rewrite (merge_list_for_raises set_iter Hiter es max_label id Hmen H0 Hid).
Qed.

Lemma merge_list_id_above_max_label_witness :
  make_merge_list insertion_order ["sj"; "vc"] [("sj", [(1, 2); (2, 7)])]
                  [("sj", 4)] = Raise IndexError.
Proof.
apply (merge_list_id_above_max_label insertion_order "sj" ["vc"]
         [("sj", [(1, 2); (2, 7)])] [("sj", 4)] [(1, 2); (2, 7)] 4 7).
- apply insertion_order_ok.
- reflexivity.
- reflexivity.
- exists 2. right. simpl. tauto.
- lia.
- lia.
Defined.

End MergeDictSpec.
